(** * Map-table construction and the table cache: a shallow embedding

    The development follows [db/map_builder.cc] (range model, range loader,
    partitioner, map element iterator, map builder) and the table cache
    ([TableCache::FindTable], [TableCache::Get]).  Pure helpers are Rocq
    functions; loops are structural or fuelled recursions over an explicit
    state; code whose behaviour is undefined in C++ (reading a vector out
    of bounds, [back()] of an empty vector) returns [None]. *)

From Stdlib Require Import String.
From Stdlib Require Import ZArith List Bool Lia Sorted.
Import ListNotations.
Open Scope Z_scope.

(* ===================================================================== *)
(** * Definitions *)
(* ===================================================================== *)

(** ** Option as the error monad for undefined behaviour *)

Definition obind {A B : Type} (o : option A) (f : A -> option B) : option B :=
  match o with
  | Some a => f a
  | None => None
  end.

Notation "x <- e ;; k" := (obind e (fun x => k))
  (at level 61, e at next level, right associativity).

(** ** Internal keys

    Modelled from the spec: internal keys and their comparator, declared
    in [db/dbformat.h], which is missing from the sources.  An internal
    key is a user key followed by an 8-byte footer packing a 56-bit
    sequence number and an 8-bit value type; the order is user key
    ascending, then footer descending.  User keys are only ever
    inspected through the user comparator, a total order; they are
    represented by integers carrying that order.  The footer is a 64-bit
    unsigned integer. *)

Record InternalKey : Type := mkIKey { user_key : Z; footer : Z }.

Definition kMaxSequenceNumber : Z := 2 ^ 56 - 1.
Definition kMaxUint64 : Z := 2 ^ 64 - 1.

(** [kTypeDeletion], the least value type: 0 in [db/dbformat.h]. *)
Definition kTypeDeletion : Z := 0.

(** Modelled from the spec: the value type used for seeking, which is
    missing from the sources; the spec fixes the footer
    [(MaxSeq, TypeForSeek)] to be all ones, hence the type byte 0xFF. *)
Definition kValueTypeForSeek : Z := 255.

Definition PackSequenceAndType (seq t : Z) : Z := Z.lor (Z.shiftl seq 8) t.

Definition ExtractInternalKeyFooter (k : InternalKey) : Z := footer k.

Definition GetInternalKeySeqno (k : InternalKey) : Z := Z.shiftr (footer k) 8.

Definition ExtractUserKey (k : InternalKey) : Z := user_key k.

(** [InternalKey::Set(user_key, seq, type)]. *)
Definition SetKey (u seq t : Z) : InternalKey := mkIKey u (PackSequenceAndType seq t).

(** The user comparator: three-way comparison of user keys. *)
Definition user_Compare (a b : Z) : Z :=
  match a ?= b with
  | Lt => -1
  | Eq => 0
  | Gt => 1
  end.

(** [InternalKeyComparator::Compare]: user key ascending, then footer
    descending. *)
Definition Compare (a b : InternalKey) : Z :=
  let r := user_Compare (user_key a) (user_key b) in
  if r =? 0 then
    if footer a >? footer b then -1
    else if footer a <? footer b then 1
    else 0
  else r.

(** ** Range model *)

Record LinkTarget : Type := mkLink { file_number : Z; size : Z }.

Record RangeWithDepend : Type := mkRange {
  point0 : InternalKey;
  point1 : InternalKey;
  include0 : bool;
  include1 : bool;
  no_records : bool;
  stable : bool;
  dependence : list LinkTarget
}.

(** [r.point[i]] and [r.include[i]] for the index [i] in {0, 1}, held as a
    boolean ([false] for 0, [true] for 1). *)
Definition point (r : RangeWithDepend) (i : bool) : InternalKey :=
  if i then point1 r else point0 r.

Definition include (r : RangeWithDepend) (i : bool) : bool :=
  if i then include1 r else include0 r.

(** A default-constructed [InternalKey] is empty; it is never read before
    it is assigned. *)
Definition empty_key : InternalKey := mkIKey 0 0.

(** The value-initialised element that [output.emplace_back()] appends. *)
Definition default_range : RangeWithDepend :=
  mkRange empty_key empty_key false false false false [].

Definition set_point0 (k : InternalKey) (i : bool) (r : RangeWithDepend) :=
  mkRange k (point1 r) i (include1 r) (no_records r) (stable r) (dependence r).

Definition set_point1 (k : InternalKey) (i : bool) (r : RangeWithDepend) :=
  mkRange (point0 r) k (include0 r) i (no_records r) (stable r) (dependence r).

Definition set_stable (s : bool) (r : RangeWithDepend) :=
  mkRange (point0 r) (point1 r) (include0 r) (include1 r) (no_records r) s
          (dependence r).

Definition set_depend (n s : bool) (d : list LinkTarget) (r : RangeWithDepend) :=
  mkRange (point0 r) (point1 r) (include0 r) (include1 r) n s d.

(** Modelled from the spec: [ParseInternalKey], declared in
    [db/dbformat.h], which is missing from the sources.  It splits the
    footer into the 56-bit sequence number and the 8-bit value type and
    rejects a key whose type byte is not a value type.  Which bytes are
    value types is left open: the development holds for every choice of
    [IsValueType]. *)
Class ValueTypes : Type := { IsValueType : Z -> bool }.

Record ParsedInternalKey : Type := mkParsed {
  pik_user_key : Z;
  pik_sequence : Z;
  pik_type : Z
}.

(** The value types of the examples: every type byte is one. *)
Definition every_type : ValueTypes := {| IsValueType := fun _ => true |}.

Section KeyFormat.

Context {value_types : ValueTypes}.

Definition ParseInternalKey (k : InternalKey) : option ParsedInternalKey :=
  let c := Z.land (footer k) 255 in
  if IsValueType c
  then Some (mkParsed (user_key k) (Z.shiftr (footer k) 8) c)
  else None.

(** [IsEmptyMapSstElement]: a single link, both endpoints on one user key,
    and the upper endpoint parsing to the maximal sequence number. *)
Definition IsEmptyMapSstElement (range : RangeWithDepend) : bool :=
  if negb (Nat.eqb (length (dependence range)) 1) then false
  else if negb (user_Compare (user_key (point0 range))
                             (user_key (point1 range)) =? 0) then false
  else
    match ParseInternalKey (point1 range) with
    | None => false
    | Some pikey => pik_sequence pikey =? kMaxSequenceNumber
    end.

(** [CompInclude(c, ab, ai, bb, bi)]: [ab]/[bb] tell whether the endpoint
    is a left (0) or right (1) bound, [ai]/[bi] whether it is inclusive.
    The cases are those of the switch, in source order. *)
Definition CompInclude (c : Z) (ab ai bb bi : bool) : Z :=
  if negb (c =? 0) then c
  else
    match ab, ai, bb, bi with
    | false, true, false, false
    | false, true, true, false
    | false, false, true, true
    | true, false, true, true
    | true, false, false, false
    | false, true, true, true => -1
    | false, false, false, true
    | true, false, false, true
    | true, true, false, false
    | true, true, true, false
    | false, false, true, false
    | true, true, false, true => 1
    | _, _, _, _ => 0
    end.

(** ** The partitioner *)

Inductive PartitionType : Type := kMerge | kDelete.

Inductive Side : Type := RangesA | RangesB.

(** A [const RangeWithDepend*]: null, or the address of an element of
    [ranges_a] or of [ranges_b]. *)
Definition RangePtr : Type := option (Side * nat).

Definition ptr_eqb (p q : Side * nat) : bool :=
  match fst p, fst q with
  | RangesA, RangesA | RangesB, RangesB => Nat.eqb (snd p) (snd q)
  | _, _ => false
  end.

(** The vector [output] is kept with [output.back()] at the head of the
    list; [source] is the captured pointer of the lambdas, which the
    first [put_left] sets before anything reads it. *)
Record Sweep : Type := mkSweep {
  output : list RangeWithDepend;
  source : RangePtr
}.

Definition put_left (key : InternalKey) (incl : bool) (r : RangePtr)
           (s : Sweep) : Sweep :=
  mkSweep (set_point0 key incl default_range :: output s) r.

(** [source == nullptr || r == nullptr || source != r]. *)
Definition unstable (src r : RangePtr) : bool :=
  match src, r with
  | Some p, Some q => negb (ptr_eqb p q)
  | _, _ => true
  end.

(** [put_right].  After the second [pop_back] the write to [back.stable]
    lands in the slot just vacated and changes no element of the vector. *)
Definition put_right (key : InternalKey) (incl : bool) (r : RangePtr)
           (s : Sweep) : option Sweep :=
  match output s with
  | [] => None
  | back :: rest =>
      if match dependence back with [] => true | _ => false end
         || ((Compare key (point0 back) =? 0)
             && (negb (include0 back) || negb incl))
      then Some (mkSweep rest (source s))
      else
        let back := set_point1 key incl back in
        if IsEmptyMapSstElement back then Some (mkSweep rest (source s))
        else if unstable (source s) r
             then Some (mkSweep (set_stable false back :: rest) (source s))
             else Some (mkSweep (back :: rest) (source s))
  end.

(** [put_depend(a, b)], the pointers already dereferenced. *)
Definition put_depend (type : PartitionType)
           (a b : option RangeWithDepend) (s : Sweep) : option Sweep :=
  match output s with
  | [] => None
  | back :: rest =>
      let back' :=
        match type with
        | kMerge =>
            match a, b with
            | Some a, Some b =>
                set_depend (no_records back) false
                           (dependence a ++ dependence b) back
            | Some a, None =>
                set_depend (no_records a) (stable a) (dependence a) back
            | None, Some b =>
                set_depend (no_records b) (stable b) (dependence b) back
            | None, None => back
            end
        | kDelete =>
            match b with
            | None =>
                match a with
                | Some a =>
                    set_depend (no_records a) (stable a) (dependence a) back
                | None => back
                end
            | Some _ => back
            end
        end in
      Some (mkSweep (back' :: rest) (source s))
  end.

(** The loop variables: range indices [ai], [bi]; bound selectors [ab],
    [bb], which only take the values 0 and 1 and are held as booleans, so
    that [(ab + ac) / 2] is [ab && ac] and [(ab + ac) % 2] is
    [xorb ab ac]. *)
Record Cursor : Type := mkCursor {
  c_ai : nat;
  c_bi : nat;
  c_ab : bool;
  c_bb : bool;
  c_sweep : Sweep
}.

Section Partition.

Variables ranges_a ranges_b : list RangeWithDepend.
Variable type : PartitionType.

(** The comparison at the head of the loop body. *)
Definition compare_bounds (ai bi : nat) (ab bb : bool) : option Z :=
  if (Nat.ltb ai (length ranges_a)) && (Nat.ltb bi (length ranges_b)) then
    a <- nth_error ranges_a ai ;;
    b <- nth_error ranges_b bi ;;
    Some (CompInclude (Compare (point a ab) (point b bb))
                      ab (include a ab) bb (include b bb))
  else Some (if Nat.ltb ai (length ranges_a) then -1 else 1).

(** The switch of the loop body, one branch per [case], in source
    order.  The [default] branch is [assert(false)]: the remaining
    combinations need [c] to be at once positive and negative, or to
    be 0 on a left and a right bound, which [CompInclude] never
    answers. *)
Definition dispatch (ai bi : nat) (ab bb ac bc : bool) (s : Sweep)
  : option Sweep :=
  let pa := Some (RangesA, ai) in
  let pb := Some (RangesB, bi) in
  match ab, bb, ac, bc with
  | false, false, true, false =>
      a <- nth_error ranges_a ai ;;
      put_depend type (Some a) None
        (put_left (point a ab) (include a ab) pa s)
  | true, false, true, false =>
      a <- nth_error ranges_a ai ;;
      put_right (point a ab) (include a ab) pa s
  | false, false, false, true =>
      b <- nth_error ranges_b bi ;;
      put_depend type None (Some b)
        (put_left (point b bb) (include b bb) pb s)
  | false, true, false, true =>
      b <- nth_error ranges_b bi ;;
      put_right (point b bb) (include b bb) pb s
  | true, false, false, true =>
      b <- nth_error ranges_b bi ;;
      s1 <- put_right (point b bb) (negb (include b bb)) None s ;;
      a <- nth_error ranges_a ai ;;
      put_depend type (Some a) (Some b)
        (put_left (point b bb) (include b bb) pb s1)
  | true, true, false, true =>
      b <- nth_error ranges_b bi ;;
      s1 <- put_right (point b bb) (include b bb) pb s ;;
      a <- nth_error ranges_a ai ;;
      put_depend type (Some a) None
        (put_left (point b bb) (negb (include b bb)) None s1)
  | false, true, true, false =>
      a <- nth_error ranges_a ai ;;
      s1 <- put_right (point a ab) (negb (include a ab)) None s ;;
      b <- nth_error ranges_b bi ;;
      put_depend type (Some a) (Some b)
        (put_left (point a ab) (include a ab) pa s1)
  | true, true, true, false =>
      a <- nth_error ranges_a ai ;;
      s1 <- put_right (point a ab) (include a ab) pa s ;;
      b <- nth_error ranges_b bi ;;
      put_depend type None (Some b)
        (put_left (point a ab) (negb (include a ab)) None s1)
  | false, false, true, true =>
      a <- nth_error ranges_a ai ;;
      b <- nth_error ranges_b bi ;;
      put_depend type (Some a) (Some b)
        (put_left (point a ab) (include a ab) None s)
  | true, true, true, true =>
      a <- nth_error ranges_a ai ;;
      put_right (point a ab) (include a ab) None s
  | _, _, _, _ => None
  end.

(** One iteration of the [do ... while] body. *)
Definition sweep_step (st : Cursor) : option Cursor :=
  let ai := c_ai st in
  let bi := c_bi st in
  let ab := c_ab st in
  let bb := c_bb st in
  c <- compare_bounds ai bi ab bb ;;
  let ac := c <=? 0 in
  let bc := c >=? 0 in
  s <- dispatch ai bi ab bb ac bc (c_sweep st) ;;
  Some (mkCursor (if ab && ac then S ai else ai)
                 (if bb && bc then S bi else bi)
                 (xorb ab ac) (xorb bb bc) s).

(** [while (ai != ranges_a.size() || bi != ranges_b.size())]. *)
Definition sweep_continue (st : Cursor) : bool :=
  negb (Nat.eqb (c_ai st) (length ranges_a))
  || negb (Nat.eqb (c_bi st) (length ranges_b)).

Fixpoint sweep_loop (fuel : nat) (st : Cursor) : option Cursor :=
  match fuel with
  | O => None
  | S fuel' =>
      st' <- sweep_step st ;;
      if sweep_continue st' then sweep_loop fuel' st' else Some st'
  end.

Definition sweep_init : Cursor :=
  mkCursor 0 0 false false (mkSweep [] None).

(** Every iteration consumes one endpoint of [ranges_a] or of
    [ranges_b], so two iterations per input range are enough. *)
Definition sweep_fuel : nat :=
  S (2 * (length ranges_a + length ranges_b)).

Definition PartitionRangeWithDepend : option (list RangeWithDepend) :=
  st <- sweep_loop sweep_fuel sweep_init ;;
  Some (rev (output (c_sweep st))).

End Partition.

(** ** Coverage and the data-model invariants of range vectors *)

(** [x] lies in the range [r], each endpoint compared according to its
    inclusivity. *)
Definition covers (r : RangeWithDepend) (x : InternalKey) : bool :=
  (if include0 r then Compare (point0 r) x <=? 0 else Compare (point0 r) x <? 0)
  && (if include1 r then Compare x (point1 r) <=? 0 else Compare x (point1 r) <? 0).

Definition coverage (rs : list RangeWithDepend) (x : InternalKey) : bool :=
  existsb (fun r => covers r x) rs.

(** Invariant 1 of the range model: [point[0] <= point[1]] and, when the
    two are equal, at least one side inclusive. *)
Definition valid_range (r : RangeWithDepend) : bool :=
  (Compare (point0 r) (point1 r) <? 0)
  || ((Compare (point0 r) (point1 r) =? 0) && (include0 r || include1 r)).

(** A range that holds at least one point of the key order extended with
    the two sides of each key: as [valid_range], but a range on a single
    key has both ends inclusive. *)
Definition nonempty_range (r : RangeWithDepend) : bool :=
  (Compare (point0 r) (point1 r) <? 0)
  || ((Compare (point0 r) (point1 r) =? 0) && (include0 r && include1 r)).

(** [r1] ends before [r2] begins under the inclusive-aware comparison: two
    touching endpoints overlap only when both are inclusive. *)
Definition ends_before (r1 r2 : RangeWithDepend) : bool :=
  (Compare (point1 r1) (point0 r2) <? 0)
  || ((Compare (point1 r1) (point0 r2) =? 0)
      && negb (include1 r1 && include0 r2)).

Definition upper_le (r1 r2 : RangeWithDepend) : bool :=
  Compare (point1 r1) (point1 r2) <=? 0.

(** Every element stands in relation [rel] to every later element. *)
Fixpoint pairwise (rel : RangeWithDepend -> RangeWithDepend -> bool)
         (l : list RangeWithDepend) : bool :=
  match l with
  | [] => true
  | r :: l' => forallb (rel r) l' && pairwise rel l'
  end.

(** Invariant 2: pairwise non-overlapping, in order. *)
Definition non_overlapping (l : list RangeWithDepend) : bool :=
  pairwise ends_before l.

Definition sorted_by_upper (l : list RangeWithDepend) : bool :=
  pairwise upper_le l.

(** A sorted, pairwise non-overlapping vector of valid ranges. *)
Definition sorted_ranges (l : list RangeWithDepend) : bool :=
  forallb valid_range l && non_overlapping l.

(** Invariant 3 on the inputs that carry links: no empty link list. *)
Definition has_links (l : list RangeWithDepend) : bool :=
  forallb (fun r => match dependence r with [] => false | _ => true end) l.

(** The coverage the partition is meant to produce at [x]. *)
Definition expected_coverage (type : PartitionType)
           (a b : list RangeWithDepend) (x : InternalKey) : bool :=
  match type with
  | kMerge => coverage a x || coverage b x
  | kDelete => coverage a x && negb (coverage b x)
  end.

(** [o] lies within [r]: the endpoints of [r] enclose those of [o]. *)
Definition lower_within (o r : RangeWithDepend) : bool :=
  (Compare (point0 r) (point0 o) <? 0)
  || ((Compare (point0 r) (point0 o) =? 0)
      && (include0 r || negb (include0 o))).

Definition upper_within (o r : RangeWithDepend) : bool :=
  (Compare (point1 o) (point1 r) <? 0)
  || ((Compare (point1 o) (point1 r) =? 0)
      && (include1 r || negb (include1 o))).

Definition within (o r : RangeWithDepend) : bool :=
  lower_within o r && upper_within o r.

Definition same_bounds (o r : RangeWithDepend) : Prop :=
  point0 o = point0 r /\ include0 o = include0 r /\
  point1 o = point1 r /\ include1 o = include1 r.

(** [x] carries the maximal sequence number, and so does an endpoint of
    a range of [l] on the user key of [x]. *)
Definition on_sentinel (l : list RangeWithDepend) (x : InternalKey) : bool :=
  (GetInternalKeySeqno x =? kMaxSequenceNumber)
  && existsb (fun r =>
                ((user_key (point0 r) =? user_key x)
                 && (GetInternalKeySeqno (point0 r) =? kMaxSequenceNumber))
                || ((user_key (point1 r) =? user_key x)
                    && (GetInternalKeySeqno (point1 r) =? kMaxSequenceNumber)))
             l.

(** An internal key whose footer fits the 8 bytes it is stored in. *)
Definition key_in_range (x : InternalKey) : Prop :=
  0 <= footer x <= kMaxUint64.

(** ** Statuses, files and map elements

    Modelled from the spec: the types below are declared in headers
    missing from the sources ([rocksdb/status.h], [db/version_edit.h],
    [table/table_reader.h]); they keep the fields the sources use. *)

Inductive Code : Type :=
  kOk | kNotFound | kCorruption | kIOError | kIncomplete | kSpaceLimit.

Record Status : Type := mkStatus { code : Code; msg : string }.

Definition StatusOK : Status := mkStatus kOk EmptyString.
Definition Corruption (m : string) : Status := mkStatus kCorruption m.
Definition Incomplete (m : string) : Status := mkStatus kIncomplete m.
Definition SpaceLimit (m : string) : Status := mkStatus kSpaceLimit m.

Definition ok (s : Status) : bool :=
  match code s with kOk => true | _ => false end.

Definition IsIncomplete (s : Status) : bool :=
  match code s with kIncomplete => true | _ => false end.

Inductive SstPurpose : Type := kEssenceSst | kMapSst.

Definition is_map (p : SstPurpose) : bool :=
  match p with kMapSst => true | kEssenceSst => false end.

(** [MapSstElement], the decoded form of a map-table entry. *)
Record MapSstElement : Type := mkElement {
  smallest_key_ : InternalKey;
  largest_key_ : InternalKey;
  include_smallest_ : bool;
  include_largest_ : bool;
  no_records_ : bool;
  link_ : list LinkTarget
}.

(** Modelled from the spec: the encoded value of a map-table entry, whose
    codec ([util/coding.h], [MapSstElement::Value]) is missing from the
    sources.  The value is the sequence of its encoded fields, in order:
    varints and length-prefixed slices holding an internal key. *)
Inductive Field : Type :=
| FVarint (v : Z)
| FSlice (k : InternalKey).

(** [LazySlice]: [inplace_decode] yields a status and, when it succeeds,
    the fields. *)
Record LazySlice : Type := mkLazy { decode_status : Status; fields : list Field }.

Definition GetVarint64 (input : list Field) : option (Z * list Field) :=
  match input with
  | FVarint v :: rest => Some (v, rest)
  | _ => None
  end.

Definition GetLengthPrefixedSlice (input : list Field)
  : option (InternalKey * list Field) :=
  match input with
  | FSlice k :: rest => Some (k, rest)
  | _ => None
  end.

(** Modelled from the spec: the bit positions of the flags of a map
    element, in the order the spec lists them. *)
Definition kIncludeSmallest : Z := 0.
Definition kIncludeLargest : Z := 1.
Definition kNoSmallest : Z := 2.
Definition kNoRecords : Z := 3.

(** Modelled from the spec: a table reader ([table/table_reader.h] is
    missing from the sources).  On a data table [Get] reports through
    the get context what it found: from the key and the ceiling
    [min_sequence_and_type] it yields a status, the new state and the
    value found.  On a map table the entries are scanned in key order,
    each entry keyed by its largest key. *)
Inductive GetState : Type :=
| GetContext_kNotFound
| GetContext_kFound
| GetContext_kDeleted
| GetContext_kCorrupt
| GetContext_kMerge.

Record TableReader : Type := mkReader {
  reader_get : InternalKey -> Z -> GetState * list Z -> Status * (GetState * list Z);
  reader_entries : list (InternalKey * LazySlice);
  reader_offset : InternalKey -> Z;
  reader_creation_time : Z
}.

Record FileMetaData : Type := mkFile {
  fd_number : Z;
  fd_path_id : Z;
  fd_file_size : Z;
  fd_smallest_seqno : Z;
  fd_largest_seqno : Z;
  fd_table_reader : option TableReader;
  smallest : InternalKey;
  largest : InternalKey;
  purpose : SstPurpose;
  marked_for_compaction : bool
}.

(** [Range] of the compaction interface. *)
Record Range : Type := mkRangeArg {
  start : InternalKey;
  limit : InternalKey;
  include_start : bool;
  include_limit : bool
}.

(** ** [FileMetaDataBoundBuilder] *)

Record FileMetaDataBoundBuilder : Type := mkBound {
  b_smallest : option InternalKey;   (* [None]: still empty *)
  b_largest : option InternalKey;
  smallest_seqno : Z;
  largest_seqno : Z;
  creation_time : Z
}.

Definition new_bound_builder : FileMetaDataBoundBuilder :=
  mkBound None None kMaxSequenceNumber 0 0.

Definition Update (f : FileMetaData) (b : FileMetaDataBoundBuilder)
  : FileMetaDataBoundBuilder :=
  let sm := match b_smallest b with
            | None => smallest f
            | Some k => if Compare (smallest f) k <? 0 then smallest f else k
            end in
  let lg := match b_largest b with
            | None => largest f
            | Some k => if Compare (largest f) k >? 0 then largest f else k
            end in
  mkBound (Some sm) (Some lg)
          (Z.min (smallest_seqno b) (fd_smallest_seqno f))
          (Z.max (largest_seqno b) (fd_largest_seqno f))
          (creation_time b).

(** [IsPrefaceRange]. *)
Definition IsPrefaceRange (range : Range) (f : FileMetaData) : bool :=
  match purpose f with kEssenceSst => true | kMapSst => false end
  && include_start range
  && (Compare (start range) (smallest f) =? 0)
  && (user_Compare (ExtractUserKey (limit range)) (user_key (largest f)) =? 0)
  && (if ExtractInternalKeyFooter (largest f) =? kMaxSequenceNumber
      then ExtractInternalKeyFooter (limit range) =? kMaxSequenceNumber
      else include_limit range
           && (ExtractInternalKeyFooter (limit range)
               =? ExtractInternalKeyFooter (largest f))).

(** ** The three constructors of [RangeWithDepend] *)

Definition RangeOfFile (f : FileMetaData) : RangeWithDepend :=
  mkRange (smallest f)
          (if GetInternalKeySeqno (largest f) =? kMaxSequenceNumber
           then SetKey (user_key (largest f)) kMaxSequenceNumber kTypeDeletion
           else largest f)
          true true false false
          [mkLink (fd_number f) 0].

Definition RangeOfElement (e : MapSstElement) : RangeWithDepend :=
  mkRange (smallest_key_ e) (largest_key_ e)
          (include_smallest_ e) (include_largest_ e)
          (no_records_ e) true (link_ e).

Definition RangeOfRange (range : Range) : RangeWithDepend :=
  let '(p0, i0) :=
    if GetInternalKeySeqno (start range) =? kMaxSequenceNumber
    then (SetKey (ExtractUserKey (start range)) kMaxSequenceNumber kTypeDeletion,
          false)
    else (limit range, include_limit range) in
  let '(p1, i1) :=
    if GetInternalKeySeqno (limit range) =? kMaxSequenceNumber
    then (SetKey (ExtractUserKey (limit range)) kMaxSequenceNumber kTypeDeletion,
          true)
    else (limit range, include_limit range) in
  mkRange p0 p1 i0 i1 false false [].

(** ** The iterator cache

    Modelled from the spec: the build-scoped iterator cache
    ([util/iterator_cache.h] is missing from the sources), which
    memoizes reader, iterator and file metadata by file number.  An
    iterator is its status and the entries of the table in key order;
    for a map table an entry also carries the outcome of decoding its
    value, first [inplace_decode], then [MapSstElement::Decode] ([None]
    when it fails). *)

Record IterEntry : Type := mkEntry {
  e_key : InternalKey;
  e_decode : Status;
  e_element : option MapSstElement
}.

Record CachedTable : Type := mkTable {
  iter_status : Status;
  iter_entries : list IterEntry;
  ApproximateOffsetOf : InternalKey -> Z;
  table_creation_time : Z
}.

Record IteratorCache : Type := mkCache {
  GetIterator : Z -> CachedTable;
  GetFileMetaData : Z -> option FileMetaData
}.

(** ** The range loader *)

(** The inner loop over the entries of a map table. *)
Fixpoint load_map_entries (entries : list IterEntry)
         (ranges : list RangeWithDepend) : Status * list RangeWithDepend :=
  match entries with
  | [] => (StatusOK, ranges)
  | e :: rest =>
      if negb (ok (e_decode e)) then (e_decode e, ranges)
      else match e_element e with
           | None => (Corruption "Map sst invalid key or value", ranges)
           | Some el => load_map_entries rest (ranges ++ [RangeOfElement el])
           end
  end.

(** One iteration of the loop over the files; [bound_builder] is [None]
    for a null pointer. *)
Definition load_file (iterator_cache : IteratorCache) (f : FileMetaData)
           (st : list RangeWithDepend * option FileMetaDataBoundBuilder)
  : Status * (list RangeWithDepend * option FileMetaDataBoundBuilder) :=
  let '(ranges, bound_builder) := st in
  let iter := GetIterator iterator_cache (fd_number f) in
  let '(s, ranges') :=
    match purpose f with
    | kMapSst =>
        if negb (ok (iter_status iter)) then (iter_status iter, ranges)
        else load_map_entries (iter_entries iter) ranges
    | kEssenceSst =>
        if negb (ok (iter_status iter)) then (iter_status iter, ranges)
        else (StatusOK, ranges ++ [RangeOfFile f])
    end in
  if negb (ok s) then (s, (ranges', bound_builder))
  else
    (StatusOK,
     (ranges',
      match bound_builder with
      | None => None
      | Some b =>
          let b' := Update f b in
          Some (mkBound (b_smallest b') (b_largest b')
                        (smallest_seqno b') (largest_seqno b')
                        (Z.max (creation_time b') (table_creation_time iter)))
      end)).

Fixpoint LoadRangeWithDepend (iterator_cache : IteratorCache)
         (file_meta : list FileMetaData)
         (st : list RangeWithDepend * option FileMetaDataBoundBuilder)
  : Status * (list RangeWithDepend * option FileMetaDataBoundBuilder) :=
  match file_meta with
  | [] => (StatusOK, st)
  | f :: rest =>
      let '(s, st') := load_file iterator_cache f st in
      if negb (ok s) then (s, st')
      else LoadRangeWithDepend iterator_cache rest st'
  end.

(** ** The map element iterator *)

(** Modelled from the spec: [InternalIterator]
    ([table/internal_iterator.h] is missing from the sources) as a
    cursor into the keys of a table, held in comparator order: a position
    is an index, [None] when the iterator is not valid; seek moves to
    the first key at or after the target, seek-for-prev to the last key
    at or before it. *)

Fixpoint seek_from (keys : list InternalKey) (target : InternalKey) (i : nat)
  : option nat :=
  match keys with
  | [] => None
  | k :: rest =>
      if Compare k target >=? 0 then Some i else seek_from rest target (S i)
  end.

(** [Seek(target)]: the first key at or after [target]. *)
Definition Seek (keys : list InternalKey) (target : InternalKey) : option nat :=
  seek_from keys target 0.

Fixpoint seek_prev_from (keys : list InternalKey) (target : InternalKey)
         (i : nat) (best : option nat) : option nat :=
  match keys with
  | [] => best
  | k :: rest =>
      seek_prev_from rest target (S i)
                     (if Compare k target <=? 0 then Some i else best)
  end.

(** [SeekForPrev(target)]: the last key at or before [target]. *)
Definition SeekForPrev (keys : list InternalKey) (target : InternalKey)
  : option nat :=
  seek_prev_from keys target 0 None.

Definition Next (keys : list InternalKey) (i : nat) : option nat :=
  if Nat.ltb (S i) (length keys) then Some (S i) else None.

Definition Prev (i : nat) : option nat :=
  match i with
  | O => None
  | S j => Some j
  end.

(** [iter->key()] of a valid iterator. *)
Definition key_at (keys : list InternalKey) (i : nat) : InternalKey :=
  nth i keys empty_key.

(** The body of the loop over the links of an unstable element, after
    the status check: the link as the loop leaves it, and whether the
    loop reached [no_records = false].  Each [continue] leaves the link
    untouched.  The difference of the two offsets is computed on 64-bit
    unsigned integers. *)
Definition tighten_link (t : CachedTable) (start end_ : InternalKey)
           (include_start include_end : bool) (link : LinkTarget)
  : LinkTarget * bool :=
  let keys := map e_key (iter_entries t) in
  match Seek keys start with
  | None => (link, false)
  | Some i =>
      match (if negb include_start && (Compare (key_at keys i) start =? 0)
             then Next keys i else Some i) with
      | None => (link, false)
      | Some i1 =>
          let temp_start := key_at keys i1 in
          match SeekForPrev keys end_ with
          | None => (link, false)
          | Some j =>
              match (if negb include_end && (Compare (key_at keys j) end_ =? 0)
                     then Prev j else Some j) with
              | None => (link, false)
              | Some j1 =>
                  let temp_end := key_at keys j1 in
                  if Compare temp_start temp_end <=? 0 then
                    let start_offset := ApproximateOffsetOf t temp_start in
                    let end_offset := ApproximateOffsetOf t temp_end in
                    (mkLink (file_number link)
                            ((end_offset - start_offset) mod 2 ^ 64), true)
                  else (mkLink (file_number link) 0, false)
              end
          end
      end
  end.

(** [dependence_build_.emplace(n)] on the set of file numbers. *)
Definition emplace (n : Z) (s : list Z) : list Z :=
  if existsb (Z.eqb n) s then s else s ++ [n].

(** The loop over the links of an unstable element: the links already
    visited, the flag [no_records] and the set [dependence_build_] are
    threaded through; a failing iterator ends the loop with its status. *)
Fixpoint resolve_links (iterator_cache : IteratorCache)
         (start end_ : InternalKey) (include_start include_end : bool)
         (links visited : list LinkTarget) (no_rec : bool) (deps : list Z)
  : Status * (list LinkTarget * bool * list Z) :=
  match links with
  | [] => (StatusOK, (visited, no_rec, deps))
  | link :: rest =>
      let deps' := emplace (file_number link) deps in
      let t := GetIterator iterator_cache (file_number link) in
      if negb (ok (iter_status t))
      then (iter_status t, (visited ++ link :: rest, no_rec, deps'))
      else
        let '(link', found) :=
          tighten_link t start end_ include_start include_end link in
        resolve_links iterator_cache start end_ include_start include_end
                      rest (visited ++ [link'])
                      (if found then false else no_rec) deps'
  end.

(** The inner loop of [merge_depend]: the first position below [limit]
    holding the file number [fn], or [limit]. *)
Fixpoint find_pos (links : list LinkTarget) (limit : nat) (fn : Z) : nat :=
  match limit with
  | O => O
  | S n =>
      match links with
      | x :: rest =>
          if file_number x =? fn then O else S (find_pos rest n fn)
      | [] => S n
      end
  end.

Definition merge_step (st : list LinkTarget * nat) (rit : LinkTarget)
  : list LinkTarget * nat :=
  let '(links, insert_pos) := st in
  let new_pos := find_pos links insert_pos (file_number rit) in
  if Nat.eqb new_pos insert_pos
  then (firstn new_pos links ++ rit :: skipn new_pos links, insert_pos)
  else (links, new_pos).

(** [merge_depend(e, d)], on the link list of [e]. *)
Definition merge_depend (links d : list LinkTarget) : list LinkTarget :=
  fst (fold_left merge_step (rev d) (links, length links)).

(** The state of a [MapSstElementIterator]: [where_] is the part of
    [ranges_] from the iterator position on; [buffer_] is the element
    encoded in the buffer, [None] when the buffer is empty. *)
Record MapSstElementIterator : Type := mkIter {
  where_ : list RangeWithDepend;
  map_elements_ : MapSstElement;
  buffer_ : option MapSstElement;
  status_ : Status;
  dependence_build_ : list Z;
  sst_read_amp_ : nat
}.

Definition Valid (it : MapSstElementIterator) : bool :=
  match buffer_ it with Some _ => true | None => false end.

Definition PrepareNext (iterator_cache : IteratorCache)
           (it : MapSstElementIterator) : MapSstElementIterator :=
  match where_ it with
  | [] =>
      mkIter [] (map_elements_ it) None (status_ it) (dependence_build_ it)
             (sst_read_amp_ it)
  | r :: w1 =>
      let start := point0 r in
      (* ++where_, then an element beginning on the same key *)
      let '(end1, include_end1, link1, stable1, w2) :=
        match w1 with
        | r1 :: w' =>
            if Compare start (point0 r1) =? 0
            then (point1 r1, include1 r1,
                  merge_depend (dependence r) (dependence r1), false, w')
            else (point1 r, include1 r, dependence r, stable r, w1)
        | [] => (point1 r, include1 r, dependence r, stable r, w1)
        end in
      (* then an element ending on the same key *)
      let '(include_end2, link2, stable2, w3) :=
        match w2 with
        | r2 :: w' =>
            if Compare end1 (point1 r2) =? 0
            then (true, merge_depend link1 (dependence r2), false, w')
            else (include_end1, link1, stable1, w2)
        | [] => (include_end1, link1, stable1, w2)
        end in
      if stable2 then
        let e := mkElement start end1 (include0 r) include_end2
                           (no_records r) link2 in
        mkIter w3 e (Some e) (status_ it)
               (fold_left (fun s l => emplace (file_number l) s) link2
                          (dependence_build_ it))
               (Nat.max (sst_read_amp_ it) (length link2))
      else
        let '(s, (link3, no_rec, deps)) :=
          resolve_links iterator_cache start end1 (include0 r) include_end2
                        link2 [] true (dependence_build_ it) in
        let e := mkElement start end1 (include0 r) include_end2 no_rec link3 in
        if negb (ok s)
        then mkIter w3 e None s deps (sst_read_amp_ it)
        else mkIter w3 e (Some e) (status_ it) deps
                    (Nat.max (sst_read_amp_ it) (length link3))
  end.

Definition new_iterator (ranges : list RangeWithDepend) : MapSstElementIterator :=
  mkIter ranges (mkElement empty_key empty_key false false false []) None
         StatusOK [] 0.

(** [SeekToFirst]. *)
Definition SeekToFirst (iterator_cache : IteratorCache)
           (ranges : list RangeWithDepend) (it : MapSstElementIterator)
  : MapSstElementIterator :=
  PrepareNext iterator_cache
    (mkIter ranges (map_elements_ it) (buffer_ it) (status_ it)
            (dependence_build_ it) (sst_read_amp_ it)).

(** ** The map builder *)

Record CompactionInputFiles : Type := mkInputs {
  level : Z;
  files : list FileMetaData
}.

(** The operations recorded in a [VersionEdit]. *)
Inductive EditOp : Type :=
| AddFile (lvl : Z) (f : FileMetaData)
| DeleteFile (lvl : Z) (number : Z).

(** What the environment answers while a table is written: the outcome
    of creating the file, of [Finish], [Sync] and [Close], and whether the
    file manager reports the space limit reached ([None]: no manager).
    [bucket] ranks the file numbers for the hash table of live files of
    [Build]: the order in which a [std::unordered_map] is iterated is
    unspecified, and the table is iterated by increasing [bucket]; every
    order of distinct file numbers is the order of some ranking. *)
Record Env : Type := mkEnv {
  NewWritableFile : Z -> Status;
  Finish : Status;
  Sync : Status;
  Close : Status;
  NeedCompact : bool;
  FileSize : Z;
  IsMaxAllowedSpaceReached : option bool;
  bucket : Z -> Z
}.

(** The state a build can change: the file number counter of the version
    set and the tables written, each with its file number and entries. *)
Record World : Type := mkWorld {
  next_file_number : Z;
  tables_written : list (Z * list MapSstElement)
}.

(** The table properties and metadata [WriteOutputFile] fills in. *)
Record OutputFile : Type := mkOutput {
  out_meta : FileMetaData;
  out_dependence : list Z;
  out_read_amp : nat
}.

Fixpoint insert_sorted (n : Z) (l : list Z) : list Z :=
  match l with
  | [] => [n]
  | m :: rest => if n <=? m then n :: l else m :: insert_sorted n rest
  end.

(** [std::sort] on the file numbers. *)
Definition sort_numbers (l : list Z) : list Z :=
  fold_right insert_sorted [] l.

(** The loop [for (SeekToFirst(); Valid(); Next()) builder->Add(...)].
    Every valid element consumes a range, so the fuel of one more than
    the number of ranges is never exhausted. *)
Fixpoint drain (fuel : nat) (iterator_cache : IteratorCache)
         (it : MapSstElementIterator) (added : list MapSstElement)
  : list MapSstElement * MapSstElementIterator :=
  match fuel with
  | O => (added, it)
  | S fuel' =>
      match buffer_ it with
      | None => (added, it)
      | Some e =>
          drain fuel' iterator_cache (PrepareNext iterator_cache it)
                (added ++ [e])
      end
  end.

Definition key_or_empty (k : option InternalKey) : InternalKey :=
  match k with Some k => k | None => empty_key end.

(** [MapBuilder::WriteOutputFile]: the status, the file metadata and
    properties (as far as they are filled in), and the world after. *)
Definition WriteOutputFile (env : Env) (iterator_cache : IteratorCache)
           (bound_builder : FileMetaDataBoundBuilder)
           (ranges : list RangeWithDepend) (output_path_id : Z) (w : World)
  : Status * option OutputFile * World :=
  let file_number := next_file_number w in
  let w1 := mkWorld (file_number + 1) (tables_written w) in
  let s := NewWritableFile env file_number in
  if negb (ok s) then (s, None, w1)
  else
    let '(added, it) :=
      drain (S (length ranges)) iterator_cache
            (SeekToFirst iterator_cache ranges (new_iterator ranges)) [] in
    let s := if negb (ok (status_ it)) then status_ it else s in
    let dependence := sort_numbers (dependence_build_ it) in
    let s := if ok s then Finish env else s in
    let file_size := if ok s then FileSize env else 0 in
    let s := if ok s then Sync env else s in
    let s := if ok s then Close env else s in
    let meta :=
      mkFile file_number output_path_id file_size
             (smallest_seqno bound_builder) (largest_seqno bound_builder)
             None
             (key_or_empty (b_smallest bound_builder))
             (key_or_empty (b_largest bound_builder))
             kMapSst (NeedCompact env) in
    let s :=
      match IsMaxAllowedSpaceReached env with
      | Some true =>
          if output_path_id =? 0
          then SpaceLimit "Max allowed space was reached" else s
      | _ => s
      end in
    (s, Some (mkOutput meta dependence (sst_read_amp_ it)),
     mkWorld (file_number + 1) (tables_written w ++ [(file_number, added)])).

(** Loading the input files into [level_ranges]: one vector per file of
    level 0, one vector per other level; the running
    [input_range_count]. *)
Record Loaded : Type := mkLoaded {
  level_ranges : list (list RangeWithDepend);
  bound_builder_ : FileMetaDataBoundBuilder;
  input_range_count : nat
}.

Fixpoint load_level0 (iterator_cache : IteratorCache)
         (fs : list FileMetaData) (l : Loaded) : Status * Loaded :=
  match fs with
  | [] => (StatusOK, l)
  | f :: rest =>
      let '(s, (ranges, b)) :=
        LoadRangeWithDepend iterator_cache [f] ([], Some (bound_builder_ l)) in
      if negb (ok s) then (s, l)
      else
        load_level0 iterator_cache rest
          (mkLoaded (level_ranges l ++ [ranges])
                    (match b with Some b => b | None => bound_builder_ l end)
                    (input_range_count l + length ranges))
  end.

Fixpoint load_inputs (iterator_cache : IteratorCache)
         (inputs : list CompactionInputFiles) (l : Loaded) : Status * Loaded :=
  match inputs with
  | [] => (StatusOK, l)
  | level_files :: rest =>
      match files level_files with
      | [] => load_inputs iterator_cache rest l
      | _ :: _ =>
          let '(s, l') :=
            if level level_files =? 0
            then load_level0 iterator_cache (files level_files) l
            else
              let '(s, (ranges, b)) :=
                LoadRangeWithDepend iterator_cache (files level_files)
                                    ([], Some (bound_builder_ l)) in
              if negb (ok s) then (s, l)
              else (StatusOK,
                    mkLoaded (level_ranges l ++ [ranges])
                             (match b with Some b => b
                                         | None => bound_builder_ l end)
                             (input_range_count l + length ranges)) in
          if negb (ok s) then (s, l')
          else load_inputs iterator_cache rest l'
      end
  end.

(** The scan for the adjacent pair of smallest combined size: the index
    of [union_a], the first minimum winning. *)
Fixpoint min_pair (l : list (list RangeWithDepend)) (i : nat)
         (best : nat) (min_sum : nat) : nat :=
  match l with
  | b :: ((n :: _) as rest) =>
      let sum := (length b + length n)%nat in
      if Nat.ltb sum min_sum then min_pair rest (S i) i sum
      else min_pair rest (S i) best min_sum
  | _ => best
  end.

Definition union_index (l : list (list RangeWithDepend)) : nat :=
  match l with
  | a :: b :: _ => min_pair (tl l) 1 0 (length a + length b)
  | _ => 0%nat
  end.

(** One round of the merge loop: the pair at [union_a] is replaced by
    its MERGE partition. *)
Definition merge_round (l : list (list RangeWithDepend))
  : option (list (list RangeWithDepend)) :=
  let i := union_index l in
  match skipn i l with
  | a :: b :: rest =>
      m <- PartitionRangeWithDepend a b kMerge ;;
      Some (firstn i l ++ m :: rest)
  | _ => None
  end.

Fixpoint merge_levels (fuel : nat) (l : list (list RangeWithDepend))
  : option (list (list RangeWithDepend)) :=
  match l with
  | _ :: _ :: _ =>
      match fuel with
      | O => None
      | S fuel' => l' <- merge_round l ;; merge_levels fuel' l'
      end
  | _ => Some l
  end.

(** Everything [Build] does to arrive at the surviving vector: loading,
    merging, deleting and adding.  [None] is undefined behaviour; a
    status that is not OK is the early [return s]. *)
Definition survivors (iterator_cache : IteratorCache)
           (inputs : list CompactionInputFiles)
           (deleted_range : list Range) (added_files : list FileMetaData)
  : option (Status * Loaded) :=
  let '(s, l) :=
    load_inputs iterator_cache inputs (mkLoaded [] new_bound_builder 0) in
  if negb (ok s) then Some (s, l)
  else
    lr <- merge_levels (length (level_ranges l)) (level_ranges l) ;;
    lr <- match lr, deleted_range with
          | front :: rest, _ :: _ =>
              r <- PartitionRangeWithDepend front (map RangeOfRange deleted_range)
                                            kDelete ;;
              Some (match r with [] => rest | _ => r :: rest end)
          | _, _ => Some lr
          end ;;
    match added_files with
    | [] => Some (StatusOK, mkLoaded lr (bound_builder_ l) (input_range_count l))
    | _ :: _ =>
        let '(s, (ranges, b)) :=
          LoadRangeWithDepend iterator_cache added_files
                              ([], Some (bound_builder_ l)) in
        let b := match b with Some b => b | None => bound_builder_ l end in
        if negb (ok s) then Some (s, mkLoaded lr b (input_range_count l))
        else
          match lr with
          | [] => Some (StatusOK, mkLoaded [ranges] b (input_range_count l))
          | front :: rest =>
              r <- PartitionRangeWithDepend front ranges kMerge ;;
              Some (StatusOK, mkLoaded (r :: rest) b (input_range_count l))
          end
    end.

(** The loop that decides whether a map table is needed: [Some true]
    when it is, [Some false] with the live files when every range is the
    preface range of its single file.  Reading the first link of an
    empty list, or a file the cache does not know, is undefined. *)
Fixpoint check_build_map (iterator_cache : IteratorCache)
         (ranges : list RangeWithDepend) (sst_live : list (Z * FileMetaData))
  : option (bool * list (Z * FileMetaData)) :=
  match ranges with
  | [] => Some (false, sst_live)
  | it :: rest =>
      if Nat.ltb 1 (length (dependence it)) then Some (true, sst_live)
      else
        match dependence it with
        | [] => None
        | front :: _ =>
            f <- GetFileMetaData iterator_cache (file_number front) ;;
            let r := mkRangeArg (point0 it) (point1 it)
                                (include0 it) (include1 it) in
            if negb (IsPrefaceRange r f) then Some (true, sst_live)
            else
              check_build_map iterator_cache rest
                (if existsb (fun p => fst p =? file_number front) sst_live
                 then sst_live
                 else sst_live ++ [(file_number front, f)])
        end
  end.

(** The edits of the branch that needs no map table, for the files of
    one input level. *)
Fixpoint move_files (output_level lvl : Z) (fs : list FileMetaData)
         (sst_live : list (Z * FileMetaData)) (edit : list EditOp)
  : list (Z * FileMetaData) * list EditOp :=
  match fs with
  | [] => (sst_live, edit)
  | f :: rest =>
      if existsb (fun p => fst p =? fd_number f) sst_live then
        move_files output_level lvl rest
          (filter (fun p => negb (fst p =? fd_number f)) sst_live)
          (if negb (output_level =? lvl)
           then edit ++ [DeleteFile lvl (fd_number f); AddFile output_level f]
           else edit)
      else
        move_files output_level lvl rest sst_live
                   (edit ++ [DeleteFile lvl (fd_number f)])
  end.

Fixpoint move_inputs (output_level : Z) (inputs : list CompactionInputFiles)
         (sst_live : list (Z * FileMetaData)) (edit : list EditOp)
  : list (Z * FileMetaData) * list EditOp :=
  match inputs with
  | [] => (sst_live, edit)
  | input_level :: rest =>
      let '(sst_live', edit') :=
        move_files output_level (level input_level) (files input_level)
                   sst_live edit in
      move_inputs output_level rest sst_live' edit'
  end.

(** [for (auto& pair : sst_live)]: the entries of the hash table by
    increasing [bucket]. *)
Fixpoint insert_bucket (bucket : Z -> Z) (p : Z * FileMetaData)
         (l : list (Z * FileMetaData)) : list (Z * FileMetaData) :=
  match l with
  | [] => [p]
  | q :: rest =>
      if bucket (fst q) <=? bucket (fst p)
      then q :: insert_bucket bucket p rest
      else p :: l
  end.

Definition iterate (bucket : Z -> Z) (sst_live : list (Z * FileMetaData))
  : list (Z * FileMetaData) :=
  fold_left (fun l p => insert_bucket bucket p l) sst_live [].

(** [edit_del_file] on every input file (the optional set
    [deleted_files] receives the same files). *)
Definition delete_inputs (inputs : list CompactionInputFiles) : list EditOp :=
  flat_map (fun input_level =>
              map (fun f => DeleteFile (level input_level) (fd_number f))
                  (files input_level))
           inputs.

Record BuildResult : Type := mkResult {
  result_status : Status;
  result_edit : list EditOp;
  result_file : option OutputFile;
  result_world : World
}.

(** The condition of the last early return: a single input file, a map
    table, as many ranges as were loaded, all of them stable. *)
Definition all_stable (inputs : list CompactionInputFiles)
           (ranges : list RangeWithDepend) (count : nat) : bool :=
  match inputs with
  | [input] =>
      match files input with
      | [f] =>
          is_map (purpose f)
          && Nat.eqb (length ranges) count
          && negb (existsb (fun e => negb (stable e)) ranges)
      | _ => false
      end
  | _ => false
  end.

(** [MapBuilder::Build]. *)
Definition Build (env : Env) (iterator_cache : IteratorCache)
           (inputs : list CompactionInputFiles) (deleted_range : list Range)
           (added_files : list FileMetaData)
           (output_level output_path_id : Z) (w : World)
  : option BuildResult :=
  sl <- survivors iterator_cache inputs deleted_range added_files ;;
  let '(s, l) := sl in
  if negb (ok s) then Some (mkResult s [] None w)
  else
    match level_ranges l with
    | [] => Some (mkResult s (delete_inputs inputs) None w)
    | ranges :: _ =>
        chk <- (if negb (output_level =? 0) || Nat.eqb (length ranges) 1
                then check_build_map iterator_cache ranges []
                else Some (true, [])) ;;
        let '(build_map_sst, sst_live) := chk in
        if negb build_map_sst then
          let '(sst_live', edit) := move_inputs output_level inputs sst_live [] in
          Some (mkResult s
                         (edit ++ map (fun p => AddFile output_level (snd p))
                                      (iterate (bucket env) sst_live'))
                         None w)
        else if all_stable inputs ranges (input_range_count l)
        then Some (mkResult s [] None w)
        else
          let '(s, file, w') :=
            WriteOutputFile env iterator_cache (bound_builder_ l) ranges
                            output_path_id w in
          Some (mkResult s
                  (if ok s
                   then delete_inputs inputs
                        ++ map (AddFile (-1)) added_files
                        ++ match file with
                           | Some o => [AddFile output_level (out_meta o)]
                           | None => []
                           end
                   else [])
                  file w')
    end.

End KeyFormat.

(** ** The table cache *)

Inductive ReadTier : Type := kReadAllTier | kBlockCacheTier.

Definition is_block_cache_tier (t : ReadTier) : bool :=
  match t with kBlockCacheTier => true | kReadAllTier => false end.

(** Modelled from the spec: the get context ([table/get_context.h] is
    missing from the sources), reduced to what [TableCache::Get] and the
    readers exchange through it: the state, the value collected so far,
    the ceiling [min_sequence_and_type], whether the caller needs the
    sequence number, and the mark left by [MarkKeyMayExist]. *)
Record GetContext : Type := mkCtx {
  ctx_state : GetState;
  ctx_value : list Z;
  min_seq_type : Z;
  NeedToReadSequence : bool;
  key_may_exist : bool
}.

Definition GetMinSequenceAndType (c : GetContext) : Z := min_seq_type c.

Definition SetMinSequenceAndType (v : Z) (c : GetContext) : GetContext :=
  mkCtx (ctx_state c) (ctx_value c) v (NeedToReadSequence c) (key_may_exist c).

(** A lookup is finished once the state is neither not-found nor
    merge. *)
Definition is_finished (c : GetContext) : bool :=
  match ctx_state c with
  | GetContext_kNotFound | GetContext_kMerge => false
  | _ => true
  end.

Definition MarkKeyMayExist (c : GetContext) : GetContext :=
  mkCtx GetContext_kFound (ctx_value c) (min_seq_type c)
        (NeedToReadSequence c) true.

(** What a reader or a replayed row-cache entry writes into the
    context: the state and the value, never the ceiling. *)
Definition save (r : GetState * list Z) (c : GetContext) : GetContext :=
  mkCtx (fst r) (snd r) (min_seq_type c) (NeedToReadSequence c)
        (key_may_exist c).

(** [t->Get(options, k, get_context, ...)] on a data table. *)
Definition ReaderGet (t : TableReader) (k : InternalKey) (c : GetContext)
  : Status * GetContext :=
  let '(s, r) := reader_get t k (min_seq_type c) (ctx_state c, ctx_value c) in
  (s, save r c).

(** Modelled from the spec: the row cache ([RowCacheContext] is missing
    from the sources), which may answer a lookup in a data table before
    the table is consulted: the entry kept for a file number and key,
    replayed into the context on a hit, and the status [AddToCache]
    returns. *)
Record RowCache : Type := mkRowCache {
  row_lookup : Z -> InternalKey -> option (GetState * list Z);
  AddToCache : Status
}.

Definition GetFromRowCache (rc : RowCache) (number : Z) (k : InternalKey)
           (c : GetContext) : option GetContext :=
  match row_lookup rc number k with
  | Some r => Some (save r c)
  | None => None
  end.

(** [TableReader::RowCachedGet]: the row cache first, the table on a
    miss. *)
Definition RowCachedGet (rc : RowCache) (t : TableReader) (number : Z)
           (k : InternalKey) (c : GetContext) : Status * GetContext :=
  match GetFromRowCache rc number k c with
  | Some c' => (StatusOK, c')
  | None => ReaderGet t k c
  end.

(** Modelled from the spec: the cache ([rocksdb/cache.h] is missing
    from the sources) maps file numbers to readers and is bounded, so an
    insertion may evict other entries, as the eviction policy of the
    cache decides: [Evicts c number n] tells whether inserting the file
    [number] into the contents [c] evicts the entry of the file [n].
    The entry inserted is pinned by the handle returned and stays.
    [GetTableReader] opens a file, with the status and reader the
    environment and the table factory yield; [Insert] has the status
    the cache yields. *)
Record TableCache : Type := mkTableCache {
  cache_ : list (Z * TableReader);
  GetTableReader : Z -> Status * TableReader;
  Insert : Status;
  Evicts : list (Z * TableReader) -> Z -> Z -> bool;
  row_cache : option RowCache
}.

Fixpoint Lookup (c : list (Z * TableReader)) (number : Z) : option TableReader :=
  match c with
  | [] => None
  | (n, t) :: rest => if n =? number then Some t else Lookup rest number
  end.

(** [TableCache::FindTable]: the status, the handle and the cache
    after.  Errors are not cached; an insertion that succeeds puts the
    reader in the cache and evicts what the policy tells. *)
Definition FindTable (tc : TableCache) (number : Z) (no_io : bool)
  : Status * option TableReader * TableCache :=
  match Lookup (cache_ tc) number with
  | Some t => (StatusOK, Some t, tc)
  | None =>
      if no_io
      then (Incomplete "Table not found in table_cache, no_io is set", None, tc)
      else
        let '(s, table_reader) := GetTableReader tc number in
        if negb (ok s) then (s, None, tc)
        else
          let s := Insert tc in
          if ok s
          then (s, Some table_reader,
                mkTableCache
                  ((number, table_reader)
                   :: filter (fun p => negb (Evicts tc (cache_ tc) number
                                                    (fst p)))
                             (cache_ tc))
                  (GetTableReader tc) (Insert tc) (Evicts tc) (row_cache tc))
          else (s, None, tc)
  end.

(** [DependenceMap]: file metadata by file number. *)
Definition DependenceMap : Type := list (Z * FileMetaData).

Fixpoint find (m : DependenceMap) (number : Z) : option FileMetaData :=
  match m with
  | [] => None
  | (n, f) :: rest => if n =? number then Some f else find rest number
  end.

Definition empty (m : DependenceMap) : bool :=
  match m with [] => true | _ => false end.

(** The state the callback [get_from_map] works on: the status [s] it
    captures, the get context, and the table cache. *)
Definition ScanState : Type := (Status * GetContext * TableCache)%type.

Section GetFromMap.

(** The recursive call of [TableCache::Get] on a link target. *)
Variable rec_get : FileMetaData -> InternalKey -> GetContext -> TableCache
                   -> option ScanState.
Variable dependence_map : DependenceMap.
Variable k : InternalKey.

(** The loop over the links of an element; the boolean tells whether
    the loop ran to its end. *)
Fixpoint get_links (link_count : nat) (map_input : list Field)
         (find_k : InternalKey) (st : ScanState) : option (bool * ScanState) :=
  match link_count with
  | O => Some (true, st)
  | S n =>
      let '(s, c, tc) := st in
      match GetVarint64 map_input with
      | None => Some (false, (Corruption "Map sst invalid link_value", c, tc))
      | Some (number, map_input') =>
          match find dependence_map number with
          | None =>
              Some (false, (Corruption "Map sst depend files missing", c, tc))
          | Some f =>
              st' <- rec_get f find_k c tc ;;
              let '(s', c', tc') := st' in
              if negb (ok s') || is_finished c'
              then Some (false, st')
              else get_links n map_input' find_k st'
          end
      end
  end.

(** The header of the value: flags, link count and smallest key. *)
Definition decode_header (map_input : list Field)
  : option (Z * Z * InternalKey * list Field) :=
  match GetVarint64 map_input with
  | None => None
  | Some (flags, in1) =>
      match GetVarint64 in1 with
      | None => None
      | Some (link_count, in2) =>
          if Z.testbit flags kNoSmallest then None
          else
            match GetLengthPrefixedSlice in2 with
            | None => None
            | Some (smallest_key, in3) =>
                Some (flags, link_count, smallest_key, in3)
            end
      end
  end.

(** The effective query key: [None] when [k] lies outside the
    smallest bound of the element. *)
Definition shrink_to_smallest (smallest_key : InternalKey)
           (include_smallest : bool) : option InternalKey :=
  if Compare smallest_key k >=? (if include_smallest then 1 else 0) then
    if negb (user_Compare (ExtractUserKey smallest_key) (ExtractUserKey k)
             =? 0)
    then None
    else if include_smallest then Some smallest_key
    else
      let seq_type := ExtractInternalKeyFooter smallest_key in
      if seq_type =? 0 then None
      else Some (mkIKey (user_key smallest_key) (seq_type - 1))
  else Some k.

Definition is_largest_user_key (largest_key : InternalKey) : bool :=
  user_Compare (ExtractUserKey largest_key) (ExtractUserKey k) =? 0.

(** The element ends on the user key of [k] with the least footer
    there is, exclusive: [k] lies beyond it and the scan moves on. *)
Definition beyond_largest (largest_key : InternalKey)
           (include_largest : bool) : bool :=
  is_largest_user_key largest_key
  && (ExtractInternalKeyFooter largest_key =? kMaxUint64)
  && negb include_largest.

(** The ceiling capped to the footer of the largest key. *)
Definition shrink_ceiling (largest_key : InternalKey)
           (include_largest : bool) (c : GetContext) : GetContext :=
  if is_largest_user_key largest_key
  then SetMinSequenceAndType
         (Z.max (GetMinSequenceAndType c)
                (ExtractInternalKeyFooter largest_key
                 + (if include_largest then 0 else 1)))
         c
  else c.

(** The callback [get_from_map]: whether the scan goes on, and the
    state after. *)
Definition get_from_map (largest_key : InternalKey) (map_value : LazySlice)
           (st : ScanState) : option (bool * ScanState) :=
  let '(_, c, tc) := st in
  let s := decode_status map_value in
  if negb (ok s) then Some (false, (s, c, tc))
  else
    match decode_header (fields map_value) with
    | None => Some (false, (Corruption "Map sst invalid link_value", c, tc))
    | Some (flags, link_count, smallest_key, map_input) =>
        let include_smallest := Z.testbit flags kIncludeSmallest in
        let include_largest := Z.testbit flags kIncludeLargest in
        match shrink_to_smallest smallest_key include_smallest with
        | None => Some (false, (s, c, tc))
        | Some find_k =>
            let min_seq_type_backup := GetMinSequenceAndType c in
            if beyond_largest largest_key include_largest
            then Some (true, (s, c, tc))
            else
              r <- get_links (Z.to_nat link_count) map_input find_k
                             (s, shrink_ceiling largest_key include_largest c,
                              tc) ;;
              let '(completed, (s', c', tc')) := r in
              if completed
              then Some (is_largest_user_key largest_key,
                         (s', SetMinSequenceAndType min_seq_type_backup c', tc'))
              else Some (false, (s', c', tc'))
        end
    end.

(** [RangeScan(&k, ...)]: the entries from the first one at or after
    [k], in order, for as long as the callback asks for more. *)
Fixpoint scan (entries : list (InternalKey * LazySlice)) (st : ScanState)
  : option ScanState :=
  match entries with
  | [] => Some st
  | (key, value) :: rest =>
      r <- get_from_map key value st ;;
      let '(more, st') := r in
      if more then scan rest st' else Some st'
  end.

Fixpoint seek_entries (entries : list (InternalKey * LazySlice))
  : list (InternalKey * LazySlice) :=
  match entries with
  | [] => []
  | (key, value) :: rest =>
      if Compare key k >=? 0 then entries else seek_entries rest
  end.

Definition RangeScan (t : TableReader) (st : ScanState) : option ScanState :=
  scan (seek_entries (reader_entries t)) st.

End GetFromMap.

(** [enable_row_cache] of [TableCache::Get]. *)
Definition enable_row_cache (tc : TableCache) (get_context : GetContext)
           (file_meta : FileMetaData) : bool :=
  match row_cache tc with Some _ => true | None => false end
  && negb (NeedToReadSequence get_context)
  && negb (is_map (purpose file_meta)).

(** The row-cache check at the head of [TableCache::Get]: the context
    replayed from the row cache when the check answers the lookup. *)
Definition row_cache_hit (tc : TableCache) (no_global_row_cache : bool)
           (file_meta : FileMetaData) (k : InternalKey)
           (get_context : GetContext) : option GetContext :=
  match row_cache tc with
  | Some rc =>
      if enable_row_cache tc get_context file_meta && negb no_global_row_cache
      then GetFromRowCache rc (fd_number file_meta) k get_context
      else None
  | None => None
  end.

(** The reader of the file: the one inlined in the descriptor, or the
    one [FindTable] yields. *)
Definition find_reader (tc : TableCache) (file_meta : FileMetaData)
           (read_tier : ReadTier) : Status * option TableReader * TableCache :=
  match fd_table_reader file_meta with
  | Some t => (StatusOK, Some t, tc)
  | None =>
      FindTable tc (fd_number file_meta) (is_block_cache_tier read_tier)
  end.

(** The lookup in a data table, with or without the row cache. *)
Definition get_from_data (tc : TableCache) (no_global_row_cache : bool)
           (file_meta : FileMetaData) (t : TableReader) (k : InternalKey)
           (get_context : GetContext) : Status * GetContext :=
  match row_cache tc with
  | Some rc =>
      if enable_row_cache tc get_context file_meta && no_global_row_cache
      then RowCachedGet rc t (fd_number file_meta) k get_context
      else
        let '(s, c) := ReaderGet t k get_context in
        (* the key buffer is set when the row cache was consulted above *)
        (if ok s && (enable_row_cache tc get_context file_meta
                     && negb no_global_row_cache)
         then AddToCache rc else s, c)
  | None => ReaderGet t k get_context
  end.

(** [TableCache::Get].  The recursion through the link targets of a map
    table is bounded by [fuel], the depth of map nesting allowed;
    [None] stands for a nesting deeper than that. *)
Fixpoint Get (fuel : nat) (tc : TableCache) (read_tier : ReadTier)
         (no_global_row_cache : bool) (file_meta : FileMetaData)
         (dependence_map : DependenceMap) (k : InternalKey)
         (get_context : GetContext) : option ScanState :=
  match fuel with
  | O => None
  | S fuel' =>
      match row_cache_hit tc no_global_row_cache file_meta k get_context with
      | Some c' => Some (StatusOK, c', tc)
      | None =>
          let '(s, t, tc1) := find_reader tc file_meta read_tier in
          if ok s then
            t <- t ;;
            if negb (is_map (purpose file_meta)) then
              let '(s, c) :=
                get_from_data tc no_global_row_cache file_meta t k
                              get_context in
              Some (s, c, tc1)
            else if empty dependence_map then
              Some (Corruption "Composite sst depend files missing",
                    get_context, tc1)
            else
              RangeScan
                (fun f find_k c tc' =>
                   Get fuel' tc' read_tier no_global_row_cache f
                       dependence_map find_k c)
                dependence_map k t (s, get_context, tc1)
          else if is_block_cache_tier read_tier && IsIncomplete s then
            Some (StatusOK, MarkKeyMayExist get_context, tc1)
          else Some (s, get_context, tc1)
      end
  end.

(** ** The iterator over the files of a level *)

(** [std::lower_bound] and [std::upper_bound] over the array of files, as
    the bisection the standard library performs: [comp f] stands for
    [comp(f, target)] in the first and for [comp(target, f)] in the
    second.  The length to search halves in each round, so the fuel of
    the length of the array is never exhausted. *)
Fixpoint std_lower_bound (fuel : nat) (comp : FileMetaData -> bool)
         (l : list FileMetaData) (first len : nat) : nat :=
  match fuel with
  | O => first
  | S fuel' =>
      if Nat.eqb len 0 then first
      else
        let half := Nat.div2 len in
        let middle := (first + half)%nat in
        match nth_error l middle with
        | Some f =>
            if comp f
            then std_lower_bound fuel' comp l (S middle) (len - half - 1)
            else std_lower_bound fuel' comp l first half
        | None => first
        end
  end.

Fixpoint std_upper_bound (fuel : nat) (comp : FileMetaData -> bool)
         (l : list FileMetaData) (first len : nat) : nat :=
  match fuel with
  | O => first
  | S fuel' =>
      if Nat.eqb len 0 then first
      else
        let half := Nat.div2 len in
        let middle := (first + half)%nat in
        match nth_error l middle with
        | Some f =>
            if comp f
            then std_upper_bound fuel' comp l first half
            else std_upper_bound fuel' comp l (S middle) (len - half - 1)
        | None => first
        end
  end.

Module MapElementIterator.

(** The value of the iterator: the value the iterator of a map table
    yields, or the encoding of [element_]; the codec
    [MapSstElement::Value] is missing from the sources, so the encoded
    element is held as such. *)
Inductive MapValue : Type :=
| TableValue (v : LazySlice)
| ElementValue (e : MapSstElement).

(** Modelled from the spec: the [InternalIterator] that [create_iter_]
    yields for a map table: its status, its entries in key order and
    its position, [None] when it is not valid.  The operations that
    require a valid iterator are undefined on one that is not. *)
Record InnerIterator : Type := mkInner {
  inner_status : Status;
  inner_entries : list (InternalKey * LazySlice);
  inner_pos : option nat
}.

Definition inner_keys (it : InnerIterator) : list InternalKey :=
  map fst (inner_entries it).

Definition move (it : InnerIterator) (p : option nat) : InnerIterator :=
  mkInner (inner_status it) (inner_entries it) p.

Definition inner_Valid (it : InnerIterator) : bool :=
  match inner_pos it with Some _ => true | None => false end.

Definition inner_Seek (target : InternalKey) (it : InnerIterator)
  : InnerIterator :=
  move it (Seek (inner_keys it) target).

Definition inner_SeekForPrev (target : InternalKey) (it : InnerIterator)
  : InnerIterator :=
  move it (SeekForPrev (inner_keys it) target).

Definition inner_SeekToFirst (it : InnerIterator) : InnerIterator :=
  move it (match inner_entries it with [] => None | _ :: _ => Some O end).

Definition inner_SeekToLast (it : InnerIterator) : InnerIterator :=
  move it (match inner_entries it with
           | [] => None
           | _ :: _ => Some (length (inner_entries it) - 1)%nat
           end).

Definition inner_Next (it : InnerIterator) : option InnerIterator :=
  i <- inner_pos it ;; Some (move it (Next (inner_keys it) i)).

Definition inner_Prev (it : InnerIterator) : option InnerIterator :=
  i <- inner_pos it ;; Some (move it (Prev i)).

(** [iter->key()] and [iter->value()]. *)
Definition inner_current (it : InnerIterator)
  : option (InternalKey * LazySlice) :=
  i <- inner_pos it ;; nth_error (inner_entries it) i.

(** The members that change: [where_], [iter_] ([None] for a null
    pointer), [key_slice] and [value_slice]. *)
Record State : Type := mkState {
  where_ : nat;
  iter_ : option InnerIterator;
  key_slice : InternalKey;
  value_slice : MapValue
}.

Section Iterator.

Variable meta_array_ : list FileMetaData.
Variable create_iter_ : FileMetaData -> InnerIterator.

Definition meta_size_ : nat := length meta_array_.

(** The constructor: [where_(meta_size)], the slices empty. *)
Definition new : State :=
  mkState meta_size_ None empty_key (TableValue (mkLazy StatusOK [])).

Definition Valid (st : State) : bool := Nat.ltb (where_ st) meta_size_.

(** [status()]. *)
Definition status (st : State) : Status :=
  match iter_ st with
  | Some it => inner_status it
  | None => StatusOK
  end.

(** [InitMapSstIterator]: whether it succeeded, and the state
    after. *)
Definition InitMapSstIterator (st : State) : option (bool * State) :=
  f <- nth_error meta_array_ (where_ st) ;;
  let it := create_iter_ f in
  if ok (inner_status it)
  then Some (true, mkState (where_ st) (Some it)
                           (key_slice st) (value_slice st))
  else Some (false, mkState meta_size_ (Some it)
                            (key_slice st) (value_slice st)).

(** [Update]; a map element is keyed by its largest key. *)
Definition Update (st : State) : option State :=
  match iter_ st with
  | Some it =>
      kv <- inner_current it ;;
      Some (mkState (where_ st) (iter_ st) (fst kv) (TableValue (snd kv)))
  | None =>
      f <- nth_error meta_array_ (where_ st) ;;
      let element_ :=
        mkElement (smallest f) (largest f) true true false
                  [mkLink (fd_number f) (fd_file_size f)] in
      Some (mkState (where_ st) None (largest_key_ element_)
                    (ElementValue element_))
  end.

(** The block that [SeekToFirst], [SeekToLast], [Next], [Prev] and
    the two seeks end with, [where_] being set: on a map table open
    its iterator and position it with [seek], on a data table reset
    [iter_]; then [Update]. *)
Definition enter (seek : InnerIterator -> InnerIterator) (st : State)
  : option State :=
  f <- nth_error meta_array_ (where_ st) ;;
  if is_map (purpose f) then
    r <- InitMapSstIterator st ;;
    let '(done, st1) := r in
    if negb done then Some st1
    else
      it <- iter_ st1 ;;
      Update (mkState (where_ st1) (Some (seek it))
                      (key_slice st1) (value_slice st1))
  else
    Update (mkState (where_ st) None (key_slice st) (value_slice st)).

Definition at_ (w : nat) (st : State) : State :=
  mkState w None (key_slice st) (value_slice st).

Definition SeekToFirst (st : State) : option State :=
  enter inner_SeekToFirst (at_ 0 st).

Definition SeekToLast (st : State) : option State :=
  enter inner_SeekToLast (at_ (meta_size_ - 1) st).

(** The tail of [Next]: [++where_] and the block above. *)
Definition next_file (st : State) : option State :=
  let w := S (where_ st) in
  if Nat.eqb w meta_size_ then Some (at_ w st)
  else enter inner_SeekToFirst (at_ w st).

Definition Next (st : State) : option State :=
  match iter_ st with
  | Some it =>
      it' <- inner_Next it ;;
      if inner_Valid it'
      then Update (mkState (where_ st) (Some it')
                           (key_slice st) (value_slice st))
      else next_file st
  | None => next_file st
  end.

(** The tail of [Prev]: [where_-- == 0] and the block above. *)
Definition prev_file (st : State) : option State :=
  match where_ st with
  | O => Some (at_ meta_size_ st)
  | S w => enter inner_SeekToLast (at_ w st)
  end.

Definition Prev (st : State) : option State :=
  match iter_ st with
  | Some it =>
      it' <- inner_Prev it ;;
      if inner_Valid it'
      then Update (mkState (where_ st) (Some it')
                           (key_slice st) (value_slice st))
      else prev_file st
  | None => prev_file st
  end.

Definition Seek (target : InternalKey) (st : State) : option State :=
  let w := std_lower_bound meta_size_
             (fun f => Compare (largest f) target <? 0)
             meta_array_ 0 meta_size_ in
  if Nat.eqb w meta_size_ then Some (at_ w st)
  else
    f <- nth_error meta_array_ w ;;
    if is_map (purpose f) then
      r <- InitMapSstIterator (at_ w st) ;;
      let '(done, st1) := r in
      if negb done then Some st1
      else
        it <- iter_ st1 ;;
        let it1 := inner_Seek target it in
        if negb (inner_Valid it1) then next_file st1
        else Update (mkState (where_ st1) (Some it1)
                             (key_slice st1) (value_slice st1))
    else Update (at_ w st).

Definition SeekForPrev (target : InternalKey) (st : State)
  : option State :=
  let u := std_upper_bound meta_size_
             (fun f => Compare target (largest f) <? 0)
             meta_array_ 0 meta_size_ in
  match u with
  | O => Some (at_ meta_size_ st)
  | S w =>
      f <- nth_error meta_array_ w ;;
      if is_map (purpose f) then
        r <- InitMapSstIterator (at_ w st) ;;
        let '(done, st1) := r in
        if negb done then Some st1
        else
          it <- iter_ st1 ;;
          let it1 := inner_SeekForPrev target it in
          if negb (inner_Valid it1) then prev_file st1
          else Update (mkState (where_ st1) (Some it1)
                               (key_slice st1) (value_slice st1))
      else Update (at_ w st)
  end.

End Iterator.

(** What [NewMapElementIterator] returns: the empty iterator, the
    iterator of the only map table, or an iterator over the files. *)
Inductive NewIterator : Type :=
| EmptyInternalIterator
| TableIterator (it : InnerIterator)
| ElementIterator (st : State).

Definition NewMapElementIterator (meta_array : list FileMetaData)
           (create_iter : FileMetaData -> InnerIterator) : NewIterator :=
  match meta_array with
  | [] => EmptyInternalIterator
  | [f] =>
      if is_map (purpose f) then TableIterator (create_iter f)
      else ElementIterator (new meta_array)
  | _ => ElementIterator (new meta_array)
  end.

End MapElementIterator.

(** ** The rest of the table cache *)

(** [cache->Erase(key)]. *)
Definition Erase (c : list (Z * TableReader)) (number : Z)
  : list (Z * TableReader) :=
  filter (fun p => negb (fst p =? number)) c.

(** [TableCache::Evict]; [EraseHandle] does the same to the cache once
    it has released the handle. *)
Definition Evict (tc : TableCache) (file_number : Z) : TableCache :=
  mkTableCache (Erase (cache_ tc) file_number)
               (GetTableReader tc) (Insert tc) (Evicts tc) (row_cache tc).

(** The aggregator of range tombstones, as far as [NewIterator] uses
    it: the files added so far, and the calls of [AddTombstones], each
    with the file the tombstone iterator comes from, the status of that
    iterator ([None] for a null iterator) and the bounds given. *)
Record RangeDelAggregator : Type := mkAgg {
  agg_files : list Z;
  agg_tombstones : list (Z * option Status * InternalKey * InternalKey)
}.

(** [range_del_agg->AddFile(number)]: whether the file is new to the
    aggregator, and the aggregator after. *)
Definition AddFile_ (number : Z) (agg : RangeDelAggregator)
  : bool * RangeDelAggregator :=
  if existsb (Z.eqb number) (agg_files agg) then (false, agg)
  else (true, mkAgg (agg_files agg ++ [number]) (agg_tombstones agg)).

Definition AddTombstones (number : Z) (range_del_iter : option Status)
           (smallest_key largest_key : InternalKey)
           (agg : RangeDelAggregator) : RangeDelAggregator :=
  mkAgg (agg_files agg)
        (agg_tombstones agg
         ++ [(number, range_del_iter, smallest_key, largest_key)]).

(** The iterator [NewIterator] returns: the empty iterator, the
    iterator of the table, the iterator of a map table over its
    dependence, or the error iterator. *)
Inductive NewIteratorResult : Type :=
| EmptyIterator
| ReaderIterator (t : TableReader)
| MapSstIterator (t : TableReader) (dependence_map : DependenceMap)
| ErrorIterator (s : Status).

(** The options [NewIterator] reads. *)
Record IteratorOptions : Type := mkIterOptions {
  read_tier : ReadTier;
  readahead_size : Z;
  ignore_range_deletions : bool;
  for_compaction : bool;
  new_table_reader_for_compaction_inputs : bool;
  compaction_readahead_size : Z
}.

Section Readers.

(** Modelled from the spec: what a table reader answers besides
    lookups ([table/table_reader.h] is missing from the sources): its
    properties, its memory usage, and the status of its range
    tombstone iterator ([None] for a null iterator). *)
Variable TableProperties : Type.
Variable reader_properties : TableReader -> TableProperties.
Variable ApproximateMemoryUsage : TableReader -> Z.
Variable NewRangeTombstoneIterator : TableReader -> option Status.

(** [TableCache::GetTableProperties]: the status, the properties
    stored through the pointer if any, and the cache after.  A null
    handle after a successful [FindTable] is undefined. *)
Definition GetTableProperties (tc : TableCache)
           (table_reader : option TableReader) (number : Z) (no_io : bool)
  : option (Status * option TableProperties * TableCache) :=
  match table_reader with
  | Some t => Some (StatusOK, Some (reader_properties t), tc)
  | None =>
      let '(s, table_handle, tc') := FindTable tc number no_io in
      if negb (ok s) then Some (s, None, tc')
      else
        table <- table_handle ;;
        Some (s, Some (reader_properties table), tc')
  end.


(** [TableCache::NewIterator]: the iterator, the reader stored through
    [table_reader_ptr], the cache and the aggregator after.
    [table_filter] is the filter of the read options, if any;
    [range_del_agg] is [None] for a null pointer; the compaction keys
    are [None] for null pointers. *)
Definition NewIterator (tc : TableCache) (options : IteratorOptions)
           (table_filter : option (TableProperties -> bool))
           (file_meta : FileMetaData) (dependence_map : DependenceMap)
           (range_del_agg : option RangeDelAggregator)
           (smallest_compaction_key largest_compaction_key
            : option InternalKey)
  : option (NewIteratorResult * option TableReader * TableCache
            * option RangeDelAggregator) :=
  let '(readahead, create_new_table_reader) :=
    if for_compaction options then
      if new_table_reader_for_compaction_inputs options
      then (compaction_readahead_size options, true)
      else (0, false)
    else (readahead_size options, readahead_size options >? 0) in
  let '(s, table_reader, tc1) :=
    if create_new_table_reader then
      let '(s, t) := GetTableReader tc (fd_number file_meta) in
      if ok s then (s, Some t, tc) else (s, None, tc)
    else
      match fd_table_reader file_meta with
      | Some t => (StatusOK, Some t, tc)
      | None =>
          FindTable tc (fd_number file_meta)
                    (is_block_cache_tier (read_tier options))
      end in
  r <- (if ok s then
          t <- table_reader ;;
          Some (match table_filter with
                | Some keep =>
                    if negb (keep (reader_properties t)) then EmptyIterator
                    else if is_map (purpose file_meta)
                            && negb (empty dependence_map)
                         then MapSstIterator t dependence_map
                         else ReaderIterator t
                | None =>
                    if is_map (purpose file_meta)
                       && negb (empty dependence_map)
                    then MapSstIterator t dependence_map
                    else ReaderIterator t
                end, Some t)
        else Some (ErrorIterator s, None)) ;;
  let '(result, table_reader_ptr) := r in
  r2 <- (match range_del_agg with
         | Some agg =>
             if ok s && negb (ignore_range_deletions options)
                && negb (is_map (purpose file_meta))
             then
               let '(added, agg1) := AddFile_ (fd_number file_meta) agg in
               if added then
                 t <- table_reader ;;
                 let s1 := match NewRangeTombstoneIterator t with
                           | Some st => st
                           | None => s
                           end in
                 if ok s1
                 then Some (s1, Some
                              (AddTombstones (fd_number file_meta)
                                 (NewRangeTombstoneIterator t)
                                 (match smallest_compaction_key with
                                  | Some k => k
                                  | None => smallest file_meta
                                  end)
                                 (match largest_compaction_key with
                                  | Some k => k
                                  | None => largest file_meta
                                  end)
                                 agg1))
                 else Some (s1, Some agg1)
               else Some (s, Some agg1)
             else Some (s, Some agg)
         | None => Some (s, None)
         end) ;;
  let '(s2, agg2) := r2 in
  Some (if ok s2 then result else ErrorIterator s2,
        table_reader_ptr, tc1, agg2).

End Readers.

(* ===================================================================== *)
(** * Definitions for the proofs *)
(* ===================================================================== *)

Section ProofDefinitions.

Context {value_types : ValueTypes}.

(** ** The key order and cuts *)

(** The strict key order and key equality, as linear constraints on the
    two components of a key. *)
Definition klt (a b : InternalKey) : Prop :=
  user_key a < user_key b \/ (user_key a = user_key b /\ footer b < footer a).

Definition keq (a b : InternalKey) : Prop :=
  user_key a = user_key b /\ footer a = footer b.

(** A cut is a gap of the key order: [(k, 0)] lies just before the key
    [k], [(k, 1)] just after it.  A left endpoint is the cut before or
    after its key, according to whether it is inclusive, and conversely
    for a right endpoint. *)
Definition cut : Type := (InternalKey * Z)%type.

Definition cle (c d : cut) : Prop :=
  klt (fst c) (fst d) \/ (keq (fst c) (fst d) /\ snd c <= snd d).

Definition clt (c d : cut) : Prop :=
  klt (fst c) (fst d) \/ (keq (fst c) (fst d) /\ snd c < snd d).

Definition lc (k : InternalKey) (incl : bool) : cut := (k, if incl then 0 else 1).

Definition rc (k : InternalKey) (incl : bool) : cut := (k, if incl then 1 else 0).

Definition lcut (r : RangeWithDepend) : cut := lc (point0 r) (include0 r).

Definition rcut (r : RangeWithDepend) : cut := rc (point1 r) (include1 r).

(** The cut of the endpoint [r.point[i]]. *)
Definition ecut (r : RangeWithDepend) (i : bool) : cut :=
  if i then rcut r else lcut r.

Definition before (x : InternalKey) : cut := (x, 0).

Definition after (x : InternalKey) : cut := (x, 1).

(** ** The sweep invariant of the partitioner *)

(** Well-formed input in terms of cuts: every range is valid and every
    range ends before each later one begins. *)
Definition WF (l : list RangeWithDepend) : Prop :=
  (forall i r, nth_error l i = Some r -> cle (lcut r) (rcut r)) /\
  (forall i j ri rj, (i < j)%nat -> nth_error l i = Some ri ->
                     nth_error l j = Some rj -> cle (rcut ri) (lcut rj)).

(** The range a side of the sweep is inside of, if any. *)
Definition cur (l : list RangeWithDepend) (i : nat) (b : bool)
  : option RangeWithDepend :=
  if b then nth_error l i else None.

(** What the sweep knows about one input vector when every endpoint up
    to the cut [F] has been consumed: ranges before index [i] end by [F];
    with [b] set the range at [i] straddles [F], otherwise it begins
    after [F]. *)
Definition SideInv (l : list RangeWithDepend) (i : nat) (b : bool) (F : cut)
  : Prop :=
  (forall j r, (j < i)%nat -> nth_error l j = Some r -> cle (rcut r) F) /\
  (forall r, nth_error l i = Some r ->
             if b then cle (lcut r) F /\ cle F (rcut r) else cle F (lcut r)) /\
  (b = true -> (i < length l)%nat) /\
  (i <= length l)%nat.

Definition inside (F E : cut) (r : RangeWithDepend) : Prop :=
  cle (lcut r) F /\ cle E (rcut r).

Definition outside (F E : cut) (r : RangeWithDepend) : Prop :=
  cle (rcut r) F \/ cle E (lcut r).

(** The stretch between the cuts [F] and [E] lies inside the range [c]
    of [l], or outside every range of [l]. *)
Definition region (l : list RangeWithDepend) (F E : cut)
           (c : option RangeWithDepend) : Prop :=
  match c with
  | Some r => In r l /\ inside F E r
  | None => forall r, In r l -> outside F E r
  end.

(** [b] touches [r]: it ends where [r] begins or begins where [r] ends,
    with no key between them and none in both. *)
Definition touching (b r : RangeWithDepend) : bool :=
  ((Compare (point1 b) (point0 r) =? 0) && xorb (include1 b) (include0 r))
  || ((Compare (point0 b) (point1 r) =? 0) && xorb (include0 b) (include1 r)).

(** No range of [l] touches [r], in terms of cuts. *)
Definition untouched (l : list RangeWithDepend) (r : RangeWithDepend) : Prop :=
  forall b, In b l -> rcut b <> lcut r /\ lcut b <> rcut r.

Section SweepInvariant.

Variables A B : list RangeWithDepend.
Variable ty : PartitionType.

(** The fields [put_depend] leaves in a fresh element. *)
Definition depend_fields (ca cb : option RangeWithDepend)
  : bool * bool * list LinkTarget :=
  match ty with
  | kMerge =>
      match ca, cb with
      | Some a, Some b => (false, false, dependence a ++ dependence b)
      | Some a, None => (no_records a, stable a, dependence a)
      | None, Some b => (no_records b, stable b, dependence b)
      | None, None => (false, false, [])
      end
  | kDelete =>
      match ca, cb with
      | Some a, None => (no_records a, stable a, dependence a)
      | _, _ => (false, false, [])
      end
  end.

(** The element under construction after [put_left] and [put_depend]. *)
Definition open_piece (key : InternalKey) (incl : bool)
           (ca cb : option RangeWithDepend) : RangeWithDepend :=
  let '(n, s, d) := depend_fields ca cb in
  mkRange key empty_key incl false n s d.

(** [r] is the one input range the stretch lies inside of, and no range
    of the other vector touches it. *)
Definition lone (ca cb : option RangeWithDepend) (r : RangeWithDepend)
  : Prop :=
  (ca = Some r /\ cb = None /\ untouched B r) \/
  (ca = None /\ cb = Some r /\ untouched A r).

(** Provenance of a finished output range [o]: it is not empty, carries
    links, lies inside or outside each input range, and its fields are
    those [put_depend] computes from the ranges it lies inside of; its
    [stable] flag is cleared unless it has the bounds of the one range
    it lies inside of, and kept when moreover nothing touches that
    range. *)
Definition piece_ok (o : RangeWithDepend) : Prop :=
  clt (lcut o) (rcut o) /\
  dependence o <> [] /\
  exists ca cb,
    region A (lcut o) (rcut o) ca /\
    region B (lcut o) (rcut o) cb /\
    no_records o = fst (fst (depend_fields ca cb)) /\
    dependence o = snd (depend_fields ca cb) /\
    (stable o = true ->
     exists r, ((ca = Some r /\ cb = None) \/ (ca = None /\ cb = Some r)) /\
               stable r = true /\ same_bounds o r) /\
    (forall r, lone ca cb r -> same_bounds o r ->
               stable o = snd (fst (depend_fields ca cb))).

(** The finished ranges, latest first, all ending by [hi]. *)
Fixpoint rchain (hi : cut) (l : list RangeWithDepend) : Prop :=
  match l with
  | [] => True
  | o :: l' => cle (rcut o) hi /\ clt (lcut o) (rcut o) /\ rchain (lcut o) l'
  end.

Definition deps_ok : Prop :=
  (forall r, In r A -> dependence r <> []) /\
  (ty = kMerge -> forall r, In r B -> dependence r <> []).

(** A key that a dropped range may hold: it carries the maximal
    sequence number, and so does an endpoint of an input range on the
    same user key. *)
Definition sentinel (x : InternalKey) : Prop :=
  on_sentinel (A ++ B) x = true.

(** Up to the cut [E] nothing that should be covered is missing, but
    for keys with the maximal sequence number. *)
Definition complete (E : cut) (closed : list RangeWithDepend) : Prop :=
  deps_ok ->
  forall x, key_in_range x -> cle (after x) E ->
            expected_coverage ty A B x = true ->
            coverage closed x = true \/ sentinel x.

Definition ClosedInv (E : cut) (closed : list RangeWithDepend) : Prop :=
  rchain E closed /\ Forall piece_ok closed /\ complete E closed.

(** The source pointer, when set, is the range the sweep is inside of
    on that side, and the element under construction begins where that
    range begins. *)
Definition SrcOK (st : Cursor) (key0 : InternalKey) (incl0 : bool) : Prop :=
  forall p, source (c_sweep st) = Some p ->
    exists r0, point0 r0 = key0 /\ include0 r0 = incl0 /\
      match fst p with
      | RangesA => snd p = c_ai st /\ cur A (c_ai st) (c_ab st) = Some r0
      | RangesB => snd p = c_bi st /\ cur B (c_bi st) (c_bb st) = Some r0
      end.

(** Conversely, the source pointer is set when the element under
    construction begins where the one range the sweep is inside of
    begins, and no range of the other vector touches that range. *)
Definition SrcSet (st : Cursor) (key0 : InternalKey) (incl0 : bool) : Prop :=
  (forall a, cur A (c_ai st) (c_ab st) = Some a ->
             cur B (c_bi st) (c_bb st) = None ->
             point0 a = key0 -> include0 a = incl0 -> untouched B a ->
             source (c_sweep st) = Some (RangesA, c_ai st)) /\
  (forall b, cur B (c_bi st) (c_bb st) = Some b ->
             cur A (c_ai st) (c_ab st) = None ->
             point0 b = key0 -> include0 b = incl0 -> untouched A b ->
             source (c_sweep st) = Some (RangesB, c_bi st)).

Definition OutInv (F : cut) (st : Cursor) : Prop :=
  if c_ab st || c_bb st then
    exists key0 incl0 closed,
      output (c_sweep st)
      = open_piece key0 incl0 (cur A (c_ai st) (c_ab st))
                   (cur B (c_bi st) (c_bb st)) :: closed /\
      F = lc key0 incl0 /\ ClosedInv F closed /\ SrcOK st key0 incl0 /\
      SrcSet st key0 incl0
  else ClosedInv F (output (c_sweep st)).

Definition Inv (st : Cursor) : Prop :=
  exists F, SideInv A (c_ai st) (c_ab st) F /\
            SideInv B (c_bi st) (c_bb st) F /\
            OutInv F st.

(** Endpoints consumed so far. *)
Definition pos (st : Cursor) : nat :=
  (2 * c_ai st + (if c_ab st then 1 else 0)
   + 2 * c_bi st + (if c_bb st then 1 else 0))%nat.

End SweepInvariant.

Section Progress.

Variables A B : list RangeWithDepend.

(** What keeps the loop going whatever the ranges are: the selectors
    point into the vectors, and an element is under construction
    whenever the sweep is inside a range. *)
Definition Running (st : Cursor) : Prop :=
  (c_ai st <= length A)%nat /\ (c_bi st <= length B)%nat /\
  (c_ab st = true -> (c_ai st < length A)%nat) /\
  (c_bb st = true -> (c_bi st < length B)%nat) /\
  (c_ab st || c_bb st = true -> output (c_sweep st) <> []).

End Progress.

(** ** The range the loader is to append *)

(** The range the loader is to append for a data table. *)
Definition data_table_range (f : FileMetaData) : RangeWithDepend :=
  mkRange (smallest f)
          (if GetInternalKeySeqno (largest f) =? kMaxSequenceNumber
           then mkIKey (user_key (largest f))
                       (PackSequenceAndType kMaxSequenceNumber kTypeDeletion)
           else largest f)
          true true false false [mkLink (fd_number f) 0].

Definition data_table_ok (iterator_cache : IteratorCache) (f : FileMetaData)
  : bool :=
  match purpose f with kEssenceSst => true | kMapSst => false end
  && ok (iter_status (GetIterator iterator_cache (fd_number f))).

(** The first link of every range names a file the cache knows, so the
    scan that decides whether a map table is needed is defined. *)
Definition links_known (iterator_cache : IteratorCache)
           (ranges : list RangeWithDepend) : bool :=
  forallb (fun r =>
             match dependence r with
             | [] => false
             | front :: _ =>
                 match GetFileMetaData iterator_cache (file_number front) with
                 | Some _ => true
                 | None => false
                 end
             end) ranges.

(** The scan passes the entries [passed]: on each of them the callback
    asks for more. *)
Fixpoint scan_passes (rec_get : FileMetaData -> InternalKey -> GetContext
                                -> TableCache -> option ScanState)
         (dm : DependenceMap) (k : InternalKey)
         (passed : list (InternalKey * LazySlice)) (st st' : ScanState)
  : Prop :=
  match passed with
  | [] => st' = st
  | (key, value) :: rest =>
      exists st1,
        get_from_map rec_get dm k key value st = Some (true, st1) /\
        scan_passes rec_get dm k rest st1 st'
  end.

(** ** What the partitioner keeps *)

(** The tests of [put_right] on a finished element: it stays in the
    output when it has links, is not a single key with an exclusive end,
    and is not an empty map element. *)
Definition kept (o : RangeWithDepend) : bool :=
  negb (match dependence o with [] => true | _ => false end
        || ((Compare (point1 o) (point0 o) =? 0)
            && (negb (include0 o) || negb (include1 o))))
  && negb (IsEmptyMapSstElement o).

(** The finished elements of the output: all of it between two ranges,
    all but the element under construction inside a range. *)
Definition finished (st : Cursor) : list RangeWithDepend :=
  if c_ab st || c_bb st then tl (output (c_sweep st))
  else output (c_sweep st).

(** ** Entries, bounds and links *)

(** An entry of a map table whose value decodes. *)
Definition entry_ok (e : IterEntry) : bool :=
  ok (e_decode e) && match e_element e with Some _ => true | None => false end.

(** The elements the entries decode to. *)
Fixpoint entry_elements (entries : list IterEntry) : list MapSstElement :=
  match entries with
  | [] => []
  | e :: rest =>
      match e_element e with
      | Some el => el :: entry_elements rest
      | None => entry_elements rest
      end
  end.

(** The status the loader returns on an entry that does not decode. *)
Definition entry_error (e : IterEntry) : Status :=
  if ok (e_decode e) then Corruption "Map sst invalid key or value"
  else e_decode e.

(** What the bound builder holds about a file it has seen. *)
Definition bounds_file (iterator_cache : IteratorCache)
           (b : FileMetaDataBoundBuilder) (f : FileMetaData) : Prop :=
  (exists ks kl,
     b_smallest b = Some ks /\ b_largest b = Some kl /\
     Compare ks (smallest f) <= 0 /\ Compare (largest f) kl <= 0) /\
  smallest_seqno b <= fd_smallest_seqno f /\
  fd_largest_seqno f <= largest_seqno b /\
  table_creation_time (GetIterator iterator_cache (fd_number f))
  <= creation_time b.

(** [s] is [l] with some of its elements left out. *)
Fixpoint subsequence (s l : list LinkTarget) : Prop :=
  match l with
  | [] => s = []
  | y :: l' =>
      match s with
      | [] => True
      | x :: s' => (x = y /\ subsequence s' l') \/ subsequence s l'
      end
  end.

(** No two neighbours of the vector begin on the same key or end on the
    same key, so the iterator fuses nothing. *)
Fixpoint separate (l : list RangeWithDepend) : bool :=
  match l with
  | r :: ((r1 :: _) as rest) =>
      negb (Compare (point0 r) (point0 r1) =? 0)
      && negb (Compare (point1 r) (point1 r1) =? 0)
      && separate rest
  | _ => true
  end.

(** The file numbers linked from a vector of ranges. *)
Definition linked_files (ranges : list RangeWithDepend) : list Z :=
  flat_map (fun r => map file_number (dependence r)) ranges.

(** The last part of [PrepareNext], once the element is put together
    from the ranges it fuses. *)
Definition emit (iterator_cache : IteratorCache) (it : MapSstElementIterator)
           (start end1 : InternalKey) (include_start include_end2 no_rec0 : bool)
           (link2 : list LinkTarget) (stable2 : bool)
           (w3 : list RangeWithDepend) : MapSstElementIterator :=
  if stable2 then
    let e := mkElement start end1 include_start include_end2 no_rec0 link2 in
    mkIter w3 e (Some e) (status_ it)
           (fold_left (fun s l => emplace (file_number l) s) link2
                      (dependence_build_ it))
           (Nat.max (sst_read_amp_ it) (length link2))
  else
    let '(s, (link3, no_rec, deps)) :=
      resolve_links iterator_cache start end1 include_start include_end2
                    link2 [] true (dependence_build_ it) in
    let e := mkElement start end1 include_start include_end2 no_rec link3 in
    if negb (ok s)
    then mkIter w3 e None s deps (sst_read_amp_ it)
    else mkIter w3 e (Some e) (status_ it) deps
                (Nat.max (sst_read_amp_ it) (length link3)).

(** What a step of the iterator does to the file numbers collected:
    [consumed] are the ranges the step takes, [it'] the iterator after. *)
Definition step_files (it it' : MapSstElementIterator)
           (consumed : list RangeWithDepend) : Prop :=
  where_ it = consumed ++ where_ it' /\
  NoDup (dependence_build_ it') /\
  (forall m, In m (dependence_build_ it') ->
             In m (dependence_build_ it) \/ In m (linked_files consumed)) /\
  (forall m, In m (dependence_build_ it) -> In m (dependence_build_ it')) /\
  (ok (status_ it') = true ->
   ok (status_ it) = true /\
   (forall m, In m (linked_files consumed) -> In m (dependence_build_ it')) /\
   (buffer_ it' = None -> where_ it = [])) /\
  (buffer_ it' <> None -> (length (where_ it') < length (where_ it))%nat).

(** A data table the build can move: its iterator is in order, its
    largest key does not carry the maximal sequence number, and the
    cache knows its metadata. *)
Definition movable (iterator_cache : IteratorCache) (f : FileMetaData) : Prop :=
  data_table_ok iterator_cache f = true /\
  GetInternalKeySeqno (largest f) <> kMaxSequenceNumber /\
  GetFileMetaData iterator_cache (fd_number f) = Some f.

(** The edits that move the files of a level to the output level. *)
Definition move_edits (lvl output_level : Z) (fs : list FileMetaData)
  : list EditOp :=
  if output_level =? lvl then []
  else flat_map (fun f => [DeleteFile lvl (fd_number f);
                           AddFile output_level f]) fs.

(** ** Scanning the files of a level *)

(** The files are in the order of their largest keys. *)
Definition files_sorted (l : list FileMetaData) : Prop :=
  forall i j fi fj, (i <= j)%nat ->
    nth_error l i = Some fi -> nth_error l j = Some fj ->
    Compare (largest fi) (largest fj) <= 0.

(** The element [Update] makes up for a data table. *)
Definition file_element (f : FileMetaData) : MapSstElement :=
  mkElement (smallest f) (largest f) true true false
            [mkLink (fd_number f) (fd_file_size f)].

(** What the iterator is to yield for a file: the entries of a map
    table, the made-up element of a data table. *)
Definition contents (create_iter : FileMetaData -> MapElementIterator.InnerIterator)
           (f : FileMetaData)
  : list (InternalKey * MapElementIterator.MapValue) :=
  if is_map (purpose f)
  then map (fun kv => (fst kv, MapElementIterator.TableValue (snd kv)))
           (MapElementIterator.inner_entries (create_iter f))
  else [(largest f, MapElementIterator.ElementValue (file_element f))].

(** A file the iterator can enter: a data table, or a map table whose
    iterator is in order and has an entry. *)
Definition enterable (create_iter : FileMetaData -> MapElementIterator.InnerIterator)
           (f : FileMetaData) : Prop :=
  is_map (purpose f) = true ->
  ok (MapElementIterator.inner_status (create_iter f)) = true /\
  MapElementIterator.inner_entries (create_iter f) <> [].

(** A map table whose iterator reports an error. *)
Definition failing (create_iter : FileMetaData -> MapElementIterator.InnerIterator)
           (f : FileMetaData) : Prop :=
  is_map (purpose f) = true /\
  ok (MapElementIterator.inner_status (create_iter f)) = false.

(** The loop [for (it.SeekToFirst(); it.Valid(); it.Next())] from a
    positioned iterator on: the keys and values met, and the iterator at
    the end. *)
Fixpoint collect (fuel : nat) (meta_array : list FileMetaData)
         (create_iter : FileMetaData -> MapElementIterator.InnerIterator)
         (st : MapElementIterator.State)
         (acc : list (InternalKey * MapElementIterator.MapValue))
  : option (list (InternalKey * MapElementIterator.MapValue)
            * MapElementIterator.State) :=
  match fuel with
  | O => Some (acc, st)
  | S fuel' =>
      if MapElementIterator.Valid meta_array st then
        st' <- MapElementIterator.Next meta_array create_iter st ;;
        collect fuel' meta_array create_iter st'
                (acc ++ [(MapElementIterator.key_slice st,
                          MapElementIterator.value_slice st)])
      else Some (acc, st)
  end.

(** The state of the iterator on the entry [k] of the file [f] at
    index [i]. *)
Definition state_at (create_iter : FileMetaData -> MapElementIterator.InnerIterator)
           (i k : nat) (f : FileMetaData) : MapElementIterator.State :=
  if is_map (purpose f) then
    let kv := nth k (MapElementIterator.inner_entries (create_iter f))
                  (empty_key, mkLazy StatusOK []) in
    MapElementIterator.mkState
      i (Some (MapElementIterator.move (create_iter f) (Some k)))
      (fst kv) (MapElementIterator.TableValue (snd kv))
  else
    MapElementIterator.mkState
      i None (largest f) (MapElementIterator.ElementValue (file_element f)).

(** ** The table cache over a lookup *)

(** The cache [tc'] comes from [tc] by insertions and the evictions they
    bring: the environment is the same, and every reader found in [tc']
    was found in [tc] or is the reader [GetTableReader] opens, with
    status OK, for that file. *)
Definition cache_from (tc tc' : TableCache) : Prop :=
  GetTableReader tc' = GetTableReader tc /\
  Insert tc' = Insert tc /\
  Evicts tc' = Evicts tc /\
  row_cache tc' = row_cache tc /\
  forall n t, Lookup (cache_ tc') n = Some t ->
              Lookup (cache_ tc) n = Some t \/
              exists s, GetTableReader tc n = (s, t) /\ ok s = true.


(** [create_new_table_reader] of [NewIterator]. *)
Definition creates_reader (options : IteratorOptions) : bool :=
  if for_compaction options then new_table_reader_for_compaction_inputs options
  else readahead_size options >? 0.

End ProofDefinitions.

(** ** Definitions for the examples *)

Section ExampleData.

#[local] Existing Instance every_type.

(** *** Partitions *)

Definition link1 : LinkTarget := mkLink 1 0.

Definition link2 : LinkTarget := mkLink 2 0.

(** Scenario S2: [[a@10, m@5]] and [[g@8, z@3]]. *)
Definition s2_a : list RangeWithDepend :=
  [mkRange (mkIKey 1 10) (mkIKey 13 5) true true false false [link1]].

Definition s2_b : list RangeWithDepend :=
  [mkRange (mkIKey 7 8) (mkIKey 26 3) true true false false [link2]].

(** The range [[g@8, z@3]] to delete: a range to delete carries no
    links. *)
Definition s2_d : list RangeWithDepend :=
  [mkRange (mkIKey 7 8) (mkIKey 26 3) true true false false []].

(** The footer [(kMaxSequenceNumber, kTypeDeletion)]. *)
Definition max_footer : Z := PackSequenceAndType kMaxSequenceNumber kTypeDeletion.

(** A data table ending on the sentinel key of user key 9, and a range
    decoded from a map element that ends just before that key. *)
Definition c1_a : list RangeWithDepend :=
  [mkRange (mkIKey 1 5) (mkIKey 9 max_footer) true true false false [link1]].

Definition c1_b : list RangeWithDepend :=
  [mkRange (mkIKey 2 5) (mkIKey 9 max_footer) true false false true [link2]].

(** A stable range and a range inside it. *)
Definition c3_a : list RangeWithDepend :=
  [mkRange (mkIKey 1 10) (mkIKey 13 5) true true false true [link1]].

Definition c3_b : list RangeWithDepend :=
  [mkRange (mkIKey 3 10) (mkIKey 5 5) true true false true [link2]].

(** Two stable ranges apart from each other: both come out as they
    went in, stable. *)
Definition s3_a : list RangeWithDepend :=
  [mkRange (mkIKey 1 10) (mkIKey 3 5) true true false true [link1]].

Definition s3_b : list RangeWithDepend :=
  [mkRange (mkIKey 7 8) (mkIKey 9 3) true true false true [link2]].

(** *** Tables, files and caches *)

Definition c5_table : CachedTable := mkTable StatusOK [] (fun _ => 0) 0.

Definition c5_cache : IteratorCache := mkCache (fun _ => c5_table) (fun _ => None).

(** A data table whose largest key carries the footer
    [(kMaxSequenceNumber, kValueTypeForSeek)]. *)
Definition c5_file : FileMetaData :=
  mkFile 7 0 100 1 9 None (mkIKey 1 (PackSequenceAndType 5 1))
         (mkIKey 9 (PackSequenceAndType kMaxSequenceNumber kValueTypeForSeek))
         kEssenceSst false.

(** File 7 holds two keys, both before the range below. *)
Definition c6_table : CachedTable :=
  mkTable StatusOK
          [mkEntry (mkIKey 1 5) StatusOK None; mkEntry (mkIKey 2 5) StatusOK None]
          (fun k => 10 * user_key k) 0.

Definition c6_cache : IteratorCache :=
  mkCache (fun _ => c6_table) (fun _ => None).

(** An unstable range over [[5@10, 9@5]] whose link to file 7 still
    carries the size 100 of the map element it was split from. *)
Definition c6_range : RangeWithDepend :=
  mkRange (mkIKey 5 10) (mkIKey 9 5) true true false false [mkLink 7 100].

(** A map table, file 5, with one stable element over [[1@10, 9@5]]
    linked to the data table 7, which spans more than the element. *)
Definition c7_element : MapSstElement :=
  mkElement (mkIKey 1 10) (mkIKey 9 5) true true false [mkLink 7 100].

Definition c7_map_file : FileMetaData :=
  mkFile 5 0 10 1 20 None (mkIKey 1 10) (mkIKey 9 5) kMapSst false.

Definition c7_data_file : FileMetaData :=
  mkFile 7 0 100 1 20 None (mkIKey 0 10) (mkIKey 12 5) kEssenceSst false.

Definition c7_cache : IteratorCache :=
  mkCache (fun n => if n =? 5
                    then mkTable StatusOK
                                 [mkEntry (mkIKey 9 5) StatusOK (Some c7_element)]
                                 (fun _ => 0) 0
                    else mkTable StatusOK [] (fun _ => 0) 0)
          (fun n => if n =? 7 then Some c7_data_file else None).

Definition c7_env : Env :=
  mkEnv (fun _ => StatusOK) StatusOK StatusOK StatusOK false 64 None (fun n => n).

(** Table 7 holds a record for every query; table 8 holds none. *)
Definition reader7 : TableReader :=
  mkReader (fun _ _ _ => (StatusOK, (GetContext_kFound, [42]))) [] (fun _ => 0) 0.

Definition reader8 : TableReader :=
  mkReader (fun _ _ st => (StatusOK, st)) [] (fun _ => 0) 0.

(** The map table 5 has one element, [[5@100, 5@50]] with both ends
    inclusive; [links] are the file numbers it names. *)
Definition element_value (links : list Z) : LazySlice :=
  mkLazy StatusOK
         (FVarint 3 :: FVarint (Z.of_nat (length links))
            :: FSlice (mkIKey 5 100) :: map FVarint links).

Definition map_reader (links : list Z) : TableReader :=
  mkReader (fun _ _ st => (StatusOK, st))
           [(mkIKey 5 50, element_value links)]
           (fun _ => 0) 0.

Definition file5 : FileMetaData :=
  mkFile 5 0 10 1 200 None (mkIKey 5 100) (mkIKey 5 50) kMapSst false.

Definition file7 : FileMetaData :=
  mkFile 7 0 10 1 200 None (mkIKey 1 100) (mkIKey 9 1) kEssenceSst false.

Definition file8 : FileMetaData :=
  mkFile 8 0 10 1 200 None (mkIKey 1 100) (mkIKey 9 1) kEssenceSst false.

(** A table cache that is empty and evicts nothing, over an environment
    that opens the three tables. *)
Definition cold_cache (links : list Z) (rc : option RowCache) : TableCache :=
  mkTableCache []
               (fun n => if n =? 5 then (StatusOK, map_reader links)
                         else if n =? 7 then (StatusOK, reader7)
                         else (StatusOK, reader8))
               StatusOK (fun _ _ _ => false) rc.

Definition query : InternalKey := mkIKey 5 80.

Definition fresh_context : GetContext :=
  mkCtx GetContext_kNotFound [] 0 false false.

(** A map table with two elements on user key 5, [[5@100, 5@80]] over
    table 8 and [[5@79, 5@50]] over the absent table 9, its reader
    inlined in the descriptor. *)
Definition element_from (smallest_key : InternalKey) (links : list Z)
  : LazySlice :=
  mkLazy StatusOK
         (FVarint 3 :: FVarint (Z.of_nat (length links))
            :: FSlice smallest_key :: map FVarint links).

Definition two_elements : TableReader :=
  mkReader (fun _ _ st => (StatusOK, st))
           [(mkIKey 5 80, element_from (mkIKey 5 100) [8]);
            (mkIKey 5 50, element_from (mkIKey 5 79) [9])]
           (fun _ => 0) 0.

Definition file6 : FileMetaData :=
  mkFile 6 0 10 1 200 (Some two_elements) (mkIKey 5 100) (mkIKey 5 50)
         kMapSst false.

(** A row cache holding the record of table 7 for the query. *)
Definition warm_row_cache : RowCache :=
  mkRowCache (fun n k => if n =? 7 then Some (GetContext_kFound, [42]) else None)
             StatusOK.

(** *** More tables and iterators *)

(** A map table whose second entry does not decode. *)
Definition torn_cache : IteratorCache :=
  mkCache (fun _ => mkTable StatusOK
                            [mkEntry (mkIKey 9 5) StatusOK (Some c7_element);
                             mkEntry (mkIKey 12 5) StatusOK None]
                            (fun _ => 0) 0)
          (fun _ => None).

(** A cache whose iterators all report a corruption. *)
Definition broken_cache : IteratorCache :=
  mkCache (fun _ => mkTable (Corruption "bad block") [] (fun _ => 0) 0)
          (fun _ => None).

(** The iterator a map table is opened with: one entry, or an error. *)
Definition one_entry (f : FileMetaData) : MapElementIterator.InnerIterator :=
  MapElementIterator.mkInner StatusOK [(mkIKey 5 50, element_value [7])] None.

Definition no_entry (f : FileMetaData) : MapElementIterator.InnerIterator :=
  MapElementIterator.mkInner (Corruption "bad block") [] None.

Definition plain_options : IteratorOptions :=
  mkIterOptions kReadAllTier 0 false false false 0.

(** A cache that holds table 8 and, being full, evicts every other
    entry when one is inserted. *)
Definition full_cache : TableCache :=
  mkTableCache [(8, reader8)] (GetTableReader (cold_cache [] None)) StatusOK
               (fun _ _ _ => true) None.



End ExampleData.

(* ===================================================================== *)
(** * Theorems *)
(* ===================================================================== *)

(* ===================================================================== *)
(** * The key order and cuts *)
(* ===================================================================== *)

Lemma Compare_cases a b :
  (klt a b /\ Compare a b = -1) \/
  (keq a b /\ Compare a b = 0) \/
  (klt b a /\ Compare a b = 1).
Proof.
  unfold klt, keq, Compare, user_Compare.
  destruct (Z.compare_spec (user_key a) (user_key b)) as [E|E|E]; simpl.
  - destruct (Z.gtb_spec (footer a) (footer b)).
    + left; lia.
    + destruct (Z.ltb_spec (footer a) (footer b)).
      * right; right; lia.
      * right; left; lia.
  - left; lia.
  - right; right; lia.
Qed.

Lemma keq_eq a b : keq a b -> a = b.
Proof. destruct a, b; unfold keq; simpl; intros [-> ->]; reflexivity. Qed.

Ltac order := unfold cle, clt, klt, keq, before, after in *; simpl fst in *; simpl snd in *; lia.

Lemma cle_refl c : cle c c.
Proof. order. Qed.

Lemma cle_trans c d e : cle c d -> cle d e -> cle c e.
Proof. order. Qed.

Lemma clt_cle c d : clt c d -> cle c d.
Proof. order. Qed.

Lemma cle_total c d : cle c d \/ clt d c.
Proof. order. Qed.

Lemma cle_antisym c d : cle c d -> cle d c -> c = d.
Proof.
  destruct c as [k s], d as [k' s']; intros H1 H2.
  assert (keq k k') by order. assert (s = s') by order.
  f_equal; auto using keq_eq.
Qed.

Lemma lc_neg k i : lc k (negb i) = rc k i.
Proof. destruct i; reflexivity. Qed.

Lemma rc_neg k i : rc k (negb i) = lc k i.
Proof. destruct i; reflexivity. Qed.

Lemma ecut_point r i : ecut r i = if i then rc (point r i) (include r i) else lc (point r i) (include r i).
Proof. destruct i; reflexivity. Qed.

Ltac cmp a b :=
  let H := fresh "Hc" in let E := fresh "Ec" in
  destruct (Compare_cases a b) as [[H E]|[[H E]|[H E]]]; rewrite ?E in *; simpl in *.

Lemma covers_spec r x :
  covers r x = true <-> cle (lcut r) (before x) /\ cle (after x) (rcut r).
Proof.
  unfold covers, lcut, rcut, lc, rc.
  cmp (point0 r) x; cmp x (point1 r); destruct (include0 r), (include1 r); simpl;
    split; intros; try discriminate; try reflexivity; order.
Qed.

Lemma valid_range_spec r : valid_range r = true <-> cle (lcut r) (rcut r).
Proof.
  unfold valid_range, lcut, rcut, lc, rc.
  cmp (point0 r) (point1 r); destruct (include0 r), (include1 r); simpl;
    split; intros; try discriminate; try reflexivity; order.
Qed.

Lemma nonempty_range_spec r : nonempty_range r = true <-> clt (lcut r) (rcut r).
Proof.
  unfold nonempty_range, lcut, rcut, lc, rc.
  cmp (point0 r) (point1 r); destruct (include0 r), (include1 r); simpl;
    split; intros; try discriminate; try reflexivity; order.
Qed.

Lemma ends_before_spec r1 r2 : ends_before r1 r2 = true <-> cle (rcut r1) (lcut r2).
Proof.
  unfold ends_before, lcut, rcut, lc, rc.
  cmp (point1 r1) (point0 r2); destruct (include1 r1), (include0 r2); simpl;
    split; intros; try discriminate; try reflexivity; order.
Qed.

Lemma upper_le_spec r1 r2 :
  upper_le r1 r2 = true <-> ~ klt (point1 r2) (point1 r1).
Proof.
  unfold upper_le. cmp (point1 r1) (point1 r2); split; intros; try discriminate; try reflexivity; try order;
    try (exfalso; order).
Qed.

Lemma within_spec o r :
  within o r = true <-> cle (lcut r) (lcut o) /\ cle (rcut o) (rcut r).
Proof.
  unfold within, lower_within, upper_within, lcut, rcut, lc, rc.
  cmp (point0 r) (point0 o); cmp (point1 o) (point1 r);
    destruct (include0 r), (include0 o), (include1 r), (include1 o); simpl;
    split; intros; try discriminate; try reflexivity; order.
Qed.

(** [CompInclude] orders endpoints by their cut and, on one cut, left
    bounds before right bounds. *)
Lemma CompInclude_spec a b ab bb :
  let c := CompInclude (Compare (point a ab) (point b bb))
                       ab (include a ab) bb (include b bb) in
  (c < 0 -> cle (ecut a ab) (ecut b bb)) /\
  (c > 0 -> cle (ecut b bb) (ecut a ab)) /\
  (c = 0 -> ecut a ab = ecut b bb /\ ab = bb).
Proof.
  intros c; subst c. unfold CompInclude.
  cmp (point a ab) (point b bb).
  - repeat split; intros; try lia. rewrite !ecut_point. destruct ab, bb; unfold lc, rc; cbn [point include] in *; order.
  - apply keq_eq in Hc.
    rewrite !ecut_point, Hc.
    destruct ab, bb; cbn [point include] in *;
      destruct (include1 a), (include1 b), (include0 a), (include0 b);
      simpl; unfold lc, rc;
      repeat split; intros; try lia; try reflexivity; try order.
  - repeat split; intros; try lia. rewrite !ecut_point. destruct ab, bb; unfold lc, rc; cbn [point include] in *; order.
Qed.

Section Partitioner.

Context {value_types : ValueTypes}.

(* ===================================================================== *)
(** * The sweep invariant of the partitioner *)
(* ===================================================================== *)

Lemma forallb_nth {X} (f : X -> bool) l :
  forallb f l = true <-> forall i r, nth_error l i = Some r -> f r = true.
Proof.
  rewrite forallb_forall. split; intros H.
  - intros i r Hn. apply H. eapply nth_error_In; eauto.
  - intros r Hin. apply In_nth_error in Hin. destruct Hin as [i Hi]. eauto.
Qed.

Lemma pairwise_nth rel l :
  pairwise rel l = true <->
  forall i j ri rj, (i < j)%nat -> nth_error l i = Some ri ->
                    nth_error l j = Some rj -> rel ri rj = true.
Proof.
  induction l as [|r l IH]; simpl.
  - split; auto. intros _ i j ri rj _ Hi. destruct i; discriminate.
  - rewrite andb_true_iff, IH, forallb_nth. split.
    + intros [H1 H2] i j ri rj Hij Hi Hj.
      destruct j as [|j]; [lia|]. destruct i as [|i]; simpl in *.
      * inversion Hi; subst. eauto.
      * eapply H2; [|eassumption|eassumption]. lia.
    + intros H. split.
      * intros i r' Hi. apply (H 0%nat (S i) r r'); auto. lia.
      * intros i j ri rj Hij Hi Hj. apply (H (S i) (S j) ri rj); auto. lia.
Qed.

Lemma sorted_ranges_WF l : sorted_ranges l = true <-> WF l.
Proof.
  unfold sorted_ranges, non_overlapping, WF.
  rewrite andb_true_iff, forallb_nth, pairwise_nth. split; intros [H1 H2]; split.
  - intros i r Hi. apply valid_range_spec. eauto.
  - intros i j ri rj Hij Hi Hj. apply ends_before_spec. eauto.
  - intros i r Hi. apply valid_range_spec. eauto.
  - intros i j ri rj Hij Hi Hj. apply ends_before_spec. eauto.
Qed.

Lemma side_next_le l i b F r :
  SideInv l i b F -> nth_error l i = Some r -> cle F (ecut r b).
Proof.
  intros (_ & H & _) Hr. specialize (H r Hr). destruct b; simpl; tauto.
Qed.

Lemma side_region l i b F E :
  WF l -> SideInv l i b F -> cle F E ->
  (forall r, nth_error l i = Some r -> cle E (ecut r b)) ->
  region l F E (cur l i b).
Proof.
  intros [Hv Ho] (Hd & Hc & Hb & Hlen) HFE HE.
  unfold cur. destruct b.
  - destruct (nth_error l i) as [r|] eqn:Hr.
    + simpl. split; [eapply nth_error_In; eauto|].
      specialize (Hc r eq_refl). specialize (HE r eq_refl). simpl in HE.
      split; tauto.
    + apply nth_error_None in Hr. specialize (Hb eq_refl). lia.
  - simpl. intros r Hin. apply In_nth_error in Hin. destruct Hin as [j Hj].
    destruct (Nat.lt_trichotomy j i) as [Hlt|[->|Hgt]].
    + left. eauto.
    + right. apply (HE r Hj).
    + right. destruct (nth_error l i) as [ri|] eqn:Hri.
      * specialize (HE ri eq_refl). simpl in HE.
        pose proof (Hv i ri Hri). pose proof (Ho i j ri r Hgt Hri Hj).
        eauto using cle_trans.
      * apply nth_error_None in Hri.
        assert (nth_error l j <> None) by congruence.
        apply nth_error_Some in H. lia.
Qed.

Lemma side_advance l i b F r :
  WF l -> SideInv l i b F -> nth_error l i = Some r ->
  SideInv l (if b then S i else i) (negb b) (ecut r b).
Proof.
  intros [Hv Ho] (Hd & Hc & Hb & Hlen) Hr.
  pose proof (Hc r Hr) as Hc'.
  assert (Hi : (i < length l)%nat) by (apply nth_error_Some; congruence).
  destruct b; simpl in *.
  - split; [|split; [|split]]; try lia; try discriminate.
    + intros j rj Hj Hrj.
      destruct (Nat.eq_dec j i) as [->|Hne].
      * replace rj with r by congruence. apply cle_refl.
      * eapply cle_trans; [eapply Hd; [|eassumption]; lia|tauto].
    + intros r' Hr'. apply (Ho i (S i) r r'); auto.
  - split; [|split; [|split]]; try lia.
    + intros j rj Hj Hrj. eapply cle_trans; [eapply Hd; eassumption|assumption].
    + intros r' Hr'. replace r' with r by congruence. split; [apply cle_refl|eauto].
Qed.

Lemma side_stay l i b F E :
  SideInv l i b F -> cle F E ->
  (forall r, nth_error l i = Some r -> cle E (ecut r b)) ->
  SideInv l i b E.
Proof.
  intros (Hd & Hc & Hb & Hlen) HFE HE. split; [|split; [|split]]; auto.
  - intros j r Hj Hr. eapply cle_trans; [eapply Hd; eassumption|assumption].
  - intros r Hr. specialize (Hc r Hr). specialize (HE r Hr).
    destruct b; simpl in *; [split|]; try tauto.
    eapply cle_trans; [apply Hc|assumption].
Qed.

Lemma rc_lc_eq k k' i i' :
  rc k i = lc k' i' <-> Compare k k' = 0 /\ xorb i i' = true.
Proof.
  unfold rc, lc. split.
  - intros H. inversion H; subst.
    split; [cmp k' k'; try reflexivity; exfalso; order|].
    destruct i, i'; try reflexivity; discriminate.
  - intros [H1 H2]. cmp k k'; try discriminate.
    apply keq_eq in Hc. subst k'.
    destruct i, i'; try discriminate; reflexivity.
Qed.

Lemma lc_rc_eq k k' i i' :
  lc k i = rc k' i' <-> Compare k k' = 0 /\ xorb i i' = true.
Proof.
  unfold rc, lc. split.
  - intros H. inversion H; subst.
    split; [cmp k' k'; try reflexivity; exfalso; order|].
    destruct i, i'; try reflexivity; discriminate.
  - intros [H1 H2]. cmp k k'; try discriminate.
    apply keq_eq in Hc. subst k'.
    destruct i, i'; try discriminate; reflexivity.
Qed.

Lemma touching_spec b r :
  touching b r = false <-> rcut b <> lcut r /\ lcut b <> rcut r.
Proof.
  unfold touching, lcut, rcut.
  rewrite rc_lc_eq, lc_rc_eq, orb_false_iff, !andb_false_iff.
  split.
  - intros [H1 H2]. split; intros [E1 E2].
    + rewrite E1, E2 in H1. destruct H1; discriminate.
    + rewrite E1, E2 in H2. destruct H2; discriminate.
  - intros [H1 H2]. split.
    + destruct (Compare (point1 b) (point0 r) =? 0) eqn:E; [|left; reflexivity].
      right. destruct (xorb (include1 b) (include0 r)) eqn:X; [|reflexivity].
      exfalso. apply H1. apply Z.eqb_eq in E. auto.
    + destruct (Compare (point0 b) (point1 r) =? 0) eqn:E; [|left; reflexivity].
      right. destruct (xorb (include0 b) (include1 r)) eqn:X; [|reflexivity].
      exfalso. apply H2. apply Z.eqb_eq in E. auto.
Qed.

Lemma untouched_forallb l r :
  forallb (fun b => negb (touching b r)) l = true -> untouched l r.
Proof.
  rewrite forallb_forall. intros H b Hin. apply touching_spec.
  apply negb_true_iff. apply H. exact Hin.
Qed.

(** A range of [l] ends where [b] begins. *)
Lemma touch_after l a b :
  In a l -> point0 b = point1 a -> include0 b = negb (include1 a) ->
  untouched l b -> False.
Proof.
  intros Hin E1 E2 H. destruct (H a Hin) as [H1 _]. apply H1.
  unfold lcut, rcut. rewrite E1, E2. symmetry. apply lc_neg.
Qed.

(** A range of [l] begins where [a] ends. *)
Lemma touch_before l a b :
  In b l -> point1 a = point0 b -> include1 a = negb (include0 b) ->
  untouched l a -> False.
Proof.
  intros Hin E1 E2 H. destruct (H b Hin) as [_ H1]. apply H1.
  unfold lcut, rcut. rewrite E1, E2. symmetry. apply rc_neg.
Qed.

Section Sweep.

Variables A B : list RangeWithDepend.
Variable ty : PartitionType.

Lemma put_open key incl src ca cb s :
  put_depend ty ca cb (put_left key incl src s)
  = Some (mkSweep (open_piece ty key incl ca cb :: output s) src).
Proof.
  unfold put_depend, put_left, open_piece, depend_fields; simpl.
  destruct ty, ca, cb; reflexivity.
Qed.

Lemma rchain_weaken F E l : cle F E -> rchain F l -> rchain E l.
Proof.
  destruct l; simpl; auto. intros H (H1 & H2 & H3).
  split; [eapply cle_trans; eauto|auto].
Qed.

Lemma coverage_In l x :
  coverage l x = true <-> exists r, In r l /\ covers r x = true.
Proof. unfold coverage. apply existsb_exists. Qed.

Lemma region_covers l F E c x :
  region l F E c -> cle F (before x) -> cle (after x) E ->
  (coverage l x = true <-> c <> None).
Proof.
  intros Hr HF HE. rewrite coverage_In. destruct c as [r|]; simpl in Hr.
  - destruct Hr as [Hin [H1 H2]]. split; [discriminate|]. intros _.
    exists r. split; auto. apply covers_spec. split; order.
  - split; [|congruence]. intros (r & Hin & Hc). exfalso.
    apply covers_spec in Hc. destruct (Hr r Hin); order.
Qed.

Lemma expected_region F E ca cb x :
  deps_ok A B ty ->
  region A F E ca -> region B F E cb ->
  cle F (before x) -> cle (after x) E ->
  expected_coverage ty A B x = true ->
  snd (depend_fields ty ca cb) <> [].
Proof.
  intros [DA DB] HA HB HF HE HU.
  pose proof (region_covers A F E ca x HA HF HE) as CA.
  pose proof (region_covers B F E cb x HB HF HE) as CB.
  unfold expected_coverage, depend_fields in *.
  destruct ty.
  - apply orb_true_iff in HU.
    destruct ca as [a|], cb as [b|]; simpl in *.
    + destruct HA as [Hin _]. intros Heq. apply app_eq_nil in Heq. apply (DA a Hin), Heq.
    + destruct HA as [Hin _]. apply (DA a Hin).
    + destruct HB as [Hin _]. apply (DB eq_refl b Hin).
    + exfalso. destruct HU as [HU|HU]; [apply CA in HU|apply CB in HU]; congruence.
  - apply andb_true_iff in HU. destruct HU as [HU1 HU2].
    apply negb_true_iff in HU2.
    destruct ca as [a|], cb as [b|]; simpl in *.
    + exfalso. assert (coverage B x = true) by (apply CB; discriminate). congruence.
    + destruct HA as [Hin _]. apply (DA a Hin).
    + exfalso. apply CA in HU1; congruence.
    + exfalso. apply CA in HU1; congruence.
Qed.

(** A range dropped as an empty map element holds only keys with the
    maximal sequence number, on the user key of its upper endpoint. *)
Lemma empty_element_sentinel o x r i :
  IsEmptyMapSstElement o = true -> covers o x = true -> key_in_range x ->
  In r (A ++ B) -> point1 o = point r i ->
  sentinel A B x.
Proof.
  unfold IsEmptyMapSstElement, key_in_range.
  destruct (negb (Nat.eqb _ _)); [discriminate|].
  destruct (negb (_ =? 0)) eqn:Hu; [discriminate|].
  unfold ParseInternalKey.
  destruct (IsValueType _); [|discriminate]. cbn [pik_sequence].
  intros Hs Hc [Hx0 Hx1] Hin Hp.
  apply negb_false_iff, Z.eqb_eq in Hu. apply Z.eqb_eq in Hs.
  change (Z.shiftr (footer (point1 o)) 8)
    with (GetInternalKeySeqno (point1 o)) in Hs.
  unfold user_Compare in Hu.
  destruct (Z.compare_spec (user_key (point0 o)) (user_key (point1 o)));
    try discriminate.
  apply covers_spec in Hc. destruct Hc as [H1 H2].
  unfold lcut, rcut, lc, rc in *.
  assert (Hf : footer (point1 o) <= footer x)
    by (destruct (include0 o), (include1 o); order).
  assert (Hk : user_key (point1 o) = user_key x)
    by (destruct (include0 o), (include1 o); order).
  assert (Hx : GetInternalKeySeqno x = kMaxSequenceNumber).
  { unfold GetInternalKeySeqno in *.
    rewrite Z.shiftr_div_pow2 in * by lia.
    unfold kMaxSequenceNumber, kMaxUint64 in *.
    assert (footer (point1 o) / 2 ^ 8 <= footer x / 2 ^ 8)
      by (apply Z.div_le_mono; lia).
    assert (footer x / 2 ^ 8 <= (2 ^ 64 - 1) / 2 ^ 8)
      by (apply Z.div_le_mono; lia).
    change ((2 ^ 64 - 1) / 2 ^ 8) with (2 ^ 56 - 1) in *. lia. }
  unfold sentinel, on_sentinel.
  apply andb_true_iff. split; [apply Z.eqb_eq; exact Hx|].
  apply existsb_exists. exists r. split; [assumption|].
  rewrite Hp in Hk, Hs.
  apply Z.eqb_eq in Hk, Hs.
  destruct i; cbn [point] in Hk, Hs; rewrite Hk, Hs;
    rewrite ?orb_true_r; reflexivity.
Qed.

Lemma complete_step F E closed closed' :
  complete A B ty F closed -> cle F E ->
  (forall x, coverage closed x = true -> coverage closed' x = true) ->
  (deps_ok A B ty -> forall x, key_in_range x -> cle F (before x) -> cle (after x) E ->
              expected_coverage ty A B x = true ->
              coverage closed' x = true \/ sentinel A B x) ->
  complete A B ty E closed'.
Proof.
  intros HC HFE Hmono Hnew D x Hx HE HU.
  destruct (cle_total (after x) F) as [H|H].
  - destruct (HC D x Hx H HU); auto.
  - apply Hnew; auto. order.
Qed.

(** Closing the element under construction at the cut [E]. *)
Lemma put_right_inv F E key0 incl0 key incl ca cb src r closed :
  ClosedInv A B ty F closed ->
  F = lc key0 incl0 -> E = rc key incl -> cle F E ->
  region A F E ca -> region B F E cb ->
  (unstable src r = false ->
   exists r0, (ca = Some r0 \/ cb = Some r0) /\
              point0 r0 = key0 /\ include0 r0 = incl0 /\
              point1 r0 = key /\ include1 r0 = incl) ->
  (forall r0, lone A B ca cb r0 ->
              point0 r0 = key0 -> include0 r0 = incl0 ->
              point1 r0 = key -> include1 r0 = incl ->
              unstable src r = false) ->
  (exists re i, In re (A ++ B) /\ key = point re i) ->
  exists closed',
    put_right key incl r (mkSweep (open_piece ty key0 incl0 ca cb :: closed) src)
    = Some (mkSweep closed' src) /\
    ClosedInv A B ty E closed'.
Proof.
  intros (HR & HP & HC) HF HE HFE RA RB Hst Hlone (re & ie & Hre & Hkey).
  unfold put_right, open_piece. simpl output.
  destruct (depend_fields ty ca cb) as [[n s] d] eqn:Hdf. simpl.
  assert (Hd : snd (depend_fields ty ca cb) = d) by (rewrite Hdf; reflexivity).
  assert (Hcol : (Compare key key0 =? 0) && (negb incl0 || negb incl) = true ->
                 cle E F).
  { intros H. apply andb_true_iff in H. destruct H as [H1 H2].
    subst E F. cmp key key0; try discriminate.
    unfold lc, rc. destruct incl0, incl; try discriminate; order. }
  assert (Hncol : (Compare key key0 =? 0) && (negb incl0 || negb incl) = false ->
                  clt F E).
  { intros H. subst E F. unfold lc, rc in *.
    cmp key key0; destruct incl0, incl; simpl in *; try discriminate; order. }
  destruct ((match d with [] => true | _ :: _ => false end)
            || (Compare key key0 =? 0) && (negb incl0 || negb incl)) eqn:Hpop.
  - (* the element is popped: no links, or collapsed *)
    exists closed. split; [reflexivity|].
    split; [eapply rchain_weaken; eauto|]. split; [assumption|].
    apply (complete_step F E closed closed); auto.
    intros D x Hx H1 H2 HU. exfalso.
    apply orb_true_iff in Hpop. destruct Hpop as [Hpop|Hpop].
    + pose proof (expected_region F E ca cb x D RA RB H1 H2 HU) as Hne.
      rewrite Hd in Hne. destruct d; [congruence|discriminate].
    + apply Hcol in Hpop. order.
  - apply orb_false_iff in Hpop. destruct Hpop as [Hdne Hnc].
    apply Hncol in Hnc.
    assert (Hdne' : d <> []) by (destruct d; [discriminate|congruence]).
    set (o := set_point1 key incl (mkRange key0 empty_key incl0 false n s d)).
    assert (Hlo : lcut o = F) by (subst F; reflexivity).
    assert (Hro : rcut o = E) by (subst E; reflexivity).
    destruct (IsEmptyMapSstElement o) eqn:Hem.
    + (* dropped as an empty map element *)
      exists closed. split; [reflexivity|].
      split; [eapply rchain_weaken; eauto|]. split; [assumption|].
      apply (complete_step F E closed closed); auto.
      intros D x Hx H1 H2 HU. right.
      apply (empty_element_sentinel o x re ie); auto.
      apply covers_spec. rewrite Hlo, Hro. split; assumption.
    + (* kept *)
      exists ((if unstable src r then set_stable false o else o) :: closed).
      split; [destruct (unstable src r); reflexivity|].
      set (o' := if unstable src r then set_stable false o else o).
      assert (Hlo' : lcut o' = F) by (subst o'; destruct (unstable src r); assumption).
      assert (Hro' : rcut o' = E) by (subst o'; destruct (unstable src r); assumption).
      split; [|split].
      * simpl. rewrite Hlo', Hro'. split; [apply cle_refl|]. split; assumption.
      * constructor; [|assumption].
        split; [rewrite Hlo', Hro'; assumption|].
        split; [subst o'; destruct (unstable src r); assumption|].
        exists ca, cb. rewrite Hlo', Hro', Hdf.
        split; [assumption|]. split; [assumption|].
        split; [subst o'; destruct (unstable src r); reflexivity|].
        split; [subst o'; destruct (unstable src r); reflexivity|].
        split.
        { intros Hs. subst o'. destruct (unstable src r) eqn:Hu; [discriminate|].
          simpl in Hs. subst s.
          destruct (Hst eq_refl) as (r0 & Hr0 & E1 & E2 & E3 & E4).
          exists r0. unfold same_bounds. simpl.
          unfold depend_fields in Hdf.
          destruct ty, ca as [a|], cb as [b|]; destruct Hr0 as [Hr0|Hr0];
            try discriminate; inversion Hr0; subst; inversion Hdf; subst;
            try discriminate; auto 10. }
        { intros r0 Hl (E1 & E2 & E3 & E4).
          assert (Hu : unstable src r = false).
          { apply (Hlone r0 Hl); symmetry; subst o';
              destruct (unstable src r); assumption. }
          subst o'. rewrite Hu. reflexivity. }
      * apply (complete_step F E closed (o' :: closed)); auto.
        -- intros x Hx. simpl. rewrite Hx. apply orb_true_r.
        -- intros D x Hx H1 H2 HU. left. simpl.
           replace (covers o' x) with true; [reflexivity|].
           symmetry. apply covers_spec. rewrite Hlo', Hro'. split; assumption.
Qed.

(** With no element under construction nothing lies between [F] and
    [E]. *)
Lemma closed_advance F E closed :
  ClosedInv A B ty F closed -> cle F E ->
  region A F E None -> region B F E None ->
  ClosedInv A B ty E closed.
Proof.
  intros (HR & HP & HC) HFE RA RB.
  split; [eapply rchain_weaken; eauto|]. split; [assumption|].
  apply (complete_step F E closed closed); auto.
  intros D x Hx H1 H2 HU. exfalso.
  pose proof (region_covers A F E None x RA H1 H2) as CA.
  pose proof (region_covers B F E None x RB H1 H2) as CB.
  unfold expected_coverage in HU. destruct ty.
  - apply orb_true_iff in HU. destruct HU as [HU|HU]; [apply CA in HU|apply CB in HU]; congruence.
  - apply andb_true_iff in HU. destruct HU as [HU _]. apply CA in HU; congruence.
Qed.

Hypothesis WFA : WF A.
Hypothesis WFB : WF B.

Lemma side_has l i b F :
  SideInv l i b F -> b = true -> exists r, nth_error l i = Some r.
Proof.
  intros (_ & _ & Hb & _) Hbt. specialize (Hb Hbt).
  destruct (nth_error l i) eqn:E; eauto.
  apply nth_error_None in E. lia.
Qed.

Lemma lt_has (l : list RangeWithDepend) i :
  (i < length l)%nat -> exists r, nth_error l i = Some r.
Proof.
  intros H. destruct (nth_error l i) eqn:E; eauto.
  apply nth_error_None in E. lia.
Qed.

(** The comparison picks an endpoint that no pending endpoint
    precedes. *)
Lemma compare_bounds_spec ai bi ab bb F :
  SideInv A ai ab F -> SideInv B bi bb F ->
  (ai < length A \/ bi < length B)%nat ->
  exists c E,
    compare_bounds A B ai bi ab bb = Some c /\ cle F E /\
    (c <= 0 -> exists a, nth_error A ai = Some a /\ E = ecut a ab) /\
    (c >= 0 -> exists b, nth_error B bi = Some b /\ E = ecut b bb) /\
    (forall r, nth_error A ai = Some r -> cle E (ecut r ab)) /\
    (forall r, nth_error B bi = Some r -> cle E (ecut r bb)) /\
    (c = 0 -> ab = bb).
Proof.
  intros SA SB Hlt. unfold compare_bounds.
  destruct (Nat.ltb_spec ai (length A)) as [HA|HA];
    destruct (Nat.ltb_spec bi (length B)) as [HB|HB]; simpl.
  - destruct (lt_has A ai HA) as [a Ha]. destruct (lt_has B bi HB) as [b Hb].
    rewrite Ha, Hb. simpl.
    pose proof (CompInclude_spec a b ab bb) as Hs. cbv zeta in Hs.
    destruct Hs as (H1 & H2 & H3).
    set (c := CompInclude _ _ _ _ _) in *.
    pose proof (side_next_le A ai ab F a SA Ha) as La.
    pose proof (side_next_le B bi bb F b SB Hb) as Lb.
    destruct (Z.le_gt_cases c 0) as [Hc|Hc].
    + exists c, (ecut a ab). split; [reflexivity|]. split; [assumption|].
      split; [eauto|]. split.
      { intros Hge. assert (Hz : c = 0) by lia. destruct (H3 Hz) as [He _].
        exists b. split; [reflexivity|assumption]. }
      split.
      { intros r Hr. replace r with a by congruence. apply cle_refl. }
      split.
      { intros r Hr. replace r with b by congruence.
        destruct (Z.eq_dec c 0) as [Hz|Hz].
        - destruct (H3 Hz) as [He _]. rewrite He. apply cle_refl.
        - apply H1. lia. }
      intros Hz. apply (H3 Hz).
    + exists c, (ecut b bb). split; [reflexivity|]. split; [assumption|].
      split; [intros; lia|]. split; [eauto|]. split.
      { intros r Hr. replace r with a by congruence. apply H2. lia. }
      split.
      { intros r Hr. replace r with b by congruence. apply cle_refl. }
      intros; lia.
  - destruct (lt_has A ai HA) as [a Ha].
    exists (-1), (ecut a ab). split; [reflexivity|].
    split; [eapply side_next_le; eauto|].
    split; [eauto|]. split; [intros; lia|]. split.
    { intros r Hr. replace r with a by congruence. apply cle_refl. }
    split.
    { intros r Hr. assert (nth_error B bi <> None) by congruence.
      apply nth_error_Some in H. lia. }
    intros; lia.
  - destruct (lt_has B bi HB) as [b Hb].
    exists 1, (ecut b bb). split; [reflexivity|].
    split; [eapply side_next_le; eauto|].
    split; [intros; lia|]. split; [eauto|]. split.
    { intros r Hr. assert (nth_error A ai <> None) by congruence.
      apply nth_error_Some in H. lia. }
    split.
    { intros r Hr. replace r with b by congruence. apply cle_refl. }
    intros; lia.
  - lia.
Qed.

Lemma ptr_eqb_eq p q : ptr_eqb p q = true -> p = q.
Proof.
  destruct p as [[|] i], q as [[|] j]; unfold ptr_eqb; simpl;
    intros H; try discriminate; apply Nat.eqb_eq in H; congruence.
Qed.

Lemma unstable_false src q : unstable src (Some q) = false -> src = Some q.
Proof.
  destruct src as [p|]; simpl; [|discriminate].
  intros H. apply negb_false_iff, ptr_eqb_eq in H. congruence.
Qed.

(** Opening an element at the cut [E] once everything up to [E] is
    closed. *)
Lemma open_inv E closed key incl srcp st' :
  ClosedInv A B ty E closed -> E = lc key incl ->
  c_sweep st' = mkSweep (open_piece ty key incl (cur A (c_ai st') (c_ab st'))
                                    (cur B (c_bi st') (c_bb st')) :: closed)
                        srcp ->
  c_ab st' || c_bb st' = true ->
  SrcOK A B st' key incl ->
  SrcSet A B st' key incl ->
  OutInv A B ty E st'.
Proof.
  intros HC HE Hs Hb Hsrc Hset. unfold OutInv. rewrite Hb.
  exists key, incl, closed. rewrite Hs. auto.
Qed.

Lemma sides_step ai bi ab bb F c E :
  SideInv A ai ab F -> SideInv B bi bb F -> cle F E ->
  (c <= 0 -> exists a, nth_error A ai = Some a /\ E = ecut a ab) ->
  (c >= 0 -> exists b, nth_error B bi = Some b /\ E = ecut b bb) ->
  (forall r, nth_error A ai = Some r -> cle E (ecut r ab)) ->
  (forall r, nth_error B bi = Some r -> cle E (ecut r bb)) ->
  SideInv A (if ab && (c <=? 0) then S ai else ai) (xorb ab (c <=? 0)) E /\
  SideInv B (if bb && (c >=? 0) then S bi else bi) (xorb bb (c >=? 0)) E.
Proof.
  intros SA SB HFE Hca Hcb HEa HEb. split.
  - destruct (Z.leb_spec c 0) as [H|H].
    + destruct (Hca H) as (a & Ha & ->).
      pose proof (side_advance A ai ab F a WFA SA Ha) as H'.
      destruct ab; simpl in *; assumption.
    + rewrite andb_false_r, xorb_false_r. apply (side_stay A ai ab F E); auto.
  - rewrite Z.geb_leb. destruct (Z.leb_spec 0 c) as [H|H].
    + destruct (Hcb ltac:(lia)) as (b & Hb & ->).
      pose proof (side_advance B bi bb F b WFB SB Hb) as H'.
      destruct bb; simpl in *; assumption.
    + rewrite andb_false_r, xorb_false_r. apply (side_stay B bi bb F E); auto.
Qed.

Lemma endpoint_A a ai i :
  nth_error A ai = Some a ->
  exists re i', In re (A ++ B) /\ point a i = point re i'.
Proof.
  intros H. exists a, i. split; [|reflexivity].
  apply in_or_app. left. eapply nth_error_In; eauto.
Qed.

Lemma endpoint_B b bi i :
  nth_error B bi = Some b ->
  exists re i', In re (A ++ B) /\ point b i = point re i'.
Proof.
  intros H. exists b, i. split; [|reflexivity].
  apply in_or_app. right. eapply nth_error_In; eauto.
Qed.

Opaque put_depend put_left put_right open_piece.

Lemma stable_cond_A st key0 incl0 a cb :
  SrcOK A B st key0 incl0 -> c_ab st = true -> nth_error A (c_ai st) = Some a ->
  unstable (source (c_sweep st)) (Some (RangesA, c_ai st)) = false ->
  exists r0, (Some a = Some r0 \/ cb = Some r0) /\
             point0 r0 = key0 /\ include0 r0 = incl0 /\
             point1 r0 = point1 a /\ include1 r0 = include1 a.
Proof.
  intros Hsrc Hab Ha Hu. apply unstable_false in Hu.
  destruct (Hsrc _ Hu) as (r0 & E1 & E2 & _ & Hm). simpl in Hm.
  unfold cur in Hm. rewrite Hab, Ha in Hm. inversion Hm; subst.
  exists r0. auto.
Qed.

Lemma stable_cond_B st key0 incl0 b ca :
  SrcOK A B st key0 incl0 -> c_bb st = true -> nth_error B (c_bi st) = Some b ->
  unstable (source (c_sweep st)) (Some (RangesB, c_bi st)) = false ->
  exists r0, (ca = Some r0 \/ Some b = Some r0) /\
             point0 r0 = key0 /\ include0 r0 = incl0 /\
             point1 r0 = point1 b /\ include1 r0 = include1 b.
Proof.
  intros Hsrc Hbb Hb Hu. apply unstable_false in Hu.
  destruct (Hsrc _ Hu) as (r0 & E1 & E2 & _ & Hm). simpl in Hm.
  unfold cur in Hm. rewrite Hbb, Hb in Hm. inversion Hm; subst.
  exists r0. auto.
Qed.

Lemma stable_cond_null src (P : Prop) : unstable src None = false -> P.
Proof. destruct src; discriminate. Qed.

(** The other way round: closed by the endpoint of the one range the
    element lies inside of, an element that began where that range
    begins keeps its flag when nothing touches the range. *)
Lemma lone_cond_A st key0 incl0 a cb key incl :
  SrcSet A B st key0 incl0 -> c_ab st = true -> nth_error A (c_ai st) = Some a ->
  cur B (c_bi st) (c_bb st) = cb ->
  forall r0, lone A B (Some a) cb r0 ->
    point0 r0 = key0 -> include0 r0 = incl0 ->
    point1 r0 = key -> include1 r0 = incl ->
    unstable (source (c_sweep st)) (Some (RangesA, c_ai st)) = false.
Proof.
  intros [HA _] Hab Ha Hcb r0 [(E & Ecb & HU)|(E & _)] E1 E2 _ _;
    [|discriminate].
  inversion E; subst r0.
  rewrite (HA a); auto.
  - unfold unstable, ptr_eqb. simpl. rewrite Nat.eqb_refl. reflexivity.
  - unfold cur. rewrite Hab. exact Ha.
  - congruence.
Qed.

Lemma lone_cond_B st key0 incl0 b ca key incl :
  SrcSet A B st key0 incl0 -> c_bb st = true -> nth_error B (c_bi st) = Some b ->
  cur A (c_ai st) (c_ab st) = ca ->
  forall r0, lone A B ca (Some b) r0 ->
    point0 r0 = key0 -> include0 r0 = incl0 ->
    point1 r0 = key -> include1 r0 = incl ->
    unstable (source (c_sweep st)) (Some (RangesB, c_bi st)) = false.
Proof.
  intros [_ HB] Hbb Hb Hca r0 [(_ & E & _)|(Eca & E & HU)] E1 E2 _ _;
    [discriminate|].
  inversion E; subst r0.
  rewrite (HB b); auto.
  - unfold unstable, ptr_eqb. simpl. rewrite Nat.eqb_refl. reflexivity.
  - unfold cur. rewrite Hbb. exact Hb.
  - congruence.
Qed.

(** Closed where a range of the other vector begins, the element does
    not lie inside an untouched range with the same bounds; nor does
    one lying inside a range of each vector. *)
Lemma lone_cond_begin_B a b bi src key0 incl0 :
  nth_error B bi = Some b ->
  forall r0, lone A B (Some a) None r0 ->
    point0 r0 = key0 -> include0 r0 = incl0 ->
    point1 r0 = point0 b -> include1 r0 = negb (include0 b) ->
    unstable src None = false.
Proof.
  intros Hb r0 [(E & _ & HU)|(E & _)] _ _ E3 E4; [|discriminate].
  exfalso. apply (touch_before B r0 b); auto.
  eapply nth_error_In; eauto.
Qed.

Lemma lone_cond_begin_A a b ai src key0 incl0 :
  nth_error A ai = Some a ->
  forall r0, lone A B None (Some b) r0 ->
    point0 r0 = key0 -> include0 r0 = incl0 ->
    point1 r0 = point0 a -> include1 r0 = negb (include0 a) ->
    unstable src None = false.
Proof.
  intros Ha r0 [(E & _)|(_ & E & HU)] _ _ E3 E4; [discriminate|].
  exfalso. apply (touch_before A r0 a); auto.
  eapply nth_error_In; eauto.
Qed.

Lemma lone_cond_both a b src r key0 incl0 key incl :
  forall r0, lone A B (Some a) (Some b) r0 ->
    point0 r0 = key0 -> include0 r0 = incl0 ->
    point1 r0 = key -> include1 r0 = incl ->
    unstable src r = false.
Proof. intros r0 [(_ & E & _)|(E & _)]; discriminate. Qed.

Ltac finish_open E SA' SB' :=
  eexists; split; [reflexivity|]; split;
  [ exists E; simpl; split; [exact SA'|]; split; [exact SB'|]
  | unfold pos; simpl; lia ].

Ltac finish_closed E SA' SB' HCI' :=
  eexists; split; [reflexivity|]; split;
  [ exists E; simpl; split; [exact SA'|]; split; [exact SB'|]; exact HCI'
  | unfold pos; simpl; lia ].

Ltac src_ok r :=
  intros p Hp; simpl in Hp; inversion Hp; subst p; exists r; simpl;
  repeat split; auto.

Ltac src_set :=
  split; intros r0 H1 H2 E1 E2 HU; unfold cur in *; simpl in *;
  try discriminate; try reflexivity; try congruence.

Lemma sweep_step_inv st :
  Inv A B ty st -> (c_ai st < length A \/ c_bi st < length B)%nat ->
  exists st', sweep_step A B ty st = Some st' /\ Inv A B ty st' /\
              (pos st < pos st')%nat.
Proof.
  intros (F & SA & SB & HO) Hlt.
  destruct st as [ai bi ab bb [out src]]. simpl in *.
  destruct (compare_bounds_spec ai bi ab bb F SA SB Hlt)
    as (c & E & Hcb & HFE & Hca & Hcb' & HEa & HEb & Hz).
  pose proof (side_region A ai ab F E WFA SA HFE HEa) as RA.
  pose proof (side_region B bi bb F E WFB SB HFE HEb) as RB.
  destruct (sides_step ai bi ab bb F c E SA SB HFE Hca Hcb' HEa HEb) as [SA' SB'].
  unfold sweep_step. simpl. rewrite Hcb. simpl.
  unfold OutInv in HO. simpl in HO.
  assert (Hsplit : c < 0 \/ c = 0 \/ c > 0) by lia.
  destruct Hsplit as [Hc|[Hc|Hc]].
  - (* an endpoint of ranges_a alone *)
    destruct (Hca ltac:(lia)) as (a & Ha & HE).
    replace (c <=? 0) with true in * by (symmetry; apply Z.leb_le; lia).
    replace (c >=? 0) with false in * by (symmetry; rewrite Z.geb_leb; apply Z.leb_gt; lia).
    destruct ab, bb; simpl in *.
    + (* in ranges_a, in ranges_b, leave ranges_a *)
      destruct HO as (key0 & incl0 & closed & Hout & HF & HCI & Hsrc & Hset).
      subst out.
      destruct (side_has B bi true F SB eq_refl) as [b Hb].
      pose proof (stable_cond_A _ key0 incl0 a (Some b) Hsrc eq_refl Ha) as Hst.
      rewrite Ha, Hb in *. simpl in *.
      destruct (put_right_inv F E key0 incl0 (point1 a) (include1 a)
                  (Some a) (Some b) src (Some (RangesA, ai)) closed
                  HCI HF HE HFE RA RB Hst
                  (lone_cond_both a b src _ key0 incl0 _ _)
                  (endpoint_A a ai true Ha)) as (closed' & Hpr & HCI').
      rewrite Hpr. simpl. rewrite put_open. simpl.
      finish_open E SA' SB'.
      apply (open_inv E closed' (point1 a) (negb (include1 a)) None); simpl; auto.
      * rewrite lc_neg. exact HE.
      * rewrite Hb. reflexivity.
      * intros p Hp; discriminate.
      * src_set. exfalso. rewrite Hb in H1. inversion H1; subst r0.
        apply (touch_after A a b); auto. eapply nth_error_In; eauto.
    + (* in ranges_a, out ranges_b, leave ranges_a *)
      destruct HO as (key0 & incl0 & closed & Hout & HF & HCI & Hsrc & Hset).
      subst out.
      pose proof (stable_cond_A _ key0 incl0 a None Hsrc eq_refl Ha) as Hst.
      pose proof (lone_cond_A _ key0 incl0 a None (point1 a) (include1 a)
                              Hset eq_refl Ha eq_refl) as Hlone.
      rewrite Ha in *. simpl in *.
      destruct (put_right_inv F E key0 incl0 (point1 a) (include1 a)
                  (Some a) None src (Some (RangesA, ai)) closed
                  HCI HF HE HFE RA RB Hst Hlone
                  (endpoint_A a ai true Ha)) as (closed' & Hpr & HCI').
      rewrite Hpr. simpl.
      finish_closed E SA' SB' HCI'.
    + (* out ranges_a, in ranges_b, begin ranges_a *)
      destruct HO as (key0 & incl0 & closed & Hout & HF & HCI & Hsrc & Hset).
      subst out.
      destruct (side_has B bi true F SB eq_refl) as [b Hb].
      rewrite Ha, Hb in *. simpl in *.
      destruct (put_right_inv F E key0 incl0 (point0 a) (negb (include0 a))
                  None (Some b) src None closed
                  HCI HF ltac:(rewrite rc_neg; exact HE) HFE RA RB
                  (stable_cond_null src _)
                  (lone_cond_begin_A a b ai src key0 incl0 Ha)
                  (endpoint_A a ai false Ha)) as (closed' & Hpr & HCI').
      rewrite Hpr. simpl. rewrite put_open. simpl.
      finish_open E SA' SB'.
      apply (open_inv E closed' (point0 a) (include0 a) (Some (RangesA, ai)));
        simpl; auto.
      * rewrite Ha, Hb. reflexivity.
      * src_ok a.
      * src_set.
    + (* out ranges_a, out ranges_b, enter ranges_a *)
      rewrite Ha in *. simpl in *. rewrite put_open. simpl.
      finish_open E SA' SB'.
      apply (open_inv E out (point0 a) (include0 a) (Some (RangesA, ai)));
        simpl; auto.
      * apply (closed_advance F E); auto.
      * rewrite Ha. reflexivity.
      * src_ok a.
      * src_set.
  - (* both vectors have an endpoint on this cut *)
    destruct (Hca ltac:(lia)) as (a & Ha & HE).
    destruct (Hcb' ltac:(lia)) as (b & Hb & HE').
    specialize (Hz Hc). subst bb.
    replace (c <=? 0) with true in * by (symmetry; apply Z.leb_le; lia).
    replace (c >=? 0) with true in * by (symmetry; rewrite Z.geb_leb; apply Z.leb_le; lia).
    destruct ab; simpl in *.
    + (* leave both *)
      destruct HO as (key0 & incl0 & closed & Hout & HF & HCI & Hsrc & Hset).
      subst out.
      rewrite Ha, Hb in *. simpl in *.
      destruct (put_right_inv F E key0 incl0 (point1 a) (include1 a)
                  (Some a) (Some b) src None closed
                  HCI HF HE HFE RA RB
                  (stable_cond_null src _)
                  (lone_cond_both a b src _ key0 incl0 _ _)
                  (endpoint_A a ai true Ha)) as (closed' & Hpr & HCI').
      rewrite Hpr. simpl.
      finish_closed E SA' SB' HCI'.
    + (* enter both *)
      rewrite Ha, Hb in *. simpl in *. rewrite put_open. simpl.
      finish_open E SA' SB'.
      apply (open_inv E out (point0 a) (include0 a) None); simpl; auto.
      * apply (closed_advance F E); auto.
      * rewrite Ha, Hb. reflexivity.
      * intros p Hp; discriminate.
      * src_set.
  - (* an endpoint of ranges_b alone *)
    destruct (Hcb' ltac:(lia)) as (b & Hb & HE).
    replace (c <=? 0) with false in * by (symmetry; apply Z.leb_gt; lia).
    replace (c >=? 0) with true in * by (symmetry; rewrite Z.geb_leb; apply Z.leb_le; lia).
    destruct ab, bb; simpl in *.
    + (* in ranges_a, in ranges_b, leave ranges_b *)
      destruct HO as (key0 & incl0 & closed & Hout & HF & HCI & Hsrc & Hset).
      subst out.
      destruct (side_has A ai true F SA eq_refl) as [a Ha].
      pose proof (stable_cond_B _ key0 incl0 b (Some a) Hsrc eq_refl Hb) as Hst.
      rewrite Ha, Hb in *. simpl in *.
      destruct (put_right_inv F E key0 incl0 (point1 b) (include1 b)
                  (Some a) (Some b) src (Some (RangesB, bi)) closed
                  HCI HF HE HFE RA RB Hst
                  (lone_cond_both a b src _ key0 incl0 _ _)
                  (endpoint_B b bi true Hb)) as (closed' & Hpr & HCI').
      rewrite Hpr. simpl. rewrite put_open. simpl.
      finish_open E SA' SB'.
      apply (open_inv E closed' (point1 b) (negb (include1 b)) None); simpl; auto.
      * rewrite lc_neg. exact HE.
      * rewrite Ha. reflexivity.
      * intros p Hp; discriminate.
      * src_set. exfalso. rewrite Ha in H1. inversion H1; subst r0.
        apply (touch_after B b a); auto. eapply nth_error_In; eauto.
    + (* in ranges_a, out ranges_b, begin ranges_b *)
      destruct HO as (key0 & incl0 & closed & Hout & HF & HCI & Hsrc & Hset).
      subst out.
      destruct (side_has A ai true F SA eq_refl) as [a Ha].
      rewrite Ha, Hb in *. simpl in *.
      destruct (put_right_inv F E key0 incl0 (point0 b) (negb (include0 b))
                  (Some a) None src None closed
                  HCI HF ltac:(rewrite rc_neg; exact HE) HFE RA RB
                  (stable_cond_null src _)
                  (lone_cond_begin_B a b bi src key0 incl0 Hb)
                  (endpoint_B b bi false Hb)) as (closed' & Hpr & HCI').
      rewrite Hpr. simpl. rewrite put_open. simpl.
      finish_open E SA' SB'.
      apply (open_inv E closed' (point0 b) (include0 b) (Some (RangesB, bi)));
        simpl; auto.
      * rewrite Ha, Hb. reflexivity.
      * src_ok b.
      * src_set.
    + (* out ranges_a, in ranges_b, leave ranges_b *)
      destruct HO as (key0 & incl0 & closed & Hout & HF & HCI & Hsrc & Hset).
      subst out.
      pose proof (stable_cond_B _ key0 incl0 b None Hsrc eq_refl Hb) as Hst.
      pose proof (lone_cond_B _ key0 incl0 b None (point1 b) (include1 b)
                              Hset eq_refl Hb eq_refl) as Hlone.
      rewrite Hb in *. simpl in *.
      destruct (put_right_inv F E key0 incl0 (point1 b) (include1 b)
                  None (Some b) src (Some (RangesB, bi)) closed
                  HCI HF HE HFE RA RB Hst Hlone
                  (endpoint_B b bi true Hb)) as (closed' & Hpr & HCI').
      rewrite Hpr. simpl.
      finish_closed E SA' SB' HCI'.
    + (* out ranges_a, out ranges_b, enter ranges_b *)
      rewrite Hb in *. simpl in *. rewrite put_open. simpl.
      finish_open E SA' SB'.
      apply (open_inv E out (point0 b) (include0 b) (Some (RangesB, bi)));
        simpl; auto.
      * apply (closed_advance F E); auto.
      * rewrite Hb. reflexivity.
      * src_ok b.
      * src_set.
Qed.

Transparent put_depend put_left put_right open_piece.

Lemma lower_bound (l : list RangeWithDepend) :
  exists F, forall r, In r l -> cle F (lcut r).
Proof.
  induction l as [|r l [F HF]].
  - exists (before empty_key). intros r [].
  - destruct (cle_total F (lcut r)) as [H|H].
    + exists F. intros r' [<-|Hin]; auto.
    + exists (lcut r). intros r' [<-|Hin]; [apply cle_refl|].
      eapply cle_trans; [apply clt_cle; eassumption|auto].
Qed.

Lemma init_inv : Inv A B ty sweep_init.
Proof.
  destruct (lower_bound (A ++ B)) as [F HF].
  exists F. unfold sweep_init, OutInv; simpl.
  assert (S0 : forall l, (forall r, In r l -> cle F (lcut r)) -> SideInv l 0 false F).
  { intros l Hl. split; [|split; [|split]]; try lia; try discriminate.
    intros r Hr. apply Hl. eapply nth_error_In; eauto. }
  split; [apply S0; intros; apply HF, in_or_app; auto|].
  split; [apply S0; intros; apply HF, in_or_app; auto|].
  split; [exact I|]. split; [constructor|].
  intros D x Hx HE HU. exfalso.
  assert (Hn : forall l, (forall r, In r l -> cle F (lcut r)) -> coverage l x = false).
  { intros l Hl. destruct (coverage l x) eqn:Hc; [|reflexivity].
    apply coverage_In in Hc. destruct Hc as (r & Hin & Hc).
    apply covers_spec in Hc. specialize (Hl r Hin). exfalso. order. }
  unfold expected_coverage in HU.
  rewrite (Hn A), ?(Hn B) in HU by (intros; apply HF, in_or_app; auto).
  destruct ty; discriminate.
Qed.

Lemma pos_bound st :
  Inv A B ty st -> (pos st <= 2 * (length A + length B))%nat /\
            ((c_ai st < length A \/ c_bi st < length B)%nat ->
             (pos st < 2 * (length A + length B))%nat).
Proof.
  intros (F & (_ & _ & Ha & Hla) & (_ & _ & Hb & Hlb) & _). unfold pos.
  destruct (c_ab st), (c_bb st);
    try specialize (Ha eq_refl); try specialize (Hb eq_refl); lia.
Qed.

Lemma sweep_loop_inv fuel : forall st,
  Inv A B ty st -> (c_ai st < length A \/ c_bi st < length B)%nat ->
  (2 * (length A + length B) <= pos st + fuel)%nat ->
  exists st', sweep_loop A B ty fuel st = Some st' /\ Inv A B ty st' /\
              c_ai st' = length A /\ c_bi st' = length B /\
              c_ab st' = false /\ c_bb st' = false.
Proof.
  induction fuel as [|fuel IH]; intros st HI Hlt Hf.
  - destruct (pos_bound st HI) as [_ H]. specialize (H Hlt). lia.
  - destruct (sweep_step_inv st HI Hlt) as (st' & Hs & HI' & Hp).
    simpl. rewrite Hs. simpl.
    unfold sweep_continue.
    destruct (Nat.eqb_spec (c_ai st') (length A)) as [Ea|Ea];
      destruct (Nat.eqb_spec (c_bi st') (length B)) as [Eb|Eb]; simpl.
    + exists st'. split; [reflexivity|]. split; [assumption|].
      destruct HI' as (F & (_ & _ & Ha & _) & (_ & _ & Hb & _) & _).
      repeat split; auto.
      * destruct (c_ab st'); auto. specialize (Ha eq_refl). lia.
      * destruct (c_bb st'); auto. specialize (Hb eq_refl). lia.
    + apply IH; auto; [|lia].
      destruct HI' as (F & _ & (_ & _ & _ & Hb) & _). lia.
    + apply IH; auto; [|lia].
      destruct HI' as (F & (_ & _ & _ & Ha) & _ & _). lia.
    + apply IH; auto; [|lia].
      destruct HI' as (F & (_ & _ & _ & Ha) & _ & _). lia.
Qed.

(** The partitioner returns, and its output satisfies the closed
    invariant at a cut that every input range ends by. *)
Lemma partition_inv :
  A <> [] \/ B <> [] ->
  exists out F,
    PartitionRangeWithDepend A B ty = Some (rev out) /\
    ClosedInv A B ty F out /\
    (forall r, In r A -> cle (rcut r) F) /\
    (forall r, In r B -> cle (rcut r) F).
Proof.
  intros Hne.
  assert (Hlt : (c_ai sweep_init < length A \/ c_bi sweep_init < length B)%nat).
  { simpl. destruct Hne as [H|H]; [left|right];
      (destruct A, B; simpl; try congruence; lia). }
  destruct (sweep_loop_inv (sweep_fuel A B) sweep_init init_inv Hlt)
    as (st & Hl & (F & SA & SB & HO) & Ea & Eb & Eab & Ebb).
  { unfold sweep_fuel, pos; simpl. lia. }
  exists (output (c_sweep st)), F.
  unfold PartitionRangeWithDepend. rewrite Hl. simpl.
  split; [reflexivity|].
  unfold OutInv in HO. rewrite Eab, Ebb in HO. simpl in HO.
  split; [assumption|].
  split; intros r Hin; apply In_nth_error in Hin; destruct Hin as [j Hj].
  - destruct SA as (Hd & _). apply (Hd j r); auto.
    rewrite Ea. apply nth_error_Some. congruence.
  - destruct SB as (Hd & _). apply (Hd j r); auto.
    rewrite Eb. apply nth_error_Some. congruence.
Qed.

End Sweep.

(* ===================================================================== *)
(** * Consequences for the output vector *)
(* ===================================================================== *)

Lemma pairwise_app rel l1 l2 :
  pairwise rel (l1 ++ l2) = true <->
  pairwise rel l1 = true /\ pairwise rel l2 = true /\
  (forall x y, In x l1 -> In y l2 -> rel x y = true).
Proof.
  induction l1 as [|r l1 IH]; simpl.
  - split; [intros H; repeat split; auto; intros x y []|tauto].
  - rewrite !andb_true_iff, forallb_app, andb_true_iff, IH, !forallb_forall.
    split.
    + intros ((H1 & H2) & H3 & H4 & H5). repeat split; auto.
      intros x y [<-|Hx] Hy; auto.
    + intros ((H1 & H2) & H3 & H4). repeat split; auto.
Qed.

Lemma rchain_all hi l :
  rchain hi l ->
  forall o, In o l -> clt (lcut o) (rcut o) /\ cle (rcut o) hi.
Proof.
  revert hi. induction l as [|o' l IH]; simpl; intros hi H o Hin; [contradiction|].
  destruct H as (H1 & H2 & H3). destruct Hin as [<-|Hin]; [auto|].
  destruct (IH _ H3 o Hin) as [H4 H5]. split; [assumption|order].
Qed.

Lemma rchain_pairwise hi l (rel : RangeWithDepend -> RangeWithDepend -> bool) :
  (forall x y, clt (lcut y) (rcut y) -> cle (rcut x) (lcut y) -> rel x y = true) ->
  rchain hi l -> pairwise rel (rev l) = true.
Proof.
  intros Hrel. revert hi. induction l as [|o l IH]; simpl; intros hi H; [reflexivity|].
  destruct H as (H1 & H2 & H3).
  apply pairwise_app. split; [eauto|]. split; [reflexivity|].
  intros x y Hx [<-|[]]. apply in_rev in Hx.
  apply Hrel; [assumption|]. apply (rchain_all _ l H3 x Hx).
Qed.

(** Inside a well-formed vector a non-empty stretch lies within at most
    one range, the one the region names. *)
Lemma region_within l o c r :
  WF l -> clt (lcut o) (rcut o) -> region l (lcut o) (rcut o) c ->
  In r l -> within o r = true -> c = Some r.
Proof.
  intros [Hv Ho] Hne Hr Hin Hw. apply within_spec in Hw. destruct Hw as [W1 W2].
  destruct c as [r'|]; simpl in Hr.
  - destruct Hr as [Hin' [I1 I2]]. f_equal.
    apply In_nth_error in Hin. destruct Hin as [i Hi].
    apply In_nth_error in Hin'. destruct Hin' as [j Hj].
    destruct (Nat.lt_trichotomy i j) as [H|[H|H]].
    + pose proof (Ho i j r r' H Hi Hj). exfalso. order.
    + congruence.
    + pose proof (Ho j i r' r H Hj Hi). exfalso. order.
  - exfalso. destruct (Hr r Hin); order.
Qed.

Lemma region_not_within l o c :
  region l (lcut o) (rcut o) c ->
  (forall r, In r l -> within o r = false) -> c = None.
Proof.
  intros Hr Hn. destruct c as [r|]; [|reflexivity]. simpl in Hr.
  destruct Hr as [Hin [I1 I2]].
  assert (within o r = true) by (apply within_spec; split; assumption).
  rewrite (Hn r Hin) in H. discriminate.
Qed.

Lemma has_links_In l : has_links l = true -> forall r, In r l -> dependence r <> [].
Proof.
  unfold has_links. rewrite forallb_forall. intros H r Hin Hd.
  specialize (H r Hin). rewrite Hd in H. discriminate.
Qed.

Lemma coverage_rev l x : coverage (rev l) x = coverage l x.
Proof.
  destruct (coverage l x) eqn:E.
  - apply coverage_In in E. destruct E as (r & Hin & Hc).
    apply coverage_In. exists r. split; [apply in_rev; rewrite rev_involutive|]; auto.
  - destruct (coverage (rev l) x) eqn:E'; [|reflexivity].
    apply coverage_In in E'. destruct E' as (r & Hin & Hc).
    apply in_rev in Hin.
    assert (coverage l x = true) by (apply coverage_In; eauto). congruence.
Qed.

(** Every finished range lies where it should be covered. *)
Lemma piece_sound A B ty o x :
  piece_ok A B ty o -> covers o x = true -> expected_coverage ty A B x = true.
Proof.
  intros (Hne & Hd & ca & cb & RA & RB & _ & Hdep & _) Hc.
  apply covers_spec in Hc. destruct Hc as [H1 H2].
  pose proof (region_covers A _ _ ca x RA H1 H2) as CA.
  pose proof (region_covers B _ _ cb x RB H1 H2) as CB.
  rewrite Hdep in Hd. unfold expected_coverage, depend_fields in *.
  destruct ty, ca as [a|], cb as [b|]; simpl in Hd; try congruence.
  - rewrite (proj2 CA) by discriminate. reflexivity.
  - rewrite (proj2 CA) by discriminate. reflexivity.
  - rewrite (proj2 CB) by discriminate. apply orb_true_r.
  - rewrite (proj2 CA) by discriminate.
    destruct (coverage B x) eqn:E; [|reflexivity].
    exfalso. apply (proj1 CB eq_refl). reflexivity.
Qed.

(** C2.  For sorted, pairwise non-overlapping inputs the partitioner
    returns, in MERGE and in DELETE mode alike, a vector that is again
    sorted by upper endpoint and pairwise non-overlapping under the
    inclusive-aware comparison; none of its ranges is empty. *)
Theorem partition_preserves_order A B ty :
  sorted_ranges A = true -> sorted_ranges B = true ->
  A <> [] \/ B <> [] ->
  exists out,
    PartitionRangeWithDepend A B ty = Some out /\
    sorted_by_upper out = true /\
    non_overlapping out = true /\
    forallb nonempty_range out = true.
Proof.
  intros HA HB Hne.
  apply sorted_ranges_WF in HA. apply sorted_ranges_WF in HB.
  destruct (partition_inv A B ty HA HB Hne) as (out & F & Hp & (HR & _ & _) & _).
  exists (rev out). split; [assumption|]. split; [|split].
  - apply (rchain_pairwise F); [|assumption].
    intros x y Hy Hxy. apply upper_le_spec. unfold lcut, rcut, lc, rc in *.
    destruct (include0 y), (include1 y), (include1 x); order.
  - apply (rchain_pairwise F); [|assumption].
    intros x y _ Hxy. apply ends_before_spec. assumption.
  - apply forallb_forall. intros o Hin. apply in_rev in Hin.
    apply nonempty_range_spec. apply (rchain_all F out HR o Hin).
Qed.

(** C1 (amended).  For sorted, pairwise non-overlapping inputs whose
    ranges carry links, the output covers only keys of the union (MERGE)
    or of the difference (DELETE), and it covers every such key except,
    possibly, keys with the maximal sequence number on the user key of
    an input endpoint that has the maximal sequence number too: the
    ranges [put_right] drops as empty map elements hold no other key. *)
Theorem partition_coverage A B ty :
  sorted_ranges A = true -> sorted_ranges B = true ->
  has_links A = true -> (ty = kMerge -> has_links B = true) ->
  A <> [] \/ B <> [] ->
  exists out,
    PartitionRangeWithDepend A B ty = Some out /\
    forall x, key_in_range x ->
      (coverage out x = true -> expected_coverage ty A B x = true) /\
      (on_sentinel (A ++ B) x = false ->
       coverage out x = expected_coverage ty A B x).
Proof.
  intros HA HB LA LB Hne.
  apply sorted_ranges_WF in HA. apply sorted_ranges_WF in HB.
  destruct (partition_inv A B ty HA HB Hne) as (out & F & Hp & (HR & HP & HC) & FA & FB).
  exists (rev out). split; [assumption|].
  intros x Hx. rewrite coverage_rev.
  assert (Hsound : coverage out x = true -> expected_coverage ty A B x = true).
  { intros Hc. apply coverage_In in Hc. destruct Hc as (o & Hin & Hc).
    rewrite Forall_forall in HP. eapply piece_sound; eauto. }
  split; [assumption|].
  intros Hs. destruct (expected_coverage ty A B x) eqn:HU.
  - assert (D : deps_ok A B ty).
    { split; [apply has_links_In; assumption|].
      intros Hty. apply has_links_In; auto. }
    assert (HE : cle (after x) F).
    { assert (HcA : coverage A x = true \/ coverage B x = true).
      { unfold expected_coverage in HU. destruct ty.
        - apply orb_true_iff in HU; assumption.
        - apply andb_true_iff in HU; tauto. }
      destruct HcA as [Hc|Hc]; apply coverage_In in Hc;
        destruct Hc as (r & Hin & Hc); apply covers_spec in Hc.
      - specialize (FA r Hin). order.
      - specialize (FB r Hin). order. }
    destruct (HC D x Hx HE HU) as [H|H]; [assumption|].
    unfold sentinel in H. congruence.
  - destruct (coverage out x); [|reflexivity].
    specialize (Hsound eq_refl). discriminate.
Qed.

(** C3 (amended).  In MERGE mode an output range lying within a range
    of [ranges_a] and a range of [ranges_b] carries the links of the
    first followed by the links of the second and is not stable; an
    output range lying within a range of one side only carries that
    side's links and [no_records] flag; it is stable only if that input
    range is stable and the output range has the same bounds, and it is
    stable whenever that is so and no range of the other side touches
    the input range. *)
Theorem merge_dependence A B :
  sorted_ranges A = true -> sorted_ranges B = true ->
  A <> [] \/ B <> [] ->
  exists out,
    PartitionRangeWithDepend A B kMerge = Some out /\
    forall o, In o out ->
      (forall ra rb, In ra A -> In rb B ->
         within o ra = true -> within o rb = true ->
         dependence o = dependence ra ++ dependence rb /\ stable o = false) /\
      (forall ra, In ra A -> within o ra = true ->
         (forall rb, In rb B -> within o rb = false) ->
         dependence o = dependence ra /\ no_records o = no_records ra /\
         (stable o = true -> stable ra = true /\ same_bounds o ra) /\
         (stable ra = true -> same_bounds o ra ->
          forallb (fun rb => negb (touching rb ra)) B = true ->
          stable o = true)) /\
      (forall rb, In rb B -> within o rb = true ->
         (forall ra, In ra A -> within o ra = false) ->
         dependence o = dependence rb /\ no_records o = no_records rb /\
         (stable o = true -> stable rb = true /\ same_bounds o rb) /\
         (stable rb = true -> same_bounds o rb ->
          forallb (fun ra => negb (touching ra rb)) A = true ->
          stable o = true)).
Proof.
  intros HA HB Hne.
  apply sorted_ranges_WF in HA. apply sorted_ranges_WF in HB.
  destruct (partition_inv A B kMerge HA HB Hne) as (out & F & Hp & (_ & HP & _) & _).
  exists (rev out). split; [assumption|].
  intros o Hin. apply in_rev in Hin. rewrite Forall_forall in HP.
  destruct (HP o Hin)
    as (Hne' & Hd & ca & cb & RA & RB & Hn & Hdep & Hst & Hlone).
  split; [|split].
  - intros ra rb Ia Ib Wa Wb.
    rewrite (region_within A o ca ra HA Hne' RA Ia Wa) in *.
    rewrite (region_within B o cb rb HB Hne' RB Ib Wb) in *.
    simpl in *. split; [assumption|].
    destruct (stable o); [|reflexivity].
    destruct (Hst eq_refl) as (r & [[_ H]|[H _]] & _); discriminate.
  - intros ra Ia Wa Nb.
    rewrite (region_within A o ca ra HA Hne' RA Ia Wa) in *.
    rewrite (region_not_within B o cb RB Nb) in *.
    simpl in *. split; [assumption|]. split; [assumption|]. split.
    + intros Hs. destruct (Hst Hs) as (r & [[H _]|[H _]] & H1 & H2); [|discriminate].
      inversion H; subst. auto.
    + intros Hs Hsb Ht. rewrite <- Hs. apply (Hlone ra); [|exact Hsb].
      left. split; [reflexivity|]. split; [reflexivity|].
      apply untouched_forallb. exact Ht.
  - intros rb Ib Wb Na.
    rewrite (region_within B o cb rb HB Hne' RB Ib Wb) in *.
    rewrite (region_not_within A o ca RA Na) in *.
    simpl in *. split; [assumption|]. split; [assumption|]. split.
    + intros Hs. destruct (Hst Hs) as (r & [[H _]|[_ H]] & H1 & H2); [discriminate|].
      inversion H; subst. auto.
    + intros Hs Hsb Ht. rewrite <- Hs. apply (Hlone rb); [|exact Hsb].
      right. split; [reflexivity|]. split; [reflexivity|].
      apply untouched_forallb. exact Ht.
Qed.

End Partitioner.

Section SweepProgress.

Context {value_types : ValueTypes}.

(* ===================================================================== *)
(** * Progress of the sweep *)
(* ===================================================================== *)

Section Total.

Variables A B : list RangeWithDepend.
Variable ty : PartitionType.

Lemma put_right_some key incl r s :
  output s <> [] -> exists s', put_right key incl r s = Some s'.
Proof.
  unfold put_right. destruct (output s) as [|back rest]; [congruence|].
  intros _.
  destruct (_ || _); [eauto|].
  destruct (IsEmptyMapSstElement _); [eauto|].
  destruct (unstable _ _); eauto.
Qed.

Lemma put_open_some key incl src ca cb s :
  exists s', put_depend ty ca cb (put_left key incl src s) = Some s' /\
             output s' <> [].
Proof.
  unfold put_depend, put_left. simpl. eexists. split; [reflexivity|].
  simpl. discriminate.
Qed.

Lemma compare_bounds_some st :
  Running A B st -> (c_ai st < length A \/ c_bi st < length B)%nat ->
  exists c,
    compare_bounds A B (c_ai st) (c_bi st) (c_ab st) (c_bb st) = Some c /\
    (c <= 0 -> (c_ai st < length A)%nat) /\
    (c >= 0 -> (c_bi st < length B)%nat) /\
    (c = 0 -> c_ab st = c_bb st).
Proof.
  intros (Ha & Hb & Hab & Hbb & _) Hlt. unfold compare_bounds.
  destruct (Nat.ltb_spec (c_ai st) (length A)) as [HA|HA];
    destruct (Nat.ltb_spec (c_bi st) (length B)) as [HB|HB]; simpl.
  - destruct (nth_error A (c_ai st)) as [a|] eqn:Ea;
      [|apply nth_error_None in Ea; lia].
    destruct (nth_error B (c_bi st)) as [b|] eqn:Eb;
      [|apply nth_error_None in Eb; lia].
    simpl. eexists. split; [reflexivity|]. repeat split; auto.
    intros Hz. apply (CompInclude_spec a b (c_ab st) (c_bb st)). exact Hz.
  - exists (-1). repeat split; auto; lia.
  - exists 1. repeat split; auto; lia.
  - lia.
Qed.

Lemma sweep_step_running st :
  Running A B st -> (c_ai st < length A \/ c_bi st < length B)%nat ->
  exists st', sweep_step A B ty st = Some st' /\ Running A B st' /\
              (pos st < pos st')%nat.
Proof.
  intros HR Hlt.
  destruct (compare_bounds_some st HR Hlt) as (c & Hc & Hle & Hge & Hz).
  destruct HR as (Ha & Hb & Hab & Hbb & Hout).
  destruct st as [ai bi ab bb s]. simpl in *.
  unfold sweep_step. simpl. rewrite Hc. cbn [obind].
  assert (HA : c <= 0 \/ ab = true -> exists a, nth_error A ai = Some a).
  { intros H. destruct (nth_error A ai) eqn:E; eauto.
    apply nth_error_None in E. destruct H as [H|H]; [specialize (Hle H)|specialize (Hab H)]; lia. }
  assert (HB : c >= 0 \/ bb = true -> exists b, nth_error B bi = Some b).
  { intros H. destruct (nth_error B bi) eqn:E; eauto.
    apply nth_error_None in E. destruct H as [H|H]; [specialize (Hge H)|specialize (Hbb H)]; lia. }
  assert (Hsplit : c < 0 \/ c = 0 \/ c > 0) by lia.
  assert (Hfin : forall s' ac bc,
             output s' <> [] \/ (xorb ab ac || xorb bb bc = false) ->
             (ab && ac = true -> (ai < length A)%nat) ->
             (bb && bc = true -> (bi < length B)%nat) ->
             (xorb ab ac = true -> ab = false -> (ai < length A)%nat) ->
             (xorb bb bc = true -> bb = false -> (bi < length B)%nat) ->
             (ac = true \/ bc = true) ->
             exists st',
               Some (mkCursor (if ab && ac then S ai else ai)
                              (if bb && bc then S bi else bi)
                              (xorb ab ac) (xorb bb bc) s') = Some st' /\
               Running A B st' /\
               (pos (mkCursor ai bi ab bb s) < pos st')%nat).
  { intros s' ac bc Ho H1 H2 H3 H4 H5. eexists. split; [reflexivity|]. split.
    - unfold Running; simpl.
      destruct ab, ac, bb, bc; simpl in *;
        repeat split; intros; try discriminate; try lia;
        try (specialize (Hab eq_refl)); try (specialize (Hbb eq_refl));
        try (specialize (H1 eq_refl)); try (specialize (H2 eq_refl));
        try (specialize (H3 eq_refl eq_refl));
        try (specialize (H4 eq_refl eq_refl)); try lia;
        try (destruct Ho as [Ho|Ho]; [assumption|discriminate]).
    - unfold pos; simpl. destruct ab, ac, bb, bc, H5; simpl; try discriminate; lia. }
  Opaque put_left put_depend put_right.
  destruct Hsplit as [Hs|[Hs|Hs]].
  - replace (c <=? 0) with true by (symmetry; apply Z.leb_le; lia).
    replace (c >=? 0) with false by (symmetry; rewrite Z.geb_leb; apply Z.leb_gt; lia).
    destruct HA as [a Ea]; [left; lia|].
    assert (LA : (ai < length A)%nat) by (apply Hle; lia).
    destruct ab, bb; simpl in *; rewrite ?Ea; cbn [obind].
    + destruct HB as [b Eb]; [right; reflexivity|].
      destruct (put_right_some (point1 a) (include1 a) (Some (RangesA, ai)) s
                               (Hout eq_refl)) as [s1 E1].
      rewrite E1, Eb. cbn [obind].
      destruct (put_open_some (point1 a) (negb (include1 a)) None None (Some b) s1)
        as (s2 & E2 & N2).
      rewrite E2. cbn [obind]. apply (Hfin s2 true false); auto; discriminate.
    + destruct (put_right_some (point1 a) (include1 a) (Some (RangesA, ai)) s
                               (Hout eq_refl)) as [s1 E1].
      rewrite E1. cbn [obind]. apply (Hfin s1 true false); auto; discriminate.
    + destruct HB as [b Eb]; [right; reflexivity|].
      destruct (put_right_some (point0 a) (negb (include0 a)) None s
                               (Hout eq_refl)) as [s1 E1].
      rewrite E1, Eb. cbn [obind].
      destruct (put_open_some (point0 a) (include0 a) (Some (RangesA, ai))
                              (Some a) (Some b) s1) as (s2 & E2 & N2).
      rewrite E2. cbn [obind]. apply (Hfin s2 true false); auto; discriminate.
    + destruct (put_open_some (point0 a) (include0 a) (Some (RangesA, ai))
                              (Some a) None s) as (s2 & E2 & N2).
      rewrite E2. cbn [obind]. apply (Hfin s2 true false); auto; discriminate.
  - replace (c <=? 0) with true by (symmetry; apply Z.leb_le; lia).
    replace (c >=? 0) with true by (symmetry; rewrite Z.geb_leb; apply Z.leb_le; lia).
    destruct HA as [a Ea]; [left; lia|].
    destruct HB as [b Eb]; [left; lia|].
    assert (LA : (ai < length A)%nat) by (apply Hle; lia).
    assert (LB : (bi < length B)%nat) by (apply Hge; lia).
    specialize (Hz Hs). subst bb.
    destruct ab; simpl in *; rewrite ?Ea, ?Eb; cbn [obind].
    + destruct (put_right_some (point1 a) (include1 a) None s
                               (Hout eq_refl)) as [s1 E1].
      rewrite E1. cbn [obind]. apply (Hfin s1 true true); auto.
    + destruct (put_open_some (point0 a) (include0 a) None
                              (Some a) (Some b) s) as (s2 & E2 & N2).
      rewrite E2. cbn [obind]. apply (Hfin s2 true true); auto.
  - replace (c <=? 0) with false by (symmetry; apply Z.leb_gt; lia).
    replace (c >=? 0) with true by (symmetry; rewrite Z.geb_leb; apply Z.leb_le; lia).
    destruct HB as [b Eb]; [left; lia|].
    assert (LB : (bi < length B)%nat) by (apply Hge; lia).
    destruct ab, bb; simpl in *; rewrite ?Eb; cbn [obind].
    + destruct HA as [a Ea]; [right; reflexivity|].
      destruct (put_right_some (point1 b) (include1 b) (Some (RangesB, bi)) s
                               (Hout eq_refl)) as [s1 E1].
      rewrite E1, Ea. cbn [obind].
      destruct (put_open_some (point1 b) (negb (include1 b)) None (Some a) None s1)
        as (s2 & E2 & N2).
      rewrite E2. cbn [obind]. apply (Hfin s2 false true); auto; discriminate.
    + destruct HA as [a Ea]; [right; reflexivity|].
      destruct (put_right_some (point0 b) (negb (include0 b)) None s
                               (Hout eq_refl)) as [s1 E1].
      rewrite E1, Ea. cbn [obind].
      destruct (put_open_some (point0 b) (include0 b) (Some (RangesB, bi))
                              (Some a) (Some b) s1) as (s2 & E2 & N2).
      rewrite E2. cbn [obind]. apply (Hfin s2 false true); auto; discriminate.
    + destruct (put_right_some (point1 b) (include1 b) (Some (RangesB, bi)) s
                               (Hout eq_refl)) as [s1 E1].
      rewrite E1. cbn [obind]. apply (Hfin s1 false true); auto; discriminate.
    + destruct (put_open_some (point0 b) (include0 b) (Some (RangesB, bi))
                              None (Some b) s) as (s2 & E2 & N2).
      rewrite E2. cbn [obind]. apply (Hfin s2 false true); auto; discriminate.
Qed.
Transparent put_left put_depend put_right.

Lemma running_pos st :
  Running A B st -> (c_ai st < length A \/ c_bi st < length B)%nat ->
  (pos st < 2 * (length A + length B))%nat.
Proof.
  intros (Ha & Hb & Hab & Hbb & _) Hlt. unfold pos.
  destruct (c_ab st), (c_bb st);
    try specialize (Hab eq_refl); try specialize (Hbb eq_refl); lia.
Qed.

Lemma sweep_loop_running fuel : forall st,
  Running A B st -> (c_ai st < length A \/ c_bi st < length B)%nat ->
  (2 * (length A + length B) <= pos st + fuel)%nat ->
  exists st', sweep_loop A B ty fuel st = Some st'.
Proof.
  induction fuel as [|fuel IH]; intros st HR Hlt Hf.
  - pose proof (running_pos st HR Hlt). lia.
  - destruct (sweep_step_running st HR Hlt) as (st' & Hs & HR' & Hp).
    cbn [sweep_loop]. rewrite Hs. cbn [obind].
    destruct (sweep_continue A B st') eqn:Hc; [|eauto].
    apply IH; auto; [|lia].
    unfold sweep_continue in Hc. destruct HR' as (Ha & Hb & _).
    apply orb_true_iff in Hc.
    destruct Hc as [Hc|Hc]; apply negb_true_iff, Nat.eqb_neq in Hc; lia.
Qed.

(** With the assertions compiled out, the loop ends within its fuel
    and reads nothing out of bounds, unless both vectors are empty:
    then the first iteration reads [ranges_b[0]]. *)
Lemma partition_total :
  A <> [] \/ B <> [] ->
  exists out, PartitionRangeWithDepend A B ty = Some out.
Proof.
  intros Hne.
  assert (Hlt : (c_ai sweep_init < length A \/ c_bi sweep_init < length B)%nat).
  { simpl. destruct Hne as [H|H]; [left|right];
      (destruct A, B; simpl; try congruence; lia). }
  destruct (sweep_loop_running (sweep_fuel A B) sweep_init) as [st Hst]; auto.
  - unfold Running, sweep_init; simpl. repeat split; try lia; discriminate.
  - unfold sweep_fuel, pos; simpl. lia.
  - unfold PartitionRangeWithDepend. rewrite Hst. simpl. eauto.
Qed.

End Total.

Lemma partition_empty ty : PartitionRangeWithDepend [] [] ty = None.
Proof. reflexivity. Qed.

End SweepProgress.

Section Touching.

Context {value_types : ValueTypes}.

Lemma Compare_refl k : Compare k k = 0.
Proof. cmp k k; try reflexivity; exfalso; order. Qed.

Lemma Compare_gt a b : Compare a b < 0 -> Compare b a = 1.
Proof. cmp a b; try lia. intros _. cmp b a; try reflexivity; exfalso; order. Qed.

Lemma IsEmptyMapSstElement_bounds r r' :
  dependence r = dependence r' -> point0 r = point0 r' -> point1 r = point1 r' ->
  IsEmptyMapSstElement r = IsEmptyMapSstElement r'.
Proof. unfold IsEmptyMapSstElement. intros -> -> ->. reflexivity. Qed.

Theorem touching_not_fused (a m z : InternalKey) (na sa nb sb : bool)
        (la lb : list LinkTarget) :
  let rA := mkRange a m true true na sa la in
  let rB := mkRange m z false true nb sb lb in
  Compare a m <= 0 -> Compare m z < 0 ->
  la <> [] -> lb <> [] ->
  IsEmptyMapSstElement rA = false -> IsEmptyMapSstElement rB = false ->
  PartitionRangeWithDepend [rA] [rB] kMerge
  = Some [mkRange a m true true na false la; mkRange m z false true nb false lb].
Proof.
  intros rA rB Ham Hmz Hla Hlb HeA HeB.
  assert (C1 : CompInclude (Compare a m) false true false false = -1).
  { unfold CompInclude. cmp a m; try reflexivity. lia. }
  assert (C2 : CompInclude (Compare m m) true true false false = 1).
  { rewrite Compare_refl. reflexivity. }
  assert (C3 : CompInclude (Compare m z) true true true true = -1).
  { unfold CompInclude. cmp m z; try reflexivity; lia. }
  assert (C4 : Compare z m = 1) by (apply Compare_gt; assumption).
  assert (C5 : Compare m m = 0) by apply Compare_refl.
  assert (D1 : forall n s, IsEmptyMapSstElement (mkRange a m true true n s la) = false).
  { intros n s. rewrite <- HeA. apply IsEmptyMapSstElement_bounds; reflexivity. }
  assert (D2 : forall n s, IsEmptyMapSstElement (mkRange m z false true n s lb) = false).
  { intros n s. rewrite <- HeB. apply IsEmptyMapSstElement_bounds; reflexivity. }
  assert (N1 : match la with [] => true | _ :: _ => false end = false)
    by (destruct la; congruence).
  assert (N2 : match lb with [] => true | _ :: _ => false end = false)
    by (destruct lb; congruence).
  set (o1 := mkRange a m true true na false la).
  set (st1 := mkCursor 0 0 true false
                (mkSweep [mkRange a empty_key true false na sa la]
                         (Some (RangesA, 0%nat)))).
  set (st2 := mkCursor 0 0 true true
                (mkSweep [mkRange m empty_key false false false false (la ++ lb); o1]
                         (Some (RangesB, 0%nat)))).
  set (st3 := mkCursor 1 0 false true
                (mkSweep [mkRange m empty_key false false nb sb lb; o1] None)).
  set (st4 := mkCursor 1 1 false false
                (mkSweep [mkRange m z false true nb false lb; o1] None)).
  Opaque Compare IsEmptyMapSstElement CompInclude.
  assert (S1 : sweep_step [rA] [rB] kMerge sweep_init = Some st1).
  { unfold sweep_step, compare_bounds; simpl. rewrite C1. reflexivity. }
  assert (S2 : sweep_step [rA] [rB] kMerge st1 = Some st2).
  { unfold sweep_step, compare_bounds; simpl. rewrite C2. simpl.
    unfold put_right; simpl. rewrite N1, andb_false_r. simpl.
    unfold set_point1; simpl. rewrite D1. reflexivity. }
  assert (S3 : sweep_step [rA] [rB] kMerge st2 = Some st3).
  { unfold sweep_step, compare_bounds; simpl. rewrite C3. simpl.
    unfold put_right; simpl. rewrite C5. simpl. rewrite orb_true_r. reflexivity. }
  assert (S4 : sweep_step [rA] [rB] kMerge st3 = Some st4).
  { unfold sweep_step, compare_bounds; simpl.
    unfold put_right; simpl. rewrite N2, C4. simpl.
    unfold set_point1; simpl. rewrite D2. reflexivity. }
  Transparent Compare IsEmptyMapSstElement CompInclude.
  unfold PartitionRangeWithDepend, sweep_fuel.
  change (S (2 * (length [rA] + length [rB]))) with 5%nat.
  unfold sweep_loop. rewrite S1. cbn [obind]. change (sweep_continue [rA] [rB] st1) with true. cbv iota.
  rewrite S2. cbn [obind]. change (sweep_continue [rA] [rB] st2) with true. cbv iota.
  rewrite S3. cbn [obind]. change (sweep_continue [rA] [rB] st3) with true. cbv iota.
  rewrite S4. cbn [obind]. change (sweep_continue [rA] [rB] st4) with false. cbv iota.
  reflexivity.
Qed.

End Touching.

Section Loader.

Context {value_types : ValueTypes}.

(* ===================================================================== *)
(** * The range loader *)
(* ===================================================================== *)

Lemma load_file_data iterator_cache f ranges b :
  data_table_ok iterator_cache f = true ->
  exists b',
    load_file iterator_cache f (ranges, b)
    = (StatusOK, (ranges ++ [data_table_range f], b')).
Proof.
  unfold data_table_ok, load_file. intros H.
  apply andb_true_iff in H. destruct H as [Hp Hs].
  destruct (purpose f); [|discriminate]. rewrite Hs. simpl.
  destruct b; eexists; reflexivity.
Qed.

(** C5 (amended).  For data-table input files whose iterators are in
    order the loader appends exactly one range per file, in order:
    [smallest, upper] with both ends inclusive, the single link
    [{file, 0}], [no_records] and [stable] false.  The upper endpoint is
    the largest key of the file unless that key carries the maximal
    sequence number; then it is the user key with the footer
    [(kMaxSequenceNumber, kTypeDeletion)], whatever the type byte was. *)
Theorem load_data_tables iterator_cache fs : forall ranges b,
  forallb (data_table_ok iterator_cache) fs = true ->
  exists b',
    LoadRangeWithDepend iterator_cache fs (ranges, b)
    = (StatusOK, (ranges ++ map data_table_range fs, b')).
Proof.
  induction fs as [|f fs IH]; intros ranges b H;
    cbn [forallb] in H; cbn [LoadRangeWithDepend map].
  - exists b. rewrite app_nil_r. reflexivity.
  - apply andb_true_iff in H. destruct H as [Hf Hfs].
    destruct (load_file_data iterator_cache f ranges b Hf) as [b1 E1].
    rewrite E1. simpl.
    destruct (IH (ranges ++ [data_table_range f]) b1 Hfs) as [b2 E2].
    exists b2. rewrite E2. rewrite <- app_assoc. reflexivity.
Qed.

(** Where both seeks succeed the link is given the difference of the two
    offsets, or 0 when the keys found are out of order. *)
Lemma tighten_link_size t start end_ incl_s incl_e link link' found :
  tighten_link t start end_ incl_s incl_e link = (link', found) ->
  file_number link' = file_number link /\
  (found = true -> 0 <= size link' < 2 ^ 64) /\
  (found = false -> size link' = size link \/ size link' = 0).
Proof.
  assert (Hskip : (link, false) = (link', found) ->
                  file_number link' = file_number link /\
                  (found = true -> 0 <= size link' < 2 ^ 64) /\
                  (found = false -> size link' = size link \/ size link' = 0)).
  { intros E; inversion E; subst. split; [reflexivity|].
    split; [discriminate|]. auto. }
  unfold tighten_link.
  destruct (Seek _ start) as [i|]; [|assumption].
  destruct (if negb incl_s && _ then _ else _) as [i1|]; [|assumption].
  destruct (SeekForPrev _ end_) as [j|]; [|assumption].
  destruct (if negb incl_e && _ then _ else _) as [j1|]; [|assumption].
  destruct (Compare _ _ <=? 0); intros E; inversion E; subst; simpl.
  - split; [reflexivity|]. split; [|discriminate].
    intros _. apply Z.mod_pos_bound. lia.
  - split; [reflexivity|]. split; [discriminate|]. auto.
Qed.

(** With every iterator in order the loop visits every link, and
    [no_records] stays set exactly when no link yields a record. *)
Lemma resolve_links_no_records iterator_cache start end_ incl_s incl_e :
  forall links visited no_rec deps,
  (forall l, In l links ->
             ok (iter_status (GetIterator iterator_cache (file_number l))) = true) ->
  let results :=
    map (fun l => tighten_link (GetIterator iterator_cache (file_number l))
                               start end_ incl_s incl_e l) links in
  exists deps',
    resolve_links iterator_cache start end_ incl_s incl_e links visited no_rec deps
    = (StatusOK,
       (visited ++ map fst results,
        no_rec && forallb (fun r => negb (snd r)) results, deps')).
Proof.
  induction links as [|l links IH]; intros visited no_rec deps Hok; simpl.
  - exists deps. rewrite app_nil_r, andb_true_r. reflexivity.
  - rewrite (Hok l (or_introl eq_refl)). simpl.
    destruct (tighten_link _ start end_ incl_s incl_e l) as [l' found] eqn:E.
    destruct (IH (visited ++ [l']) (if found then false else no_rec)
                 (emplace (file_number l) deps)) as [deps' E'].
    { intros l0 Hin. apply Hok. right. assumption. }
    exists deps'. rewrite E'. simpl. rewrite <- app_assoc. simpl.
    destruct found, no_rec; reflexivity.
Qed.

(* ===================================================================== *)
(** * The map builder *)
(* ===================================================================== *)

Lemma check_build_map_defined iterator_cache ranges : forall sst_live,
  links_known iterator_cache ranges = true ->
  exists r, check_build_map iterator_cache ranges sst_live = Some r.
Proof.
  induction ranges as [|it ranges IH]; intros sst_live H; simpl.
  - eauto.
  - simpl in H. apply andb_true_iff in H. destruct H as [H1 H2].
    destruct (Nat.ltb 1 (length (dependence it))); [eauto|].
    destruct (dependence it) as [|front rest]; [discriminate|].
    destruct (GetFileMetaData iterator_cache (file_number front)) as [f|];
      [|discriminate].
    simpl. destruct (negb (IsPrefaceRange _ f)); [eauto|]. apply IH; assumption.
Qed.

Lemma all_stable_true f lvl ranges count :
  purpose f = kMapSst -> length ranges = count ->
  forallb stable ranges = true ->
  all_stable [mkInputs lvl [f]] ranges count = true.
Proof.
  intros Hp Hl Hs. unfold all_stable; simpl. rewrite Hp. simpl.
  subst count. rewrite Nat.eqb_refl. simpl.
  apply negb_true_iff. destruct (existsb _ ranges) eqn:E; [|reflexivity].
  apply existsb_exists in E. destruct E as (r & Hin & Hr).
  rewrite forallb_forall in Hs. rewrite (Hs r Hin) in Hr. discriminate.
Qed.

(** C7.  When the only input is one map table, the surviving vector has
    as many ranges as were loaded from it and all of them are stable,
    [Build] returns success and leaves the world as it was: no file
    number is taken and no table is written. *)
Theorem build_stable_short_circuit env iterator_cache lvl f deleted_range
        added_files output_level output_path_id w s l ranges rest :
  purpose f = kMapSst ->
  survivors iterator_cache [mkInputs lvl [f]] deleted_range added_files
  = Some (s, l) ->
  ok s = true ->
  level_ranges l = ranges :: rest ->
  length ranges = input_range_count l ->
  forallb stable ranges = true ->
  links_known iterator_cache ranges = true ->
  exists res,
    Build env iterator_cache [mkInputs lvl [f]] deleted_range added_files
          output_level output_path_id w = Some res /\
    ok (result_status res) = true /\
    result_file res = None /\
    result_world res = w.
Proof.
  intros Hp Hsv Hok Hlr Hlen Hst Hknown.
  unfold Build. rewrite Hsv. cbn [obind]. rewrite Hok. cbn [negb].
  rewrite Hlr.
  destruct (check_build_map_defined iterator_cache ranges [] Hknown)
    as [[build_map_sst sst_live] Hchk].
  assert (Hc : (if negb (output_level =? 0) || Nat.eqb (length ranges) 1
                then check_build_map iterator_cache ranges []
                else Some (true, []))
               = Some (if negb (output_level =? 0) || Nat.eqb (length ranges) 1
                       then (build_map_sst, sst_live) else (true, []))).
  { destruct (negb (output_level =? 0) || Nat.eqb (length ranges) 1); auto. }
  rewrite Hc. cbn [obind].
  destruct (if negb (output_level =? 0) || Nat.eqb (length ranges) 1
            then (build_map_sst, sst_live) else (true, []))
    as [bm live].
  destruct bm; cbn [negb].
  - rewrite (all_stable_true f lvl ranges _ Hp Hlen Hst).
    eexists. split; [reflexivity|]. simpl. auto.
  - destruct (move_inputs output_level _ live []) as [live' edit].
    eexists. split; [reflexivity|]. simpl. auto.
Qed.

End Loader.

(* ===================================================================== *)
(** * The table cache *)
(* ===================================================================== *)

Lemma row_cache_hit_map tc ngrc f k c :
  purpose f = kMapSst -> row_cache_hit tc ngrc f k c = None.
Proof.
  intros Hp. unfold row_cache_hit, enable_row_cache. rewrite Hp.
  destruct (row_cache tc); [|reflexivity].
  simpl. rewrite andb_false_r. reflexivity.
Qed.

(** The loop over the links, cut in two. *)
Lemma get_links_app rec_get dm find_k : forall pre st st' n rest,
  get_links rec_get dm (length pre) (map FVarint pre) find_k st
  = Some (true, st') ->
  get_links rec_get dm (length pre + n) (map FVarint pre ++ rest) find_k st
  = get_links rec_get dm n rest find_k st'.
Proof.
  induction pre as [|p pre IH]; intros [[s c] tc] st' n rest H; simpl in *.
  - inversion H; subst. reflexivity.
  - destruct (find dm p) as [f|]; [|discriminate].
    destruct (rec_get f find_k c tc) as [[[s1 c1] tc1]|]; simpl in *; [|discriminate].
    destruct (negb (ok s1) || is_finished c1); [discriminate|].
    apply IH. assumption.
Qed.

(** The loop stops early only on an error or a finished lookup. *)
Lemma get_links_stopped rec_get dm find_k : forall n input st s' c' tc',
  get_links rec_get dm n input find_k st = Some (false, (s', c', tc')) ->
  ok s' = false \/ is_finished c' = true.
Proof.
  induction n as [|n IH]; intros input [[s c] tc] s' c' tc' H; simpl in H.
  - discriminate.
  - destruct (GetVarint64 input) as [[number input']|].
    + destruct (find dm number) as [f|].
      * destruct (rec_get f find_k c tc) as [[[s1 c1] tc1]|]; simpl in H;
          [|discriminate].
        destruct (negb (ok s1) || is_finished c1) eqn:E.
        -- inversion H; subst. apply orb_true_iff in E.
           destruct E as [E|E]; [left; apply negb_true_iff; assumption|right; assumption].
        -- eapply IH; eassumption.
      * inversion H; subst. left; reflexivity.
    + inversion H; subst. left; reflexivity.
Qed.

(** What the callback does to the ceiling, for any lookup into the
    link targets. *)
Lemma get_from_map_ceiling rec_get dm k largest_key map_value s c tc
      more s' c' tc' :
  get_from_map rec_get dm k largest_key map_value (s, c, tc)
  = Some (more, (s', c', tc')) ->
  more = true \/ (ok s' = true /\ is_finished c' = false) ->
  GetMinSequenceAndType c' = GetMinSequenceAndType c.
Proof.
  unfold get_from_map. intros H Hcond.
  destruct (negb (ok (decode_status map_value))) eqn:Hd.
  { inversion H; subst. reflexivity. }
  destruct (decode_header (fields map_value)) as [[[[flags lc] sk] input]|].
  2:{ inversion H; subst. reflexivity. }
  destruct (shrink_to_smallest k sk _) as [find_k|].
  2:{ inversion H; subst. reflexivity. }
  destruct (beyond_largest k largest_key _).
  { inversion H; subst. reflexivity. }
  destruct (get_links rec_get dm (Z.to_nat lc) input find_k _)
    as [[completed [[s1 c1] tc1]]|] eqn:HL; simpl in H; [|discriminate].
  destruct completed.
  - inversion H; subst. reflexivity.
  - inversion H; subst. exfalso.
    destruct (get_links_stopped _ _ _ _ _ _ _ _ _ HL) as [E|E];
      destruct Hcond as [Hm|[H1 H2]]; congruence.
Qed.

(** C9 (amended).  For every element the callback processes, the
    ceiling [min_sequence_and_type] is back at the value saved before
    the recursive lookups whenever the callback asks for the next
    element, and whenever it ends with status OK and the lookup not
    finished.  (After a lookup that fails or finishes, the capped
    ceiling is left in place.) *)
Theorem ceiling_restored rec_get dm k largest_key map_value s c tc
        more s' c' tc' :
  get_from_map rec_get dm k largest_key map_value (s, c, tc)
  = Some (more, (s', c', tc')) ->
  more = true \/ (ok s' = true /\ is_finished c' = false) ->
  GetMinSequenceAndType c' = GetMinSequenceAndType c.
Proof. apply get_from_map_ceiling. Qed.

(** The same across a whole scan, and across [TableCache::Get]. *)
Lemma scan_ceiling rec_get dm k : forall entries s c tc s' c' tc',
  scan rec_get dm k entries (s, c, tc) = Some (s', c', tc') ->
  ok s' = true -> is_finished c' = false ->
  GetMinSequenceAndType c' = GetMinSequenceAndType c.
Proof.
  induction entries as [|[key value] entries IH];
    intros s c tc s' c' tc' H Hok Hfin; cbn [scan] in H.
  - inversion H; subst. reflexivity.
  - destruct (get_from_map rec_get dm k key value (s, c, tc))
      as [[more [[s1 c1] tc1]]|] eqn:E; cbn [obind] in H; [|discriminate].
    destruct more.
    + rewrite (IH _ _ _ _ _ _ H Hok Hfin).
      eapply get_from_map_ceiling; [eassumption|left; reflexivity].
    + inversion H; subst.
      eapply get_from_map_ceiling; [eassumption|right; auto].
Qed.

Lemma get_ceiling_frame fuel tc read_tier ngrc f dm k c s' c' tc' :
  Get fuel tc read_tier ngrc f dm k c = Some (s', c', tc') ->
  ok s' = true -> is_finished c' = false ->
  GetMinSequenceAndType c' = GetMinSequenceAndType c.
Proof.
  destruct fuel as [|fuel]; [discriminate|]. cbn [Get].
  unfold row_cache_hit, GetFromRowCache.
  intros H Hok Hfin.
  assert (Hsave : forall r, GetMinSequenceAndType (save r c)
                            = GetMinSequenceAndType c) by reflexivity.
  assert (Hdata : forall t s1 c1,
             get_from_data tc ngrc f t k c = (s1, c1) ->
             GetMinSequenceAndType c1 = GetMinSequenceAndType c).
  { intros t s1 c1. unfold get_from_data, RowCachedGet, GetFromRowCache, ReaderGet.
    destruct (row_cache tc) as [rc|].
    - destruct (enable_row_cache tc c f && ngrc).
      + destruct (row_lookup rc (fd_number f) k).
        * intros E; inversion E; subst. apply Hsave.
        * destruct (reader_get t k _ _). intros E; inversion E; subst. apply Hsave.
      + destruct (reader_get t k _ _). intros E; inversion E; subst. apply Hsave.
    - destruct (reader_get t k _ _). intros E; inversion E; subst. apply Hsave. }
  destruct (match row_cache tc with
            | Some rc =>
                if enable_row_cache tc c f && negb ngrc
                then match row_lookup rc (fd_number f) k with
                     | Some r => Some (save r c)
                     | None => None
                     end
                else None
            | None => None
            end) as [ch|] eqn:Hhit.
  - injection H as _ Ec _. subst c'.
    destruct (row_cache tc) as [rc|]; [|discriminate].
    destruct (enable_row_cache tc c f && negb ngrc); [|discriminate].
    destruct (row_lookup rc (fd_number f) k); inversion Hhit; subst. apply Hsave.
  - destruct (find_reader tc f read_tier) as [[s t] tc1].
    destruct (ok s) eqn:Hs.
    + destruct t as [t|]; cbn [obind] in H; [|discriminate].
      destruct (negb (is_map (purpose f))).
      * destruct (get_from_data tc ngrc f t k c) as [s1 c1] eqn:E.
        injection H as _ Ec _. subst c'. eapply Hdata; eassumption.
      * destruct (empty dm).
        -- injection H as Es _ _. subst s'. discriminate.
        -- unfold RangeScan in H. eapply scan_ceiling; eassumption.
    + destruct (is_block_cache_tier read_tier && IsIncomplete s);
        injection H as _ Ec _; subst c'; reflexivity.
Qed.

Lemma get_from_map_missing rec_get dm k largest_key map_value s c tc
      flags link_count smallest_key find_k pre number rest s1 c1 tc1 :
  ok (decode_status map_value) = true ->
  decode_header (fields map_value)
  = Some (flags, link_count, smallest_key,
          map FVarint pre ++ FVarint number :: rest) ->
  shrink_to_smallest k smallest_key (Z.testbit flags kIncludeSmallest)
  = Some find_k ->
  beyond_largest k largest_key (Z.testbit flags kIncludeLargest) = false ->
  (length pre < Z.to_nat link_count)%nat ->
  get_links rec_get dm (length pre) (map FVarint pre) find_k
            (decode_status map_value,
             shrink_ceiling k largest_key (Z.testbit flags kIncludeLargest) c,
             tc)
  = Some (true, (s1, c1, tc1)) ->
  find dm number = None ->
  get_from_map rec_get dm k largest_key map_value (s, c, tc)
  = Some (false, (Corruption "Map sst depend files missing", c1, tc1)).
Proof.
  intros Hd Hh Hs Hb Hn Hpre Hf.
  unfold get_from_map. rewrite Hd, Hh, Hs, Hb. cbn [negb].
  replace (Z.to_nat link_count)
    with (length pre + S (Z.to_nat link_count - length pre - 1))%nat by lia.
  rewrite (get_links_app rec_get dm find_k pre _ _ _ _ Hpre).
  cbn [get_links GetVarint64]. rewrite Hf. reflexivity.
Qed.

Lemma scan_passed rec_get dm k rest : forall passed st st',
  scan_passes rec_get dm k passed st st' ->
  scan rec_get dm k (passed ++ rest) st = scan rec_get dm k rest st'.
Proof.
  induction passed as [|[key value] passed IH]; intros st st' H;
    cbn [scan_passes app] in *.
  - subst st'. reflexivity.
  - destruct H as (st1 & E & H). cbn [scan]. rewrite E. cbn [obind].
    apply IH. exact H.
Qed.

(** The loop over the links runs to its end only through lookups that
    do not finish. *)
Lemma get_links_unfinished rec_get dm find_k : forall n input s c tc s' c' tc',
  get_links rec_get dm n input find_k (s, c, tc) = Some (true, (s', c', tc')) ->
  is_finished c = false -> is_finished c' = false.
Proof.
  induction n as [|n IH]; intros input s c tc s' c' tc' H Hc; cbn [get_links] in H.
  - inversion H; subst. exact Hc.
  - destruct (GetVarint64 input) as [[number input']|]; [|discriminate].
    destruct (find dm number) as [f|]; [|discriminate].
    destruct (rec_get f find_k c tc) as [[[s1 c1] tc1]|]; cbn [obind] in H;
      [|discriminate].
    destruct (negb (ok s1) || is_finished c1) eqn:E; [discriminate|].
    apply orb_false_iff in E. destruct E as [_ E].
    eapply IH; eassumption.
Qed.

Lemma get_from_map_unfinished rec_get dm k largest_key map_value s c tc
      s' c' tc' :
  get_from_map rec_get dm k largest_key map_value (s, c, tc)
  = Some (true, (s', c', tc')) ->
  is_finished c = false -> is_finished c' = false.
Proof.
  unfold get_from_map. intros H Hc.
  destruct (negb (ok (decode_status map_value))); [discriminate|].
  destruct (decode_header (fields map_value))
    as [[[[flags link_count] smallest_key] map_input]|]; [|discriminate].
  destruct (shrink_to_smallest k smallest_key _) as [find_k|]; [|discriminate].
  destruct (beyond_largest k largest_key _).
  - inversion H; subst. exact Hc.
  - match type of H with
    | obind ?X _ = _ => destruct X as [[completed [[s1 c1] tc1]]|] eqn:E
    end; cbn [obind] in H; [|discriminate].
    destruct completed; [|discriminate].
    inversion H; subst.
    apply get_links_unfinished in E.
    + exact E.
    + unfold shrink_ceiling.
      destruct (is_largest_user_key k largest_key); exact Hc.
Qed.

Lemma scan_passes_unfinished rec_get dm k : forall passed s c tc s' c' tc',
  scan_passes rec_get dm k passed (s, c, tc) (s', c', tc') ->
  is_finished c = false -> is_finished c' = false.
Proof.
  induction passed as [|[key value] passed IH]; intros s c tc s' c' tc' H Hc;
    cbn [scan_passes] in H.
  - inversion H; subst. exact Hc.
  - destruct H as ([[s1 c1] tc1] & E & H).
    eapply IH; [exact H|].
    eapply get_from_map_unfinished; eassumption.
Qed.

(** C8 (amended).  Once the reader of a map table is at hand, GET with
    an empty dependence map returns Corruption ("Composite sst depend
    files missing") and leaves the context alone; and with a dependence
    map that is not empty, when an element the scan comes to decodes,
    holds the query key, and its loop over the links reaches a file
    number absent from the map (every earlier link looked up with
    status OK and the lookup not finished), GET returns Corruption
    ("Map sst depend files missing") with the context as the earlier
    elements and links left it: no lookup was finished on the way. *)
Theorem get_missing_dependence :
  (forall fuel tc read_tier ngrc f k c s t tc1,
      purpose f = kMapSst ->
      find_reader tc f read_tier = (s, Some t, tc1) -> ok s = true ->
      Get (S fuel) tc read_tier ngrc f [] k c
      = Some (Corruption "Composite sst depend files missing", c, tc1)) /\
  (forall fuel tc read_tier ngrc f dm k c s t tc1
          passed largest_key map_value entries s0 c0 tc0
          flags link_count smallest_key find_k
          pre number rest s1 c1 tc2,
      purpose f = kMapSst ->
      find_reader tc f read_tier = (s, Some t, tc1) -> ok s = true ->
      empty dm = false ->
      seek_entries k (reader_entries t)
      = passed ++ (largest_key, map_value) :: entries ->
      scan_passes (fun f' find_k' c' tc' =>
                     Get fuel tc' read_tier ngrc f' dm find_k' c')
                  dm k passed (s, c, tc1) (s0, c0, tc0) ->
      ok (decode_status map_value) = true ->
      decode_header (fields map_value)
      = Some (flags, link_count, smallest_key,
              map FVarint pre ++ FVarint number :: rest) ->
      shrink_to_smallest k smallest_key (Z.testbit flags kIncludeSmallest)
      = Some find_k ->
      beyond_largest k largest_key (Z.testbit flags kIncludeLargest) = false ->
      (length pre < Z.to_nat link_count)%nat ->
      get_links (fun f' find_k' c' tc' =>
                   Get fuel tc' read_tier ngrc f' dm find_k' c')
                dm (length pre) (map FVarint pre) find_k
                (decode_status map_value,
                 shrink_ceiling k largest_key
                                (Z.testbit flags kIncludeLargest) c0,
                 tc0)
      = Some (true, (s1, c1, tc2)) ->
      find dm number = None ->
      Get (S fuel) tc read_tier ngrc f dm k c
      = Some (Corruption "Map sst depend files missing", c1, tc2) /\
      (pre = [] -> ctx_state c1 = ctx_state c0 /\ ctx_value c1 = ctx_value c0) /\
      (passed = [] -> c0 = c) /\
      (is_finished c = false -> is_finished c1 = false)).
Proof.
  split.
  - intros fuel tc read_tier ngrc f k c s t tc1 Hp Hr Hok.
    cbn [Get]. rewrite (row_cache_hit_map tc ngrc f k c Hp), Hr, Hok, Hp.
    reflexivity.
  - intros fuel tc read_tier ngrc f dm k c s t tc1 passed largest_key map_value
           entries s0 c0 tc0 flags link_count smallest_key find_k pre number
           rest s1 c1 tc2 Hp Hr Hok Hne Hseek Hpass Hd Hh Hs Hb Hn Hpre Hf.
    split; [|split; [|split]].
    + cbn [Get]. rewrite (row_cache_hit_map tc ngrc f k c Hp), Hr, Hok, Hp, Hne.
      cbn [obind negb is_map]. unfold RangeScan. rewrite Hseek.
      rewrite (scan_passed _ _ _ _ _ _ _ Hpass). cbn [scan].
      erewrite get_from_map_missing by eassumption. reflexivity.
    + intros ->. simpl in Hpre. inversion Hpre; subst.
      unfold shrink_ceiling. destruct (is_largest_user_key k largest_key); auto.
    + intros ->. cbn [scan_passes] in Hpass. congruence.
    + intros Hc.
      apply (get_links_unfinished _ _ _ _ _ _ _ _ _ _ _ Hpre).
      unfold shrink_ceiling.
      assert (H0 : is_finished c0 = false)
        by (eapply scan_passes_unfinished; eassumption).
      destruct (is_largest_user_key k largest_key); exact H0.
Qed.

(** C10 (amended).  With the read tier block-cache-only and the reader
    neither inlined in the descriptor nor in the cache, GET returns OK,
    never Incomplete, and leaves the cache as it is; it marks the key as
    possibly existing unless the row cache answers the lookup, in which
    case the context is the one replayed from the row cache. *)
Theorem get_block_cache_miss fuel tc ngrc f dm k c :
  fd_table_reader f = None ->
  Lookup (cache_ tc) (fd_number f) = None ->
  Get (S fuel) tc kBlockCacheTier ngrc f dm k c
  = Some (StatusOK,
          match row_cache_hit tc ngrc f k c with
          | Some c' => c'
          | None => MarkKeyMayExist c
          end,
          tc).
Proof.
  intros Hr Hl. cbn [Get].
  destruct (row_cache_hit tc ngrc f k c); [reflexivity|].
  unfold find_reader, FindTable. rewrite Hr, Hl. reflexivity.
Qed.

Section PartitionerOutput.

Context {value_types : ValueTypes}.

(* ===================================================================== *)
(** * More on the partitioner *)
(* ===================================================================== *)

Lemma IsEmptyMapSstElement_stable s o :
  IsEmptyMapSstElement (set_stable s o) = IsEmptyMapSstElement o.
Proof. reflexivity. Qed.

Lemma put_right_kept key incl r s s' :
  put_right key incl r s = Some s' ->
  forallb kept (tl (output s)) = true ->
  forallb kept (output s') = true.
Proof.
  unfold put_right. destruct (output s) as [|back rest]; [discriminate|].
  cbn [tl].
  destruct (_ || _) eqn:E1.
  { intros H; inversion H; subst; auto. }
  destruct (IsEmptyMapSstElement _) eqn:E2.
  { intros H; inversion H; subst; auto. }
  assert (K : kept (set_point1 key incl back) = true).
  { unfold kept. cbn [set_point1 dependence point0 point1 include0 include1].
    rewrite E1, E2. reflexivity. }
  destruct (unstable _ _); intros H Hr; inversion H; subst; cbn [output forallb];
    rewrite Hr, ?andb_true_r; [|exact K].
  unfold kept in *. rewrite IsEmptyMapSstElement_stable. exact K.
Qed.

Lemma put_open_output ty key incl src ca cb s s' :
  put_depend ty ca cb (put_left key incl src s) = Some s' ->
  tl (output s') = output s.
Proof.
  unfold put_depend, put_left. cbn [output]. intros H. inversion H. reflexivity.
Qed.

(** One iteration keeps every finished element passing the tests of
    [put_right]. *)
Lemma sweep_step_kept A B ty st st' :
  sweep_step A B ty st = Some st' ->
  forallb kept (finished st) = true ->
  forallb kept (finished st') = true.
Proof.
  unfold sweep_step, finished.
  destruct st as [ai bi ab bb s]. cbn [c_ai c_bi c_ab c_bb c_sweep].
  destruct (compare_bounds A B ai bi ab bb) as [c|]; [|discriminate].
  cbn [obind].
  destruct (dispatch A B ty ai bi ab bb (c <=? 0) (c >=? 0) s) as [s1|] eqn:D;
    [|discriminate].
  cbn [obind]. intros H. inversion H; subst; clear H.
  cbn [c_ab c_bb c_sweep].
  unfold dispatch in D.
  Opaque put_left put_depend put_right.
  destruct ab, bb, (c <=? 0), (c >=? 0); cbn [xorb orb] in *;
    try discriminate; intros K;
    repeat match type of D with
           | obind (nth_error ?l ?i) _ = Some _ =>
               destruct (nth_error l i); cbn [obind] in D; [|discriminate]
           | obind (put_right ?k ?i ?r ?s) _ = Some _ =>
               let E := fresh "E" in
               destruct (put_right k i r s) eqn:E; cbn [obind] in D;
               [apply put_right_kept in E; [|exact K]|discriminate]
           end;
    try (apply put_open_output in D; rewrite D; assumption);
    try (apply put_right_kept in D; assumption).
  Transparent put_left put_depend put_right.
Qed.

Lemma sweep_loop_kept A B ty fuel : forall st st',
  Running A B st -> (c_ai st < length A \/ c_bi st < length B)%nat ->
  forallb kept (finished st) = true ->
  sweep_loop A B ty fuel st = Some st' ->
  forallb kept (output (c_sweep st')) = true.
Proof.
  induction fuel as [|fuel IH]; intros st st' HR Hlt K; [discriminate|].
  cbn [sweep_loop].
  destruct (sweep_step_running A B ty st HR Hlt) as (st1 & Hs & HR1 & _).
  rewrite Hs. cbn [obind].
  pose proof (sweep_step_kept A B ty st st1 Hs K) as K1.
  destruct (sweep_continue A B st1) eqn:Hc.
  - apply IH; auto.
    unfold sweep_continue in Hc. destruct HR1 as (Ha & Hb & _).
    apply orb_true_iff in Hc.
    destruct Hc as [Hc|Hc]; apply negb_true_iff, Nat.eqb_neq in Hc; lia.
  - intros H. inversion H; subst; clear H.
    unfold sweep_continue in Hc. apply orb_false_iff in Hc.
    destruct Hc as [Ha Hb].
    apply negb_false_iff, Nat.eqb_eq in Ha, Hb.
    destruct HR1 as (_ & _ & Hab & Hbb & _).
    unfold finished in K1.
    destruct (c_ab st'); [specialize (Hab eq_refl); lia|].
    destruct (c_bb st'); [specialize (Hbb eq_refl); lia|].
    exact K1.
Qed.

Lemma forallb_rev {X} (f : X -> bool) l :
  forallb f (rev l) = forallb f l.
Proof.
  induction l as [|x l IH]; [reflexivity|].
  cbn [rev forallb]. rewrite forallb_app, IH. cbn [forallb].
  rewrite andb_true_r. apply andb_comm.
Qed.

Lemma partition_kept A B ty out :
  PartitionRangeWithDepend A B ty = Some out ->
  forallb kept out = true.
Proof.
  unfold PartitionRangeWithDepend.
  destruct (sweep_loop A B ty (sweep_fuel A B) (sweep_init)) as [st|] eqn:E;
    [|discriminate].
  cbn [obind]. intros H. inversion H; subst; clear H.
  rewrite forallb_rev.
  apply (sweep_loop_kept A B ty (sweep_fuel A B) sweep_init st);
    [ unfold Running, sweep_init; cbn; repeat split; try lia; discriminate
    | | reflexivity | exact E ].
  destruct A, B; cbn; try lia. discriminate E.
Qed.

(** ** A vector against the empty vector *)

Lemma kept_spec o :
  kept o = true <->
  dependence o <> [] /\ IsEmptyMapSstElement o = false /\
  (Compare (point1 o) (point0 o) = 0 -> include0 o = true /\ include1 o = true).
Proof.
  unfold kept. destruct (dependence o) eqn:Ed; cbn [orb negb andb].
  - split; [discriminate|]. intros [H _]. congruence.
  - destruct (IsEmptyMapSstElement o); cbn [negb];
      rewrite ?andb_false_r, ?andb_true_r.
    + split; [discriminate|]. intros (_ & H & _). discriminate.
    + destruct (Z.eqb_spec (Compare (point1 o) (point0 o)) 0) as [E|E];
        cbn [andb]; destruct (include0 o), (include1 o); cbn;
        split; intros H; try discriminate; try reflexivity;
        repeat split; try discriminate; try congruence;
        try (destruct H as (_ & _ & H); specialize (H E); destruct H;
             discriminate).
Qed.

(** X2.  No range the partitioner returns has an empty link list, is an
    empty map element as [IsEmptyMapSstElement] tells them, or sits on a
    single key with an exclusive end: [put_right] drops every such
    element. *)
Theorem partition_output_kept A B ty out :
  PartitionRangeWithDepend A B ty = Some out ->
  forall o, In o out ->
    dependence o <> [] /\ IsEmptyMapSstElement o = false /\
    (Compare (point1 o) (point0 o) = 0 ->
     include0 o = true /\ include1 o = true).
Proof.
  intros H o Hin. apply kept_spec.
  apply partition_kept in H. rewrite forallb_forall in H. auto.
Qed.

(** X5.  In DELETE mode, for sorted inputs, every output range lies
    within one range of [ranges_a], whose links and [no_records] flag it
    carries, and apart from every range of [ranges_b]; it is stable only
    if that range of [ranges_a] is stable and has the same bounds. *)
Theorem delete_dependence A B :
  sorted_ranges A = true -> sorted_ranges B = true ->
  A <> [] \/ B <> [] ->
  exists out,
    PartitionRangeWithDepend A B kDelete = Some out /\
    forall o, In o out ->
      (exists ra, In ra A /\ within o ra = true /\
                  dependence o = dependence ra /\
                  no_records o = no_records ra /\
                  (stable o = true -> stable ra = true /\ same_bounds o ra)) /\
      (forall rb, In rb B ->
                  ends_before rb o = true \/ ends_before o rb = true).
Proof.
  intros HA HB Hne.
  apply sorted_ranges_WF in HA. apply sorted_ranges_WF in HB.
  destruct (partition_inv A B kDelete HA HB Hne)
    as (out & F & Hp & (_ & HP & _) & _).
  exists (rev out). split; [assumption|].
  intros o Hin. apply in_rev in Hin. rewrite Forall_forall in HP.
  destruct (HP o Hin)
    as (Hne' & Hd & ca & cb & RA & RB & Hn & Hdep & Hst & _).
  unfold depend_fields in *.
  destruct ca as [a|]; [|simpl in Hdep; congruence].
  destruct cb as [b|]; [simpl in Hdep; congruence|].
  simpl in *. destruct RA as [Ia [I1 I2]]. split.
  - exists a. split; [assumption|]. split.
    { apply within_spec. split; assumption. }
    split; [assumption|]. split; [assumption|].
    intros Hs. destruct (Hst Hs) as (r & [[H _]|[H _]] & H1 & H2);
      [|discriminate].
    inversion H; subst. auto.
  - intros rb Ib. destruct (RB rb Ib) as [H|H]; [left|right];
      apply ends_before_spec; assumption.
Qed.

(** X6.  [CompInclude] is antisymmetric: exchanging the two endpoints
    and negating the key comparison negates the answer; and it answers 0
    only for equal keys on bounds of the same side and inclusivity. *)
Theorem CompInclude_antisym c ab ai bb bi :
  CompInclude (- c) bb bi ab ai = - CompInclude c ab ai bb bi /\
  (CompInclude c ab ai bb bi = 0 <-> c = 0 /\ ab = bb /\ ai = bi).
Proof.
  unfold CompInclude.
  destruct (Z.eqb_spec c 0) as [E|E].
  - subst c. cbn [Z.opp Z.eqb negb].
    destruct ab, ai, bb, bi; cbn; split; try reflexivity;
      split; intros H; try discriminate; try (repeat split; reflexivity);
      destruct H as (_ & H1 & H2); discriminate.
  - destruct (Z.eqb_spec (- c) 0) as [E'|E']; [lia|]. cbn [negb].
    split; [reflexivity|]. split; [intros; lia|intros [H _]; lia].
Qed.

End PartitionerOutput.

Section Builder.

Context {value_types : ValueTypes}.

(* ===================================================================== *)
(** * More on the range loader *)
(* ===================================================================== *)

Lemma load_map_entries_good good : forall rest ranges,
  forallb entry_ok good = true ->
  load_map_entries (good ++ rest) ranges
  = load_map_entries rest (ranges ++ map RangeOfElement (entry_elements good)).
Proof.
  induction good as [|e good IH]; intros rest ranges H; cbn [app].
  - cbn. rewrite app_nil_r. reflexivity.
  - cbn [forallb] in H. apply andb_true_iff in H. destruct H as [He Hg].
    unfold entry_ok in He. apply andb_true_iff in He. destruct He as [H1 H2].
    cbn [load_map_entries entry_elements]. rewrite H1. cbn [negb].
    destruct (e_element e) as [el|]; [|discriminate].
    rewrite IH by assumption. cbn [map]. rewrite <- app_assoc. reflexivity.
Qed.

Lemma forallb_stable_elements es :
  forallb stable (map RangeOfElement es) = true.
Proof. induction es as [|e es IH]; [reflexivity|]. cbn. exact IH. Qed.

(** X7.  A map table whose iterator is in order and whose entries all
    decode contributes one range per entry, in order, each with the
    bounds, flags and links of its element and marked stable. *)
Theorem load_map_table iterator_cache f ranges b :
  purpose f = kMapSst ->
  ok (iter_status (GetIterator iterator_cache (fd_number f))) = true ->
  forallb entry_ok (iter_entries (GetIterator iterator_cache (fd_number f)))
  = true ->
  let loaded :=
    map RangeOfElement
        (entry_elements (iter_entries (GetIterator iterator_cache (fd_number f))))
  in
  exists b',
    LoadRangeWithDepend iterator_cache [f] (ranges, b)
    = (StatusOK, (ranges ++ loaded, b')) /\
    forallb stable loaded = true.
Proof.
  intros Hp Hok Hall loaded.
  cbn [LoadRangeWithDepend]. unfold load_file. rewrite Hp, Hok. cbn [negb].
  pose proof (load_map_entries_good _ [] ranges Hall) as E.
  rewrite app_nil_r in E. rewrite E. cbn [load_map_entries ok StatusOK code negb].
  eexists. split; [reflexivity|]. apply forallb_stable_elements.
Qed.

(** X8.  Loading a map table stops at the first entry that does not
    decode: the status is that of [inplace_decode] if it failed, a
    corruption otherwise; the ranges of the entries before it stay
    appended and the bound builder is left as it was. *)
Theorem load_map_table_error iterator_cache f ranges b good bad rest :
  purpose f = kMapSst ->
  ok (iter_status (GetIterator iterator_cache (fd_number f))) = true ->
  iter_entries (GetIterator iterator_cache (fd_number f))
  = good ++ bad :: rest ->
  forallb entry_ok good = true ->
  entry_ok bad = false ->
  LoadRangeWithDepend iterator_cache [f] (ranges, b)
  = (entry_error bad,
     (ranges ++ map RangeOfElement (entry_elements good), b)) /\
  ok (entry_error bad) = false.
Proof.
  intros Hp Hok He Hg Hb.
  cbn [LoadRangeWithDepend]. unfold load_file. rewrite Hp, Hok, He. cbn [negb].
  rewrite (load_map_entries_good good (bad :: rest) ranges Hg).
  cbn [load_map_entries]. unfold entry_error, entry_ok in *.
  destruct (ok (e_decode bad)) eqn:Ed; cbn [negb andb] in *.
  - destruct (e_element bad); [discriminate|].
    cbn. split; reflexivity.
  - repeat (rewrite ?Ed; cbn [negb]). split; [reflexivity|assumption].
Qed.

Lemma Compare_le_trans a b c :
  Compare a b <= 0 -> Compare b c <= 0 -> Compare a c <= 0.
Proof.
  intros H1 H2.
  destruct (Compare_cases a b) as [[K1 E1]|[[K1 E1]|[K1 E1]]];
    destruct (Compare_cases b c) as [[K2 E2]|[[K2 E2]|[K2 E2]]];
    destruct (Compare_cases a c) as [[K3 E3]|[[K3 E3]|[K3 E3]]];
    rewrite ?E1, ?E2, ?E3 in *; try lia;
    unfold klt, keq in *; lia.
Qed.

Lemma Compare_flip a b : Compare a b >= 0 -> Compare b a <= 0.
Proof.
  intros H.
  destruct (Compare_cases a b) as [[K1 E1]|[[K1 E1]|[K1 E1]]];
    destruct (Compare_cases b a) as [[K2 E2]|[[K2 E2]|[K2 E2]]];
    rewrite ?E1, ?E2 in *; try lia; unfold klt, keq in *; lia.
Qed.

Lemma load_file_bounds iterator_cache f ranges b s ranges' ob :
  load_file iterator_cache f (ranges, Some b) = (s, (ranges', ob)) ->
  ok s = true ->
  exists b', ob = Some b' /\ bounds_file iterator_cache b' f /\
             forall g, bounds_file iterator_cache b g ->
                       bounds_file iterator_cache b' g.
Proof.
  unfold load_file.
  destruct (match purpose f with kMapSst => _ | kEssenceSst => _ end)
    as [s0 r0].
  destruct (ok s0) eqn:E0; cbn [negb].
  2:{ intros H Hs. inversion H; subst. congruence. }
  intros H _. inversion H; subst; clear H.
  eexists. split; [reflexivity|]. unfold bounds_file, Update.
  cbn [b_smallest b_largest smallest_seqno largest_seqno creation_time].
  split.
  - split; [|lia]. eexists. eexists. split; [reflexivity|].
    split; [reflexivity|]. split.
    + destruct (b_smallest b) as [k|]; [|rewrite Compare_refl; lia].
      destruct (Z.ltb_spec (Compare (smallest f) k) 0);
        [rewrite Compare_refl; lia|apply Compare_flip; lia].
    + destruct (b_largest b) as [k|]; [|rewrite Compare_refl; lia].
      destruct (Z.gtb_spec (Compare (largest f) k) 0);
        [rewrite Compare_refl; lia|lia].
  - intros g ((ks & kl & Es & El & Hs & Hl) & H1 & H2 & H3).
    rewrite Es, El. split; [|lia].
    eexists. eexists. split; [reflexivity|]. split; [reflexivity|]. split.
    + destruct (Z.ltb_spec (Compare (smallest f) ks) 0); [|assumption].
      apply (Compare_le_trans _ ks); [lia|assumption].
    + destruct (Z.gtb_spec (Compare (largest f) kl) 0); [|assumption].
      apply (Compare_le_trans _ kl); [assumption|].
      apply Compare_flip. lia.
Qed.

(** X10.  After a load that succeeds the bound builder encloses every
    file it was given: its smallest key is no later than the file's, its
    largest key no earlier, its sequence numbers span the file's, and its
    creation time is at least that of the file's table. *)
Theorem load_bounds iterator_cache fs : forall ranges b s ranges' ob,
  LoadRangeWithDepend iterator_cache fs (ranges, Some b) = (s, (ranges', ob)) ->
  ok s = true ->
  exists b', ob = Some b' /\
             forall f, In f fs -> bounds_file iterator_cache b' f.
Proof.
  assert (G : forall ranges b s ranges' ob,
    LoadRangeWithDepend iterator_cache fs (ranges, Some b)
    = (s, (ranges', ob)) ->
    ok s = true ->
    exists b', ob = Some b' /\
      (forall f, In f fs -> bounds_file iterator_cache b' f) /\
      (forall g, bounds_file iterator_cache b g ->
                 bounds_file iterator_cache b' g)).
  { induction fs as [|f fs IH]; intros ranges b s ranges' ob H Hs.
    - cbn in H. inversion H; subst. exists b. split; [reflexivity|].
      split; [intros f []|auto].
    - cbn [LoadRangeWithDepend] in H.
      destruct (load_file iterator_cache f (ranges, Some b))
        as [s1 [r1 ob1]] eqn:E1.
      destruct (ok s1) eqn:Hs1; cbn [negb] in H.
      2:{ inversion H; subst. congruence. }
      destruct (load_file_bounds _ _ _ _ _ _ _ E1 Hs1) as (b1 & -> & Hf & Hm).
      destruct (IH _ _ _ _ _ H Hs) as (b' & -> & Hall & Hm').
      exists b'. split; [reflexivity|]. split.
      + intros g [<- |Hin]; auto.
      + auto. }
  intros ranges b s ranges' ob H Hs.
  destruct (G _ _ _ _ _ H Hs) as (b' & E & Hall & _). eauto.
Qed.

(* ===================================================================== *)
(** * More on the map element iterator *)
(* ===================================================================== *)

Lemma subsequence_nil l : subsequence [] l.
Proof. destruct l; cbn; auto. Qed.

Lemma subsequence_refl l : subsequence l l.
Proof. induction l as [|x l IH]; cbn; auto. Qed.

Lemma subsequence_cons s x l : subsequence s l -> subsequence s (x :: l).
Proof. destruct s; cbn; auto. Qed.

Lemma subsequence_insert x : forall l n s,
  subsequence s l -> subsequence s (firstn n l ++ x :: skipn n l).
Proof.
  induction l as [|y l IH]; intros n s H.
  - cbn in H. subst s. apply subsequence_nil.
  - destruct n as [|n]; cbn [firstn skipn app].
    + apply subsequence_cons. exact H.
    + destruct s as [|z s]; [exact I|].
      cbn in H. cbn [subsequence].
      destruct H as [[-> H]|H]; [left; split; auto|right; auto].
Qed.

Lemma subsequence_trans : forall l s t,
  subsequence s t -> subsequence t l -> subsequence s l.
Proof.
  induction l as [|y l IH]; intros s t H1 H2.
  - cbn in H2. subst t. destruct s; cbn in *; auto.
  - destruct t as [|z t].
    + cbn in H1. subst s. exact I.
    + destruct s as [|x s]; [exact I|].
      cbn in H2. cbn [subsequence].
      destruct H2 as [[-> H2]|H2].
      * cbn in H1. destruct H1 as [[-> H1]|H1].
        -- left. split; [reflexivity|]. eapply IH; eauto.
        -- right. eapply IH; eauto.
      * right. eapply IH; eauto.
Qed.

Lemma find_pos_found : forall lim links fn,
  (find_pos links lim fn < lim)%nat ->
  In fn (map file_number links).
Proof.
  induction lim as [|n IH]; intros [|x rest] fn H; cbn in H; try lia.
  cbn [map In].
  destruct (file_number x =? fn) eqn:E.
  - left. apply Z.eqb_eq. exact E.
  - right. apply (IH rest fn). lia.
Qed.

Lemma find_pos_le : forall lim links fn,
  (find_pos links lim fn <= lim)%nat.
Proof.
  induction lim as [|n IH]; intros [|x rest] fn; cbn; try lia.
  destruct (file_number x =? fn); [lia|]. specialize (IH rest fn). lia.
Qed.

Lemma In_insert {X} (x y : X) l n :
  In y (firstn n l ++ x :: skipn n l) <-> y = x \/ In y l.
Proof.
  rewrite <- (firstn_skipn n l) at 3.
  rewrite !in_app_iff. cbn [In]. intuition congruence.
Qed.

Lemma merge_step_spec links pos rit :
  let '(links', pos') := merge_step (links, pos) rit in
  (forall n, In n (map file_number links') <->
             In n (map file_number links) \/ n = file_number rit) /\
  subsequence links links' /\
  (forall x, In x links' -> In x links \/ x = rit).
Proof.
  unfold merge_step.
  destruct (Nat.eqb_spec (find_pos links pos (file_number rit)) pos) as [E|E].
  - rewrite E. split; [|split].
    + intros n. rewrite !in_map_iff. split.
      * intros (x & Hx & Hin). apply In_insert in Hin.
        destruct Hin as [->|Hin]; [right; auto|left; eauto].
      * intros [(x & Hx & Hin)| ->].
        -- exists x. split; [assumption|]. apply In_insert. auto.
        -- exists rit. split; [reflexivity|]. apply In_insert. auto.
    + apply subsequence_insert, subsequence_refl.
    + intros x Hin. apply In_insert in Hin. tauto.
  - split; [|split].
    + intros n. split; [auto|]. intros [H| ->]; [assumption|].
      apply (find_pos_found pos).
      pose proof (find_pos_le pos links (file_number rit)). lia.
    + apply subsequence_refl.
    + auto.
Qed.

Lemma merge_fold_spec d : forall links pos,
  let links' := fst (fold_left merge_step d (links, pos)) in
  (forall n, In n (map file_number links') <->
             In n (map file_number links) \/ In n (map file_number d)) /\
  subsequence links links' /\
  (forall x, In x links' -> In x links \/ In x d).
Proof.
  induction d as [|rit d IH]; intros links pos; cbn [fold_left].
  - cbn. split; [intros n; tauto|]. split; [apply subsequence_refl|auto].
  - pose proof (merge_step_spec links pos rit) as S1.
    destruct (merge_step (links, pos) rit) as [l1 p1].
    destruct S1 as (M1 & Q1 & I1).
    destruct (IH l1 p1) as (M2 & Q2 & I2).
    split; [|split].
    + intros n. rewrite M2, M1. cbn [map In]. intuition congruence.
    + eapply subsequence_trans; eauto.
    + intros x Hin. cbn [In]. destruct (I2 x Hin) as [H|H]; [|auto].
      destruct (I1 x H); auto.
Qed.

Lemma merge_depend_spec links d :
  (forall n, In n (map file_number (merge_depend links d)) <->
             In n (map file_number links) \/ In n (map file_number d)) /\
  subsequence links (merge_depend links d) /\
  (forall x, In x (merge_depend links d) -> In x links \/ In x d).
Proof.
  unfold merge_depend.
  destruct (merge_fold_spec (rev d) links (length links)) as (M & Q & I1).
  split; [|split].
  - intros n. rewrite M, map_rev, <- in_rev. reflexivity.
  - exact Q.
  - intros x Hin. destruct (I1 x Hin) as [H|H]; [auto|].
    right. apply in_rev. exact H.
Qed.

(** X11.  [merge_depend] keeps the links of the element in their order
    and adds links of the other list only: the file numbers of the
    result are those of the two lists together. *)
Theorem merge_depend_links links d :
  (forall n, In n (map file_number (merge_depend links d)) <->
             In n (map file_number links) \/ In n (map file_number d)) /\
  subsequence links (merge_depend links d) /\
  (forall x, In x (merge_depend links d) -> In x links \/ In x d).
Proof. apply merge_depend_spec. Qed.

Lemma forallb_map_comp {X Y} (f : Y -> bool) (g : X -> Y) l :
  forallb f (map g l) = forallb (fun x => f (g x)) l.
Proof. induction l as [|x l IH]; cbn; [reflexivity|]. rewrite IH. reflexivity. Qed.

(** X9.  With the iterators of all link targets in order, the loop over
    the links of an unstable element visits every link, each tightened
    on its own table, and [no_records] stays set exactly when no link
    yields a record. *)
Theorem resolve_links_all iterator_cache start end_ incl_s incl_e links
        visited no_rec deps :
  (forall l, In l links ->
             ok (iter_status (GetIterator iterator_cache (file_number l)))
             = true) ->
  exists deps',
    resolve_links iterator_cache start end_ incl_s incl_e links visited
                  no_rec deps
    = (StatusOK,
       (visited
        ++ map (fun l => fst (tighten_link
                                (GetIterator iterator_cache (file_number l))
                                start end_ incl_s incl_e l)) links,
        no_rec
        && forallb (fun l => negb (snd (tighten_link
                                          (GetIterator iterator_cache
                                                       (file_number l))
                                          start end_ incl_s incl_e l)))
                   links,
        deps')).
Proof.
  intros H.
  destruct (resolve_links_no_records iterator_cache start end_ incl_s incl_e
              links visited no_rec deps H) as [deps' E].
  exists deps'. rewrite E. rewrite map_map, forallb_map_comp. reflexivity.
Qed.

Lemma PrepareNext_stable iterator_cache it e es :
  where_ it = map RangeOfElement (e :: es) ->
  separate (map RangeOfElement (e :: es)) = true ->
  exists it',
    PrepareNext iterator_cache it = it' /\
    where_ it' = map RangeOfElement es /\
    buffer_ it' = Some e /\ status_ it' = status_ it.
Proof.
  intros Hw Hs. unfold PrepareNext. rewrite Hw. cbn [map].
  destruct e as [sk lk isk ilk nr ln].
  destruct es as [|e1 es].
  - cbn. eexists. split; [reflexivity|]. cbn. auto.
  - cbn [map separate] in Hs |- *.
    apply andb_true_iff in Hs. destruct Hs as [Hs _].
    apply andb_true_iff in Hs. destruct Hs as [H0 H1].
    apply negb_true_iff in H0, H1.
    cbn [RangeOfElement point0 point1 include0 include1 stable dependence
         no_records smallest_key_ largest_key_ include_smallest_
         include_largest_ no_records_ link_] in *.
    rewrite H0. cbv beta iota zeta.
    change (point1 (RangeOfElement e1)) with (largest_key_ e1). rewrite H1.
    eexists. split; [reflexivity|]. cbn. auto.
Qed.

Lemma drain_stable iterator_cache : forall es it added fuel,
  where_ it = map RangeOfElement es ->
  separate (map RangeOfElement es) = true ->
  (length es < fuel)%nat ->
  exists it',
    drain fuel iterator_cache (PrepareNext iterator_cache it) added
    = (added ++ es, it') /\
    buffer_ it' = None /\ status_ it' = status_ it.
Proof.
  induction es as [|e es IH]; intros it added fuel Hw Hs Hf.
  - destruct fuel as [|fuel]; [cbn in Hf; lia|].
    unfold PrepareNext. rewrite Hw. cbn [map drain buffer_].
    eexists. rewrite app_nil_r. split; [reflexivity|]. cbn. auto.
  - destruct fuel as [|fuel]; [cbn in Hf; lia|].
    destruct (PrepareNext_stable iterator_cache it e es Hw Hs)
      as (it1 & E1 & W1 & B1 & S1).
    rewrite E1. cbn [drain]. rewrite B1.
    destruct (IH it1 (added ++ [e]) fuel W1) as (it' & E' & B' & S').
    + cbn [map separate] in Hs. destruct (map RangeOfElement es) eqn:Em;
        [reflexivity|].
      apply andb_true_iff in Hs. apply Hs.
    + cbn [length] in Hf. lia.
    + exists it'. rewrite E', <- app_assoc. cbn [app].
      split; [reflexivity|]. split; [assumption|congruence].
Qed.

(** X12.  Written back, the elements of a map table come out as they
    went in: over the ranges loaded from elements of which no two
    neighbours share a lower or an upper key, the iterator yields exactly
    those elements, in order, whatever the linked tables hold, and ends
    not valid with status OK. *)
Theorem stable_elements_round_trip iterator_cache es :
  separate (map RangeOfElement es) = true ->
  let ranges := map RangeOfElement es in
  exists it,
    drain (S (length ranges)) iterator_cache
          (SeekToFirst iterator_cache ranges (new_iterator ranges)) []
    = (es, it) /\
    Valid it = false /\ status_ it = StatusOK.
Proof.
  intros Hs ranges. unfold SeekToFirst.
  destruct (drain_stable iterator_cache es
              (mkIter ranges (map_elements_ (new_iterator ranges))
                      (buffer_ (new_iterator ranges))
                      (status_ (new_iterator ranges))
                      (dependence_build_ (new_iterator ranges))
                      (sst_read_amp_ (new_iterator ranges)))
              [] (S (length ranges)))
    as (it' & E & B & S'); auto.
  - unfold ranges. rewrite length_map. lia.
  - exists it'. split; [exact E|]. unfold Valid. rewrite B. auto.
Qed.

(** ** The file numbers the iterator collects *)

Lemma emplace_spec n s :
  NoDup s ->
  NoDup (emplace n s) /\ forall m, In m (emplace n s) <-> m = n \/ In m s.
Proof.
  intros H. unfold emplace. destruct (existsb (Z.eqb n) s) eqn:E.
  - split; [assumption|]. intros m. split; [auto|].
    intros [-> |Hm]; [|assumption].
    apply existsb_exists in E. destruct E as (x & Hx & Ex).
    apply Z.eqb_eq in Ex. subst. assumption.
  - split.
    + apply NoDup_app; [assumption|repeat constructor; intros []|].
      intros x Hx [<- |[]].
      assert (existsb (Z.eqb n) s = true)
        by (apply existsb_exists; exists n; split; [auto|apply Z.eqb_refl]).
      congruence.
    + intros m. rewrite in_app_iff. cbn [In]. intuition congruence.
Qed.

Lemma emplace_links links : forall s,
  NoDup s ->
  let s' := fold_left (fun s l => emplace (file_number l) s) links s in
  NoDup s' /\
  forall m, In m s' <-> In m s \/ In m (map file_number links).
Proof.
  induction links as [|l links IH]; intros s H; cbn [fold_left map In].
  - split; [assumption|]. intros m. tauto.
  - destruct (emplace_spec (file_number l) s H) as [N1 M1].
    destruct (IH _ N1) as [N2 M2]. split; [assumption|].
    intros m. rewrite M2, M1. intuition congruence.
Qed.

Lemma resolve_links_files iterator_cache start end_ incl_s incl_e :
  forall links visited no_rec deps s links' nr deps',
  resolve_links iterator_cache start end_ incl_s incl_e links visited no_rec deps
  = (s, (links', nr, deps')) ->
  NoDup deps ->
  NoDup deps' /\
  (forall m, In m deps' -> In m deps \/ In m (map file_number links)) /\
  (forall m, In m deps -> In m deps') /\
  (ok s = true -> forall m, In m (map file_number links) -> In m deps').
Proof.
  induction links as [|l links IH];
    intros visited no_rec deps s links' nr deps' H N; cbn [resolve_links] in H.
  - inversion H; subst. split; [assumption|]. cbn. tauto.
  - destruct (emplace_spec (file_number l) deps N) as [N1 M1].
    destruct (ok (iter_status (GetIterator iterator_cache (file_number l))))
      eqn:Eok; cbn [negb] in H.
    + destruct (tighten_link _ start end_ incl_s incl_e l) as [l1 found].
      destruct (IH _ _ _ _ _ _ _ H N1) as (N2 & S2 & K2 & C2).
      split; [assumption|]. cbn [map In]. split; [|split].
      * intros m Hm. destruct (S2 m Hm) as [Hd|Hd]; [|auto].
        apply M1 in Hd. destruct Hd as [-> |Hd]; auto.
      * intros m Hm. apply K2, M1. auto.
      * intros Hs m [<- |Hm]; [apply K2, M1; auto|auto].
    + inversion H; subst. split; [assumption|]. cbn [map In]. split; [|split].
      * intros m Hm. apply M1 in Hm. destruct Hm as [-> |Hm]; auto.
      * intros m Hm. apply M1. auto.
      * intros Hs. congruence.
Qed.

Lemma linked_files_app l1 l2 :
  linked_files (l1 ++ l2) = linked_files l1 ++ linked_files l2.
Proof. unfold linked_files. apply flat_map_app. Qed.

Lemma emit_files iterator_cache it start end1 incl_s incl_e nr link2 stable2 w3
      consumed :
  NoDup (dependence_build_ it) ->
  where_ it = consumed ++ w3 -> consumed <> [] ->
  (forall m, In m (map file_number link2) <-> In m (linked_files consumed)) ->
  step_files it
    (emit iterator_cache it start end1 incl_s incl_e nr link2 stable2 w3)
    consumed.
Proof.
  intros N Hc Hne Hl. unfold step_files, emit.
  assert (Hlen : (length w3 < length (where_ it))%nat).
  { rewrite Hc, length_app. destruct consumed; [congruence|cbn; lia]. }
  destruct stable2.
  - cbn [where_ buffer_ status_ dependence_build_].
    destruct (emplace_links link2 _ N) as [N' M'].
    split; [assumption|]. split; [assumption|]. split; [|split; [|split]].
    + intros m Hm. apply M' in Hm. rewrite <- Hl. exact Hm.
    + intros m Hm. apply M'. auto.
    + intros Hs. split; [assumption|]. split; [|discriminate].
      intros m Hm. apply M'. right. apply Hl. exact Hm.
    + intros _. exact Hlen.
  - destruct (resolve_links iterator_cache start end1 incl_s incl_e
                            link2 [] true (dependence_build_ it))
      as [s [[link3 no_rec] deps]] eqn:ER.
    destruct (resolve_links_files _ _ _ _ _ _ _ _ _ _ _ _ _ ER N)
      as (N' & S' & K' & C').
    destruct (ok s) eqn:Es; cbn [negb where_ buffer_ status_ dependence_build_].
    + split; [assumption|]. split; [assumption|]. split; [|split; [|split]].
      * intros m Hm. rewrite <- Hl. auto.
      * assumption.
      * intros Hs. split; [assumption|]. split; [|discriminate].
        intros m Hm. apply C'; [reflexivity|]. apply Hl. exact Hm.
      * intros _. exact Hlen.
    + split; [assumption|]. split; [assumption|]. split; [|split; [|split]].
      * intros m Hm. rewrite <- Hl. auto.
      * assumption.
      * intros Hs. congruence.
      * intros _. exact Hlen.
Qed.

Lemma linked_files_merge2 r r1 m :
  In m (map file_number (merge_depend (dependence r) (dependence r1))) <->
  In m (linked_files [r; r1]).
Proof.
  rewrite (proj1 (merge_depend_spec _ _)).
  unfold linked_files. cbn. rewrite app_nil_r, in_app_iff. tauto.
Qed.

Lemma linked_files_merge3 r r1 r2 m :
  In m (map file_number
          (merge_depend (merge_depend (dependence r) (dependence r1))
                        (dependence r2))) <->
  In m (linked_files [r; r1; r2]).
Proof.
  rewrite (proj1 (merge_depend_spec _ _)).
  rewrite (proj1 (merge_depend_spec _ _)).
  unfold linked_files. cbn. rewrite app_nil_r, !in_app_iff. tauto.
Qed.

Lemma linked_files_one r m :
  In m (map file_number (dependence r)) <-> In m (linked_files [r]).
Proof. unfold linked_files. cbn. rewrite app_nil_r. tauto. Qed.

(** One step of the iterator: the ranges it consumes and the file
    numbers it collects. *)
Lemma PrepareNext_files iterator_cache it :
  NoDup (dependence_build_ it) ->
  exists consumed,
    step_files it (PrepareNext iterator_cache it) consumed.
Proof.
  intros N. unfold PrepareNext.
  destruct (where_ it) as [|r w1] eqn:Hw.
  { exists []. unfold step_files. rewrite Hw. cbn.
    repeat split; auto; try congruence. intros m []. }
  destruct w1 as [|r1 w'].
  - exists [r].
    apply (emit_files iterator_cache it (point0 r) (point1 r) (include0 r)
             (include1 r) (no_records r) (dependence r) (stable r) [] [r]);
      auto; [discriminate|apply linked_files_one].
  - destruct (Compare (point0 r) (point0 r1) =? 0).
    + destruct w' as [|r2 w''].
      * exists [r; r1].
        apply (emit_files iterator_cache it (point0 r) (point1 r1) (include0 r)
                 (include1 r1) (no_records r)
                 (merge_depend (dependence r) (dependence r1)) false []
                 [r; r1]);
          auto; [discriminate|apply linked_files_merge2].
      * destruct (Compare (point1 r1) (point1 r2) =? 0).
        -- exists [r; r1; r2].
           apply (emit_files iterator_cache it (point0 r) (point1 r1)
                    (include0 r) true (no_records r)
                    (merge_depend (merge_depend (dependence r) (dependence r1))
                                  (dependence r2)) false w''
                    [r; r1; r2]);
             auto; [discriminate|apply linked_files_merge3].
        -- exists [r; r1].
           apply (emit_files iterator_cache it (point0 r) (point1 r1)
                    (include0 r) (include1 r1) (no_records r)
                    (merge_depend (dependence r) (dependence r1)) false
                    (r2 :: w'') [r; r1]);
             auto; [discriminate|apply linked_files_merge2].
    + destruct (Compare (point1 r) (point1 r1) =? 0).
      * exists [r; r1].
        apply (emit_files iterator_cache it (point0 r) (point1 r) (include0 r)
                 true (no_records r)
                 (merge_depend (dependence r) (dependence r1)) false w'
                 [r; r1]);
          auto; [discriminate|apply linked_files_merge2].
      * exists [r].
        apply (emit_files iterator_cache it (point0 r) (point1 r) (include0 r)
                 (include1 r) (no_records r) (dependence r) (stable r)
                 (r1 :: w') [r]);
          auto; [discriminate|apply linked_files_one].
Qed.

Lemma drain_files iterator_cache ranges : forall fuel it added consumed0,
  ranges = consumed0 ++ where_ it ->
  NoDup (dependence_build_ it) ->
  (forall m, In m (dependence_build_ it) -> In m (linked_files consumed0)) ->
  (ok (status_ it) = true ->
   forall m, In m (linked_files consumed0) -> In m (dependence_build_ it)) ->
  (ok (status_ it) = true -> buffer_ it = None -> where_ it = []) ->
  (buffer_ it <> None -> (length (where_ it) < fuel)%nat) ->
  let it' := snd (drain fuel iterator_cache it added) in
  NoDup (dependence_build_ it') /\
  (forall m, In m (dependence_build_ it') -> In m (linked_files ranges)) /\
  (ok (status_ it') = true ->
   forall m, In m (linked_files ranges) -> In m (dependence_build_ it')).
Proof.
  assert (Hend : forall it consumed0,
    ranges = consumed0 ++ where_ it ->
    NoDup (dependence_build_ it) ->
    (forall m, In m (dependence_build_ it) -> In m (linked_files consumed0)) ->
    (ok (status_ it) = true ->
     forall m, In m (linked_files consumed0) -> In m (dependence_build_ it)) ->
    (ok (status_ it) = true -> where_ it = []) ->
    NoDup (dependence_build_ it) /\
    (forall m, In m (dependence_build_ it) -> In m (linked_files ranges)) /\
    (ok (status_ it) = true ->
     forall m, In m (linked_files ranges) -> In m (dependence_build_ it))).
  { intros it consumed0 Hr N Hsub Hsup Hw. split; [assumption|]. split.
    - intros m Hm. rewrite Hr, linked_files_app, in_app_iff. auto.
    - intros Hs m Hm. rewrite Hr, (Hw Hs), app_nil_r in Hm. auto. }
  induction fuel as [|fuel IH]; intros it added consumed0 Hr N Hsub Hsup Hw Hf.
  - cbn [drain snd]. apply (Hend it consumed0); auto.
    intros Hs. apply Hw; [assumption|].
    destruct (buffer_ it) eqn:E; [|reflexivity].
    assert (length (where_ it) < 0)%nat by (apply Hf; discriminate). lia.
  - cbn [drain]. destruct (buffer_ it) as [e|] eqn:E.
    2:{ cbn [snd]. apply (Hend it consumed0); auto. }
    destruct (PrepareNext_files iterator_cache it N)
      as (consumed & Hc & N1 & Hsub1 & Hk1 & Hok1 & Hlen1).
    apply (IH _ _ (consumed0 ++ consumed)).
    + rewrite Hr, Hc, app_assoc. reflexivity.
    + assumption.
    + intros m Hm. rewrite linked_files_app, in_app_iff.
      destruct (Hsub1 m Hm); auto.
    + intros Hs m Hm. destruct (Hok1 Hs) as (Hs0 & Hin & _).
      rewrite linked_files_app, in_app_iff in Hm.
      destruct Hm as [Hm|Hm]; auto.
    + intros Hs Hb. destruct (Hok1 Hs) as (_ & _ & Hnil).
      specialize (Hnil Hb). rewrite Hnil in Hc.
      symmetry in Hc. apply app_eq_nil in Hc. tauto.
    + intros Hb. specialize (Hlen1 Hb).
      assert (length (where_ it) < S fuel)%nat by (apply Hf; congruence). lia.
Qed.

Lemma insert_sorted_spec n : forall l,
  StronglySorted Z.lt l -> ~ In n l ->
  StronglySorted Z.lt (insert_sorted n l) /\
  forall m, In m (insert_sorted n l) <-> m = n \/ In m l.
Proof.
  induction l as [|x l IH]; intros Hs Hn; cbn [insert_sorted].
  - split; [repeat constructor|]. intros m. cbn. intuition congruence.
  - apply StronglySorted_inv in Hs. destruct Hs as [Hs Hx].
    destruct (Z.leb_spec n x) as [H|H].
    + split; [|intros m; cbn; intuition congruence].
      assert (n < x) by (assert (n <> x) by (intros ->; apply Hn; left; auto);
                         lia).
      constructor; [constructor; assumption|].
      constructor; [assumption|].
      rewrite Forall_forall in Hx |- *. intros y Hy. specialize (Hx y Hy). lia.
    + destruct IH as [Hs' Hm']; [assumption|intros Hin; apply Hn; right; auto|].
      split.
      * constructor; [assumption|].
        rewrite Forall_forall in Hx |- *. intros y Hy.
        apply Hm' in Hy. destruct Hy as [-> |Hy]; [lia|auto].
      * intros m. cbn [In]. rewrite Hm'. intuition congruence.
Qed.

Lemma sort_numbers_spec l :
  NoDup l ->
  StronglySorted Z.lt (sort_numbers l) /\
  forall m, In m (sort_numbers l) <-> In m l.
Proof.
  unfold sort_numbers.
  induction l as [|x l IH]; intros N; cbn [fold_right].
  - split; [constructor|tauto].
  - inversion N as [|? ? Hx N']; subst.
    destruct (IH N') as [Hs Hm].
    destruct (insert_sorted_spec x (fold_right insert_sorted [] l) Hs)
      as [Hs' Hm'].
    + rewrite Hm. assumption.
    + split; [assumption|]. intros m. rewrite Hm', Hm. cbn. intuition congruence.
Qed.

(** X13.  The dependence property [WriteOutputFile] records for the map
    table is strictly increasing, names only files linked from the
    ranges written and, when the write succeeds, names every one of
    them. *)
Theorem written_dependence env iterator_cache bound_builder ranges
        output_path_id w s o w' :
  WriteOutputFile env iterator_cache bound_builder ranges output_path_id w
  = (s, Some o, w') ->
  StronglySorted Z.lt (out_dependence o) /\
  (forall n, In n (out_dependence o) -> In n (linked_files ranges)) /\
  (ok s = true ->
   forall n, In n (linked_files ranges) -> In n (out_dependence o)).
Proof.
  unfold WriteOutputFile.
  destruct (ok (NewWritableFile env (next_file_number w))) eqn:E0;
    cbn [negb]; [|discriminate].
  destruct (drain (S (length ranges)) iterator_cache
                  (SeekToFirst iterator_cache ranges (new_iterator ranges)) [])
    as [added it] eqn:Ed.
  assert (Hinv :
    NoDup (dependence_build_ it) /\
    (forall m, In m (dependence_build_ it) -> In m (linked_files ranges)) /\
    (ok (status_ it) = true ->
     forall m, In m (linked_files ranges) -> In m (dependence_build_ it))).
  { replace it with (snd (drain (S (length ranges)) iterator_cache
                     (SeekToFirst iterator_cache ranges (new_iterator ranges))
                     [])) by (rewrite Ed; reflexivity).
    unfold SeekToFirst.
    set (it0 := mkIter ranges (map_elements_ (new_iterator ranges))
                       (buffer_ (new_iterator ranges))
                       (status_ (new_iterator ranges))
                       (dependence_build_ (new_iterator ranges))
                       (sst_read_amp_ (new_iterator ranges))).
    destruct (PrepareNext_files iterator_cache it0)
      as (consumed & Hc & N1 & Hsub1 & Hk1 & Hok1 & Hlen1).
    { cbn. constructor. }
    cbn [where_ it0] in Hc, Hlen1.
    apply (drain_files iterator_cache ranges _ _ _ consumed); auto.
    - intros m Hm. destruct (Hsub1 m Hm) as [[]|H]. assumption.
    - intros Hs. apply Hok1. assumption.
    - intros Hs Hb. destruct (Hok1 Hs) as (_ & _ & Hnil).
      specialize (Hnil Hb). cbn [where_ it0] in Hnil.
      rewrite Hnil in Hc. symmetry in Hc. apply app_eq_nil in Hc. tauto.
    - intros Hb. specialize (Hlen1 Hb). lia. }
  destruct Hinv as (N & Hsub & Hsup).
  destruct (sort_numbers_spec _ N) as [Hs Hm].
  intros H. inversion H; subst; clear H. cbn [out_dependence].
  split; [assumption|]. split.
  - intros n Hn. apply Hsub, Hm. assumption.
  - intros Hok n Hn. apply Hm, Hsup; [|assumption].
    destruct (ok (status_ it)) eqn:Es; [reflexivity|]. cbn [negb] in Hok.
    repeat (rewrite ?Es in Hok; cbv beta iota zeta in Hok).
    destruct (IsMaxAllowedSpaceReached env) as [[|]|];
      try destruct (output_path_id =? 0); cbn in Hok; congruence.
Qed.

(* ===================================================================== *)
(** * More on the map builder *)
(* ===================================================================== *)

Lemma WriteOutputFile_world env iterator_cache bound_builder ranges
      output_path_id w s file w' :
  WriteOutputFile env iterator_cache bound_builder ranges output_path_id w
  = (s, file, w') ->
  next_file_number w' = next_file_number w + 1 /\
  match file with
  | Some o =>
      fd_number (out_meta o) = next_file_number w /\
      purpose (out_meta o) = kMapSst /\
      exists t, tables_written w'
                = tables_written w ++ [(next_file_number w, t)]
  | None => ok s = false /\ tables_written w' = tables_written w
  end.
Proof.
  unfold WriteOutputFile.
  destruct (ok (NewWritableFile env (next_file_number w))) eqn:E0;
    cbn [negb].
  - destruct (drain _ _ _ _) as [added it].
    intros H. inversion H; subst; clear H. cbn. eauto.
  - intros H. inversion H; subst; clear H. cbn. auto.
Qed.

(** X14.  A build that fails records nothing in the version edit. *)
Theorem build_failure_no_edit env iterator_cache inputs deleted_range
        added_files output_level output_path_id w r :
  Build env iterator_cache inputs deleted_range added_files output_level
        output_path_id w = Some r ->
  ok (result_status r) = false ->
  result_edit r = [].
Proof.
  unfold Build.
  destruct (survivors _ _ _ _) as [[s l]|]; cbn [obind]; [|discriminate].
  destruct (ok s) eqn:Es; cbn [negb].
  2:{ intros H _. inversion H. reflexivity. }
  destruct (level_ranges l) as [|ranges rest].
  { intros H Hs. inversion H; subst. cbn in Hs. congruence. }
  match goal with
  | |- context [obind ?X _] => destruct X as [[build_map_sst sst_live]|]
  end; cbn [obind]; [|discriminate].
  destruct build_map_sst; cbn [negb].
  - destruct (all_stable _ _ _).
    + intros H _. inversion H. reflexivity.
    + destruct (WriteOutputFile _ _ _ _ _ _) as [[s' file] w'].
      intros H Hs. inversion H; subst. cbn in Hs |- *. rewrite Hs. reflexivity.
  - destruct (move_inputs _ _ _ _) as [live' edit].
    intros H Hs. inversion H; subst. cbn in Hs. congruence.
Qed.

(** X15.  A build takes at most one file number and writes at most one
    table.  When it returns an output file, that file is a map table
    under the file number the version set had next, and its table is the
    one written; when it returns none, no table is written, and if it
    also succeeds the version set is left as it was. *)
Theorem build_world env iterator_cache inputs deleted_range added_files
        output_level output_path_id w r :
  Build env iterator_cache inputs deleted_range added_files output_level
        output_path_id w = Some r ->
  match result_file r with
  | Some o =>
      fd_number (out_meta o) = next_file_number w /\
      purpose (out_meta o) = kMapSst /\
      next_file_number (result_world r) = next_file_number w + 1 /\
      exists t, tables_written (result_world r)
                = tables_written w ++ [(next_file_number w, t)]
  | None =>
      tables_written (result_world r) = tables_written w /\
      next_file_number w <= next_file_number (result_world r)
      <= next_file_number w + 1 /\
      (ok (result_status r) = true -> result_world r = w)
  end.
Proof.
  unfold Build.
  destruct (survivors _ _ _ _) as [[s l]|]; cbn [obind]; [|discriminate].
  assert (Hsame : forall s' e,
            Some (mkResult s' e None w) = Some r ->
            match result_file r with
            | Some o =>
                fd_number (out_meta o) = next_file_number w /\
                purpose (out_meta o) = kMapSst /\
                next_file_number (result_world r) = next_file_number w + 1 /\
                exists t, tables_written (result_world r)
                          = tables_written w ++ [(next_file_number w, t)]
            | None =>
                tables_written (result_world r) = tables_written w /\
                next_file_number w <= next_file_number (result_world r)
                <= next_file_number w + 1 /\
                (ok (result_status r) = true -> result_world r = w)
            end).
  { intros s' e H. inversion H; subst. cbn. repeat split; auto; lia. }
  destruct (ok s) eqn:Es; cbn [negb]; [|apply Hsame].
  destruct (level_ranges l) as [|ranges rest]; [apply Hsame|].
  match goal with
  | |- context [obind ?X _] => destruct X as [[build_map_sst sst_live]|]
  end; cbn [obind]; [|discriminate].
  destruct build_map_sst; cbn [negb].
  - destruct (all_stable _ _ _); [apply Hsame|].
    destruct (WriteOutputFile _ _ _ _ _ _) as [[s' file] w'] eqn:Ew.
    apply WriteOutputFile_world in Ew. destruct Ew as [Hn Hf].
    intros H. inversion H; subst; clear H. cbn.
    destruct file as [o|].
    + destruct Hf as (H1 & H2 & H3). auto.
    + destruct Hf as [H1 H2]. split; [assumption|]. split; [lia|].
      intros Hs. congruence.
  - destruct (move_inputs _ _ _ _) as [live' edit]. apply Hsame.
Qed.

(** ** Moving data tables without writing a map *)

Lemma load_all_data iterator_cache fs : forall ranges b,
  (forall f, In f fs -> data_table_ok iterator_cache f = true) ->
  exists b',
    LoadRangeWithDepend iterator_cache fs (ranges, Some b)
    = (StatusOK, (ranges ++ map RangeOfFile fs, Some b')).
Proof.
  induction fs as [|f fs IH]; intros ranges b H; cbn [LoadRangeWithDepend map].
  - exists b. rewrite app_nil_r. reflexivity.
  - assert (Hf : data_table_ok iterator_cache f = true) by (apply H; left; auto).
    unfold data_table_ok in Hf. apply andb_true_iff in Hf.
    destruct Hf as [Hp Hok].
    unfold load_file.
    destruct (purpose f); [|discriminate]. rewrite Hok. cbn [negb ok StatusOK code].
    match goal with
    | |- context [LoadRangeWithDepend _ fs (_, Some ?X)] =>
        destruct (IH (ranges ++ [RangeOfFile f]) X) as [b' E]
    end.
    { intros g Hg. apply H. right. assumption. }
    exists b'. rewrite E, <- app_assoc. reflexivity.
Qed.

Lemma IsPrefaceRange_file f :
  purpose f = kEssenceSst ->
  GetInternalKeySeqno (largest f) <> kMaxSequenceNumber ->
  IsPrefaceRange (mkRangeArg (point0 (RangeOfFile f)) (point1 (RangeOfFile f))
                             (include0 (RangeOfFile f))
                             (include1 (RangeOfFile f))) f = true.
Proof.
  intros Hp Hs. unfold IsPrefaceRange, RangeOfFile.
  cbn [point0 point1 include0 include1 start limit include_start include_limit].
  rewrite Hp.
  replace (GetInternalKeySeqno (largest f) =? kMaxSequenceNumber) with false
    by (symmetry; apply Z.eqb_neq; assumption).
  rewrite Compare_refl.
  unfold user_Compare, ExtractUserKey, ExtractInternalKeyFooter.
  rewrite Z.compare_refl. cbn [andb Z.eqb].
  destruct (footer (largest f) =? kMaxSequenceNumber) eqn:E; [reflexivity|].
  apply Z.eqb_refl.
Qed.

Lemma check_build_map_files iterator_cache fs : forall live,
  (forall f, In f fs -> movable iterator_cache f) ->
  NoDup (map fd_number fs) ->
  (forall f, In f fs -> ~ In (fd_number f) (map fst live)) ->
  check_build_map iterator_cache (map RangeOfFile fs) live
  = Some (false, live ++ map (fun f => (fd_number f, f)) fs).
Proof.
  induction fs as [|f fs IH]; intros live Hm N Hl; cbn [map check_build_map].
  - rewrite app_nil_r. reflexivity.
  - destruct (Hm f (or_introl eq_refl)) as (Hok & Hs & Hg).
    unfold data_table_ok in Hok. apply andb_true_iff in Hok.
    destruct Hok as [Hp _].
    assert (Hp' : purpose f = kEssenceSst) by (destruct (purpose f); congruence).
    change (dependence (RangeOfFile f)) with [mkLink (fd_number f) 0].
    cbn [length Nat.ltb Nat.leb file_number].
    rewrite Hg. cbn [obind].
    rewrite (IsPrefaceRange_file f Hp' Hs). cbn [negb].
    replace (existsb (fun p : Z * FileMetaData => fst p =? fd_number f) live)
      with false.
    2:{ symmetry. destruct (existsb _ live) eqn:E; [|reflexivity].
        apply existsb_exists in E. destruct E as (p & Hin & Ep).
        apply Z.eqb_eq in Ep. exfalso. apply (Hl f (or_introl eq_refl)).
        rewrite <- Ep. apply in_map. assumption. }
    inversion N as [|? ? Hx N']; subst.
    rewrite IH.
    + rewrite <- app_assoc. reflexivity.
    + intros g Hg'. apply Hm. right. assumption.
    + assumption.
    + intros g Hg' Hin. rewrite map_app, in_app_iff in Hin.
      destruct Hin as [Hin|Hin].
      * apply (Hl g); [right; assumption|assumption].
      * cbn in Hin. destruct Hin as [Hin|[]].
        apply Hx. rewrite Hin. apply in_map. assumption.
Qed.

Lemma move_files_all output_level lvl fs : forall edit,
  NoDup (map fd_number fs) ->
  move_files output_level lvl fs (map (fun f => (fd_number f, f)) fs) edit
  = ([], edit ++ move_edits lvl output_level fs).
Proof.
  unfold move_edits.
  induction fs as [|f fs IH]; intros edit N; cbn [map move_files].
  - destruct (output_level =? lvl); rewrite app_nil_r; reflexivity.
  - cbn [existsb fst filter]. rewrite !Z.eqb_refl. cbn [orb negb].
    inversion N as [|? ? Hx N']; subst.
    replace (filter (fun p : Z * FileMetaData => negb (fst p =? fd_number f))
                    (map (fun f0 => (fd_number f0, f0)) fs))
      with (map (fun f0 : FileMetaData => (fd_number f0, f0)) fs).
    2:{ clear - Hx. induction fs as [|g fs IH]; [reflexivity|].
        cbn [map filter fst].
        destruct (Z.eqb_spec (fd_number g) (fd_number f)) as [E|E].
        - exfalso. apply Hx. left. assumption.
        - cbn [negb]. f_equal. apply IH. intros H. apply Hx. right. assumption. }
    rewrite IH by assumption.
    destruct (output_level =? lvl); cbn [negb flat_map app];
      rewrite <- ?app_assoc; reflexivity.
Qed.

(** X16.  One input level other than level 0, made of data tables the
    build can move, with nothing deleted and nothing added: the build
    writes no table and takes no file number; it records each file as
    deleted from its level and added to the output level, or nothing at
    all when the two levels are the same. *)
Theorem build_moves_data_tables env iterator_cache lvl fs output_level
        output_path_id w :
  lvl <> 0 -> fs <> [] ->
  (forall f, In f fs -> movable iterator_cache f) ->
  NoDup (map fd_number fs) ->
  output_level <> 0 \/ length fs = 1%nat ->
  Build env iterator_cache [mkInputs lvl fs] [] [] output_level
        output_path_id w
  = Some (mkResult StatusOK (move_edits lvl output_level fs) None w).
Proof.
  intros Hlvl Hne Hm N Hout.
  destruct (load_all_data iterator_cache fs [] new_bound_builder) as [b' El].
  { intros f Hf. apply (Hm f Hf). }
  cbn [app] in El.
  unfold Build, survivors. cbn [load_inputs files level].
  destruct fs as [|f0 fs0] eqn:Efs; [congruence|]. rewrite <- Efs in *.
  replace (lvl =? 0) with false by (symmetry; apply Z.eqb_neq; assumption).
  cbn [bound_builder_ level_ranges input_range_count].
  rewrite El. cbn [ok StatusOK code negb app length merge_levels obind
                   level_ranges bound_builder_ input_range_count].
  replace (negb (output_level =? 0) || Nat.eqb (length (map RangeOfFile fs)) 1)
    with true.
  2:{ symmetry. rewrite length_map. destruct Hout as [H|H].
      - apply Z.eqb_neq in H. rewrite H. reflexivity.
      - rewrite H. apply orb_true_r. }
  rewrite (check_build_map_files iterator_cache fs []); auto.
  cbn [obind app negb move_inputs level files].
  rewrite move_files_all by assumption.
  cbn [app map]. rewrite app_nil_r. reflexivity.
Qed.

End Builder.

(* ===================================================================== *)
(** * The iterator over the files of a level *)
(* ===================================================================== *)

(** ** Bisection *)

Lemma div2_lt n : (0 < n)%nat -> (Nat.div2 n < n)%nat.
Proof. intros H. apply Nat.lt_div2. assumption. Qed.

Lemma std_lower_bound_spec comp l :
  (forall i j fi fj, (i <= j)%nat ->
     nth_error l i = Some fi -> nth_error l j = Some fj ->
     comp fj = true -> comp fi = true) ->
  forall fuel first len,
    (len <= fuel)%nat -> (first + len <= length l)%nat ->
    (forall j f, (j < first)%nat -> nth_error l j = Some f -> comp f = true) ->
    (forall j f, (first + len <= j)%nat -> nth_error l j = Some f ->
                 comp f = false) ->
    let r := std_lower_bound fuel comp l first len in
    (r <= length l)%nat /\
    (forall j f, (j < r)%nat -> nth_error l j = Some f -> comp f = true) /\
    (forall j f, (r <= j)%nat -> nth_error l j = Some f -> comp f = false).
Proof.
  intros Hmono.
  induction fuel as [|fuel IH]; intros first len Hf Hl Hlo Hhi.
  - cbn [std_lower_bound]. replace len with 0%nat in * by lia.
    rewrite Nat.add_0_r in *. repeat split; auto.
  - cbn [std_lower_bound].
    destruct (Nat.eqb_spec len 0) as [E|E].
    { subst len. rewrite Nat.add_0_r in *. repeat split; auto. }
    pose proof (div2_lt len ltac:(lia)) as Hh.
    remember (Nat.div2 len) as half eqn:Ehalf. clear Ehalf.
    destruct (nth_error l (first + half)) as [f|] eqn:Ef.
    2:{ apply nth_error_None in Ef. lia. }
    destruct (comp f) eqn:Ec.
    + apply IH; try lia.
      * intros j g Hj Hg.
        destruct (Nat.lt_ge_cases j first) as [H|H]; [eauto|].
        apply (Hmono j (first + half)%nat g f); auto. lia.
      * intros j g Hj Hg. apply (Hhi j); auto. lia.
    + apply IH; try lia; auto.
      intros j g Hj Hg.
      destruct (comp g) eqn:Eg; [|reflexivity].
      rewrite <- Ec. symmetry.
      apply (Hmono (first + half)%nat j f g); auto.
Qed.

Lemma std_upper_bound_spec comp l :
  (forall i j fi fj, (i <= j)%nat ->
     nth_error l i = Some fi -> nth_error l j = Some fj ->
     comp fi = true -> comp fj = true) ->
  forall fuel first len,
    (len <= fuel)%nat -> (first + len <= length l)%nat ->
    (forall j f, (j < first)%nat -> nth_error l j = Some f -> comp f = false) ->
    (forall j f, (first + len <= j)%nat -> nth_error l j = Some f ->
                 comp f = true) ->
    let r := std_upper_bound fuel comp l first len in
    (r <= length l)%nat /\
    (forall j f, (j < r)%nat -> nth_error l j = Some f -> comp f = false) /\
    (forall j f, (r <= j)%nat -> nth_error l j = Some f -> comp f = true).
Proof.
  intros Hmono.
  induction fuel as [|fuel IH]; intros first len Hf Hl Hlo Hhi.
  - cbn [std_upper_bound]. replace len with 0%nat in * by lia.
    rewrite Nat.add_0_r in *. repeat split; auto.
  - cbn [std_upper_bound].
    destruct (Nat.eqb_spec len 0) as [E|E].
    { subst len. rewrite Nat.add_0_r in *. repeat split; auto. }
    pose proof (div2_lt len ltac:(lia)) as Hh.
    remember (Nat.div2 len) as half eqn:Ehalf. clear Ehalf.
    destruct (nth_error l (first + half)) as [f|] eqn:Ef.
    2:{ apply nth_error_None in Ef. lia. }
    destruct (comp f) eqn:Ec.
    + apply IH; try lia; auto.
      intros j g Hj Hg.
      apply (Hmono (first + half)%nat j f g); auto.
    + apply IH; try lia.
      * intros j g Hj Hg.
        destruct (Nat.lt_ge_cases j first) as [H|H]; [eauto|].
        destruct (comp g) eqn:Eg; [|reflexivity].
        rewrite <- Ec. symmetry.
        apply (Hmono j (first + half)%nat g f); auto. lia.
      * intros j g Hj Hg. apply (Hhi j); auto. lia.
Qed.

Lemma Compare_le_lt_trans a b c :
  Compare a b <= 0 -> Compare b c < 0 -> Compare a c < 0.
Proof.
  intros H1 H2.
  destruct (Compare_cases a b) as [[K1 E1]|[[K1 E1]|[K1 E1]]];
    destruct (Compare_cases b c) as [[K2 E2]|[[K2 E2]|[K2 E2]]];
    destruct (Compare_cases a c) as [[K3 E3]|[[K3 E3]|[K3 E3]]];
    rewrite ?E1, ?E2, ?E3 in *; try lia;
    unfold klt, keq in *; lia.
Qed.

Lemma Compare_lt_le_trans a b c :
  Compare a b < 0 -> Compare b c <= 0 -> Compare a c < 0.
Proof.
  intros H1 H2.
  destruct (Compare_cases a b) as [[K1 E1]|[[K1 E1]|[K1 E1]]];
    destruct (Compare_cases b c) as [[K2 E2]|[[K2 E2]|[K2 E2]]];
    destruct (Compare_cases a c) as [[K3 E3]|[[K3 E3]|[K3 E3]]];
    rewrite ?E1, ?E2, ?E3 in *; try lia;
    unfold klt, keq in *; lia.
Qed.

(** ** Seeking among data tables *)

Lemma Update_data fs w f key value :
  nth_error fs w = Some f ->
  MapElementIterator.Update fs (MapElementIterator.mkState w None key value)
  = Some (MapElementIterator.mkState
            w None (largest f)
            (MapElementIterator.ElementValue (file_element f))).
Proof.
  intros H. unfold MapElementIterator.Update.
  cbn [MapElementIterator.iter_ MapElementIterator.where_]. rewrite H.
  reflexivity.
Qed.

(** X17.  Over data tables in the order of their largest keys, [Seek]
    goes to the first file whose largest key is at or after the target
    and shows the element made up for it; when every file ends before
    the target the iterator is not valid.  The status is OK. *)
Theorem Seek_data_files fs create_iter target st :
  files_sorted fs ->
  (forall f, In f fs -> purpose f = kEssenceSst) ->
  exists st',
    MapElementIterator.Seek fs create_iter target st = Some st' /\
    MapElementIterator.status st' = StatusOK /\
    (forall j f, (j < MapElementIterator.where_ st')%nat ->
                 nth_error fs j = Some f -> Compare (largest f) target < 0) /\
    match nth_error fs (MapElementIterator.where_ st') with
    | Some f =>
        Compare (largest f) target >= 0 /\
        MapElementIterator.Valid fs st' = true /\
        MapElementIterator.key_slice st' = largest f /\
        MapElementIterator.value_slice st'
        = MapElementIterator.ElementValue (file_element f)
    | None => MapElementIterator.Valid fs st' = false
    end.
Proof.
  intros Hs Hd. unfold MapElementIterator.Seek, MapElementIterator.meta_size_.
  destruct (std_lower_bound_spec
              (fun f => Compare (largest f) target <? 0) fs) with
    (fuel := length fs) (first := 0%nat) (len := length fs)
    as (Hr & Hlo & Hhi); try lia.
  { intros i j fi fj Hij Hi Hj Hc. apply Z.ltb_lt in Hc. apply Z.ltb_lt.
    apply (Compare_le_lt_trans _ (largest fj)); [|assumption].
    apply (Hs i j); assumption. }
  { intros j f Hj Hf. exfalso.
    assert (j < length fs)%nat by (apply nth_error_Some; congruence). lia. }
  set (w := std_lower_bound (length fs)
              (fun f => Compare (largest f) target <? 0) fs 0 (length fs)) in *.
  clearbody w.
  assert (Hlo' : forall j f, (j < w)%nat -> nth_error fs j = Some f ->
                             Compare (largest f) target < 0).
  { intros j f Hj Hf. apply Z.ltb_lt. apply (Hlo j f Hj Hf). }
  destruct (Nat.eqb_spec w (length fs)) as [E|E].
  - eexists. split; [reflexivity|].
    cbn [MapElementIterator.at_ MapElementIterator.status
         MapElementIterator.iter_ MapElementIterator.where_].
    split; [reflexivity|]. split; [assumption|].
    replace (nth_error fs w) with (@None FileMetaData)
      by (symmetry; apply nth_error_None; lia).
    unfold MapElementIterator.Valid, MapElementIterator.meta_size_.
    cbn [MapElementIterator.where_ MapElementIterator.at_]. apply Nat.ltb_ge. lia.
  - destruct (nth_error fs w) as [f|] eqn:Ef.
    2:{ apply nth_error_None in Ef. lia. }
    cbn [obind]. rewrite (Hd f) by (eapply nth_error_In; eauto).
    cbn [is_map]. unfold MapElementIterator.at_.
    rewrite (Update_data fs w f _ _ Ef).
    eexists. split; [reflexivity|].
    cbn [MapElementIterator.status MapElementIterator.iter_
         MapElementIterator.where_ MapElementIterator.key_slice
         MapElementIterator.value_slice].
    split; [reflexivity|]. split; [assumption|]. rewrite Ef.
    split.
    + pose proof (Hhi w f (Nat.le_refl w) Ef) as H. apply Z.ltb_ge in H. lia.
    + split; [|auto]. unfold MapElementIterator.Valid,
        MapElementIterator.meta_size_. cbn [MapElementIterator.where_ MapElementIterator.at_].
      apply Nat.ltb_lt. lia.
Qed.

(** X18.  Over data tables in the order of their largest keys,
    [SeekForPrev] goes to the last file whose largest key is at or before
    the target and shows the element made up for it; when every file ends
    after the target the iterator is not valid. *)
Theorem SeekForPrev_data_files fs create_iter target st :
  files_sorted fs ->
  (forall f, In f fs -> purpose f = kEssenceSst) ->
  exists st',
    MapElementIterator.SeekForPrev fs create_iter target st = Some st' /\
    MapElementIterator.status st' = StatusOK /\
    (forall j f, (MapElementIterator.where_ st' < j)%nat ->
                 nth_error fs j = Some f -> Compare target (largest f) < 0) /\
    match nth_error fs (MapElementIterator.where_ st') with
    | Some f =>
        Compare target (largest f) >= 0 /\
        MapElementIterator.Valid fs st' = true /\
        MapElementIterator.key_slice st' = largest f /\
        MapElementIterator.value_slice st'
        = MapElementIterator.ElementValue (file_element f)
    | None =>
        MapElementIterator.Valid fs st' = false /\
        forall f, In f fs -> Compare target (largest f) < 0
    end.
Proof.
  intros Hs Hd.
  unfold MapElementIterator.SeekForPrev, MapElementIterator.meta_size_.
  destruct (std_upper_bound_spec
              (fun f => Compare target (largest f) <? 0) fs) with
    (fuel := length fs) (first := 0%nat) (len := length fs)
    as (Hr & Hlo & Hhi); try lia.
  { intros i j fi fj Hij Hi Hj Hc. apply Z.ltb_lt in Hc. apply Z.ltb_lt.
    apply (Compare_lt_le_trans _ (largest fi)); [assumption|].
    apply (Hs i j); assumption. }
  { intros j f Hj Hf. exfalso.
    assert (j < length fs)%nat by (apply nth_error_Some; congruence). lia. }
  set (u := std_upper_bound (length fs)
              (fun f => Compare target (largest f) <? 0) fs 0 (length fs)) in *.
  clearbody u.
  destruct u as [|w].
  - eexists. split; [reflexivity|].
    cbn [MapElementIterator.at_ MapElementIterator.status
         MapElementIterator.iter_ MapElementIterator.where_].
    split; [reflexivity|]. split.
    { intros j f Hj Hf.
      assert (j < length fs)%nat by (apply nth_error_Some; congruence). lia. }
    replace (nth_error fs (length fs)) with (@None FileMetaData)
      by (symmetry; apply nth_error_None; lia).
    split.
    + unfold MapElementIterator.Valid, MapElementIterator.meta_size_.
      cbn [MapElementIterator.where_ MapElementIterator.at_]. apply Nat.ltb_irrefl.
    + intros f Hin. apply In_nth_error in Hin. destruct Hin as [j Hj].
      apply Z.ltb_lt. apply (Hhi j f); [lia|assumption].
  - destruct (nth_error fs w) as [f|] eqn:Ef.
    2:{ apply nth_error_None in Ef. lia. }
    cbn [obind]. rewrite (Hd f) by (eapply nth_error_In; eauto).
    cbn [is_map]. unfold MapElementIterator.at_.
    rewrite (Update_data fs w f _ _ Ef).
    eexists. split; [reflexivity|].
    cbn [MapElementIterator.status MapElementIterator.iter_
         MapElementIterator.where_ MapElementIterator.key_slice
         MapElementIterator.value_slice].
    split; [reflexivity|]. split.
    { intros j g Hj Hg. apply Z.ltb_lt. apply (Hhi j g); [lia|assumption]. }
    rewrite Ef. split.
    + pose proof (Hlo w f ltac:(lia) Ef) as H. apply Z.ltb_ge in H. lia.
    + split; [|auto]. unfold MapElementIterator.Valid,
        MapElementIterator.meta_size_. cbn [MapElementIterator.where_ MapElementIterator.at_].
      apply Nat.ltb_lt. lia.
Qed.

(** ** Scanning forward *)

Lemma skipn_nth_error {X} (l : list X) : forall k x,
  nth_error l k = Some x -> skipn k l = x :: skipn (S k) l.
Proof.
  induction l as [|y l IH]; intros [|k] x H; cbn in *; try discriminate.
  - inversion H. reflexivity.
  - apply IH. assumption.
Qed.

Lemma contents_length create_iter f :
  is_map (purpose f) = true ->
  length (contents create_iter f)
  = length (MapElementIterator.inner_entries (create_iter f)).
Proof. intros H. unfold contents. rewrite H. apply length_map. Qed.

Lemma contents_nonempty create_iter f :
  enterable create_iter f -> (1 <= length (contents create_iter f))%nat.
Proof.
  intros H. unfold contents. destruct (is_map (purpose f)) eqn:E.
  - destruct (H E) as [_ Hne]. rewrite length_map.
    destruct (MapElementIterator.inner_entries (create_iter f));
      [congruence|cbn; lia].
  - cbn. lia.
Qed.

Lemma state_at_where create_iter i k f :
  MapElementIterator.where_ (state_at create_iter i k f) = i.
Proof. unfold state_at. destruct (is_map (purpose f)); reflexivity. Qed.

Lemma state_at_current create_iter i k f :
  (k < length (contents create_iter f))%nat ->
  nth_error (contents create_iter f) k
  = Some (MapElementIterator.key_slice (state_at create_iter i k f),
          MapElementIterator.value_slice (state_at create_iter i k f)).
Proof.
  unfold contents, state_at. destruct (is_map (purpose f)).
  - rewrite length_map. intros H. rewrite nth_error_map.
    rewrite (nth_error_nth' _ (empty_key, mkLazy StatusOK []) H).
    reflexivity.
  - cbn. intros H. replace k with 0%nat by lia. reflexivity.
Qed.

Lemma enter_enterable fs create_iter i f st :
  nth_error fs i = Some f -> enterable create_iter f ->
  MapElementIterator.where_ st = i ->
  MapElementIterator.enter fs create_iter MapElementIterator.inner_SeekToFirst st
  = Some (state_at create_iter i 0 f).
Proof.
  intros Hf He Hw. unfold MapElementIterator.enter, state_at.
  rewrite Hw, Hf. cbn [obind].
  destruct (is_map (purpose f)) eqn:Em.
  - destruct (He Em) as [Hok Hne].
    unfold MapElementIterator.InitMapSstIterator. rewrite Hw, Hf.
    cbn [obind]. rewrite Hok. cbn [obind negb MapElementIterator.iter_].
    unfold MapElementIterator.Update, MapElementIterator.inner_current,
      MapElementIterator.inner_SeekToFirst, MapElementIterator.move.
    cbn [MapElementIterator.iter_ MapElementIterator.inner_pos
         MapElementIterator.inner_entries MapElementIterator.where_].
    destruct (MapElementIterator.inner_entries (create_iter f)) as [|kv es];
      [congruence|].
    cbn [obind nth_error nth]. reflexivity.
  - apply Update_data. assumption.
Qed.

Lemma enter_failing fs create_iter i f seek st :
  nth_error fs i = Some f -> failing create_iter f ->
  MapElementIterator.where_ st = i ->
  exists st',
    MapElementIterator.enter fs create_iter seek st = Some st' /\
    MapElementIterator.Valid fs st' = false /\
    MapElementIterator.status st'
    = MapElementIterator.inner_status (create_iter f).
Proof.
  intros Hf [Hm Hbad] Hw. unfold MapElementIterator.enter.
  rewrite Hw, Hf. cbn [obind]. rewrite Hm.
  unfold MapElementIterator.InitMapSstIterator. rewrite Hw, Hf.
  cbn [obind]. rewrite Hbad. cbn [obind negb].
  eexists. split; [reflexivity|]. split; [|reflexivity].
  unfold MapElementIterator.Valid. cbn [MapElementIterator.where_].
  apply Nat.ltb_irrefl.
Qed.

Lemma Next_state_at fs create_iter i k f :
  nth_error fs i = Some f -> enterable create_iter f ->
  (k < length (contents create_iter f))%nat ->
  MapElementIterator.Next fs create_iter (state_at create_iter i k f)
  = if Nat.ltb (S k) (length (contents create_iter f))
    then Some (state_at create_iter i (S k) f)
    else MapElementIterator.next_file fs create_iter
           (state_at create_iter i k f).
Proof.
  intros Hf He Hk. unfold MapElementIterator.Next.
  destruct (is_map (purpose f)) eqn:Em.
  - rewrite (contents_length create_iter f Em) in *.
    unfold state_at at 1. rewrite Em. cbn [MapElementIterator.iter_].
    unfold MapElementIterator.inner_Next, MapElementIterator.move.
    cbn [MapElementIterator.inner_pos obind MapElementIterator.inner_status
         MapElementIterator.inner_entries].
    unfold Next, MapElementIterator.inner_keys.
    cbn [MapElementIterator.inner_entries]. rewrite length_map.
    destruct (Nat.ltb_spec (S k)
                (length (MapElementIterator.inner_entries (create_iter f))))
      as [H|H].
    + unfold MapElementIterator.inner_Valid. cbn [MapElementIterator.inner_pos].
      unfold MapElementIterator.Update, MapElementIterator.inner_current.
      cbn [MapElementIterator.iter_ MapElementIterator.inner_pos obind
           MapElementIterator.inner_entries MapElementIterator.where_].
      rewrite (nth_error_nth' _ (empty_key, mkLazy StatusOK []) H).
      cbn [obind]. unfold state_at. rewrite Em.
      unfold MapElementIterator.move. reflexivity.
    + unfold MapElementIterator.inner_Valid. cbn [MapElementIterator.inner_pos].
      unfold state_at. rewrite Em. reflexivity.
  - unfold contents in *. rewrite Em in *. cbn [length] in *.
    replace k with 0%nat by lia. cbn [Nat.ltb Nat.leb].
    unfold state_at. rewrite Em. reflexivity.
Qed.

Lemma collect_file fs create_iter i f :
  nth_error fs i = Some f -> enterable create_iter f ->
  forall m k fuel acc,
    (k + S m = length (contents create_iter f))%nat -> (S m <= fuel)%nat ->
    collect fuel fs create_iter (state_at create_iter i k f) acc
    = (st' <- MapElementIterator.next_file fs create_iter
                (state_at create_iter i (k + m) f) ;;
       collect (fuel - S m) fs create_iter st'
               (acc ++ skipn k (contents create_iter f))).
Proof.
  intros Hf He.
  assert (Hv : forall k, MapElementIterator.Valid fs (state_at create_iter i k f)
                         = true).
  { intros k. unfold MapElementIterator.Valid, MapElementIterator.meta_size_.
    rewrite state_at_where. apply Nat.ltb_lt. apply nth_error_Some. congruence. }
  induction m as [|m IH]; intros k fuel acc Hk Hfuel.
  - destruct fuel as [|fuel]; [lia|]. cbn [collect]. rewrite Hv.
    rewrite (Next_state_at fs create_iter i k f Hf He) by lia.
    replace (Nat.ltb (S k) (length (contents create_iter f))) with false
      by (symmetry; apply Nat.ltb_ge; lia).
    rewrite Nat.add_0_r.
    rewrite (skipn_nth_error _ k _ (state_at_current create_iter i k f ltac:(lia))).
    rewrite (skipn_all2 (contents create_iter f)) by lia.
    replace (S fuel - 1)%nat with fuel by lia. reflexivity.
  - destruct fuel as [|fuel]; [lia|]. cbn [collect]. rewrite Hv.
    rewrite (Next_state_at fs create_iter i k f Hf He) by lia.
    replace (Nat.ltb (S k) (length (contents create_iter f))) with true
      by (symmetry; apply Nat.ltb_lt; lia).
    cbn [obind]. rewrite (IH (S k) fuel) by lia.
    replace (S k + m)%nat with (k + S m)%nat by lia.
    replace (S fuel - S (S m))%nat with (fuel - S m)%nat by lia.
    rewrite (skipn_nth_error _ k _ (state_at_current create_iter i k f ltac:(lia))).
    rewrite <- app_assoc. reflexivity.
Qed.

(** The scan from the first entry of a file on, over files that can be
    entered, up to the end of the array or to a map table that fails. *)
Lemma collect_good fs create_iter rest :
  (rest = [] \/ exists bad rest', rest = bad :: rest' /\ failing create_iter bad) ->
  forall good pre f acc fuel,
    fs = pre ++ (f :: good) ++ rest ->
    (forall g, In g (f :: good) -> enterable create_iter g) ->
    (length (flat_map (contents create_iter) (f :: good)) <= fuel)%nat ->
    exists st',
      collect fuel fs create_iter (state_at create_iter (length pre) 0 f) acc
      = Some (acc ++ flat_map (contents create_iter) (f :: good), st') /\
      MapElementIterator.Valid fs st' = false /\
      MapElementIterator.status st'
      = match rest with
        | [] => StatusOK
        | bad :: _ => MapElementIterator.inner_status (create_iter bad)
        end.
Proof.
  intros Hrest.
  induction good as [|g good IH]; intros pre f acc fuel Hfs Hgood Hfuel.
  all: assert (Hf : nth_error fs (length pre) = Some f)
    by (rewrite Hfs, nth_error_app2, Nat.sub_diag by lia; reflexivity).
  all: assert (He : enterable create_iter f) by (apply Hgood; left; reflexivity).
  all: pose proof (contents_nonempty create_iter f He) as Hlen.
  all: cbn [flat_map] in Hfuel |- *; rewrite !length_app in Hfuel.
  all: rewrite (collect_file fs create_iter (length pre) f Hf He
                  (length (contents create_iter f) - 1) 0 fuel acc)
    by lia.
  all: cbn [skipn Nat.add]; unfold MapElementIterator.next_file;
    rewrite state_at_where; unfold MapElementIterator.meta_size_.
  - cbn [flat_map] in *. rewrite app_nil_r.
    destruct Hrest as [-> |(bad & rest' & -> & Hbad)].
    + replace (Nat.eqb (S (length pre)) (length fs)) with true
        by (symmetry; apply Nat.eqb_eq; rewrite Hfs, !length_app; cbn; lia).
      cbn [obind].
      destruct (fuel - S (length (contents create_iter f) - 1))%nat;
        cbn [collect].
      * eexists. split; [reflexivity|]. split; [|reflexivity].
        unfold MapElementIterator.Valid, MapElementIterator.meta_size_.
        cbn [MapElementIterator.where_ MapElementIterator.at_].
        apply Nat.ltb_ge. rewrite Hfs, !length_app. cbn. lia.
      * replace (MapElementIterator.Valid fs _) with false.
        2:{ symmetry. unfold MapElementIterator.Valid,
              MapElementIterator.meta_size_.
            cbn [MapElementIterator.where_ MapElementIterator.at_].
            apply Nat.ltb_ge. rewrite Hfs, !length_app. cbn. lia. }
        eexists. split; [reflexivity|]. split; [|reflexivity].
        unfold MapElementIterator.Valid, MapElementIterator.meta_size_.
        cbn [MapElementIterator.where_ MapElementIterator.at_].
        apply Nat.ltb_ge. rewrite Hfs, !length_app. cbn. lia.
    + replace (Nat.eqb (S (length pre)) (length fs)) with false
        by (symmetry; apply Nat.eqb_neq; rewrite Hfs, !length_app; cbn; lia).
      destruct (enter_failing fs create_iter (S (length pre)) bad
                  MapElementIterator.inner_SeekToFirst
                  (MapElementIterator.at_ (S (length pre))
                     (state_at create_iter (length pre)
                        (length (contents create_iter f) - 1) f)))
        as (st' & Est & Hv & Hst); auto.
      { rewrite Hfs. rewrite nth_error_app2 by lia.
        replace (S (length pre) - length pre)%nat with 1%nat by lia.
        reflexivity. }
      rewrite Est. cbn [obind].
      exists st'. split; [|auto].
      destruct (fuel - S (length (contents create_iter f) - 1))%nat;
        cbn [collect]; rewrite ?Hv; reflexivity.
  - replace (Nat.eqb (S (length pre)) (length fs)) with false
      by (symmetry; apply Nat.eqb_neq; rewrite Hfs, !length_app; cbn; lia).
    assert (Hg : nth_error fs (S (length pre)) = Some g).
    { rewrite Hfs. rewrite nth_error_app2 by lia.
      replace (S (length pre) - length pre)%nat with 1%nat by lia.
      reflexivity. }
    rewrite (enter_enterable fs create_iter (S (length pre)) g) ; auto.
    2:{ apply Hgood. right. left. reflexivity. }
    cbn [obind].
    destruct (IH (pre ++ [f]) g (acc ++ contents create_iter f)
                 (fuel - S (length (contents create_iter f) - 1))%nat)
      as (st' & Ec & Hv & Hst).
    + rewrite Hfs, <- app_assoc. reflexivity.
    + intros h Hh. apply Hgood. right. assumption.
    + cbn [flat_map]. rewrite length_app. lia.
    + replace (length (pre ++ [f])) with (S (length pre)) in Ec
        by (rewrite length_app; cbn; lia).
      rewrite Ec. exists st'. rewrite <- app_assoc. auto.
Qed.

(** X19.  Scanned forward from [SeekToFirst], the iterator yields the
    files in order: for a map table its entries, for a data table the one
    element made up from its bounds, file number and size; then it is no
    longer valid, with status OK. *)
Theorem forward_scan fs create_iter :
  fs <> [] ->
  (forall f, In f fs -> enterable create_iter f) ->
  exists st0 st',
    MapElementIterator.SeekToFirst fs create_iter (MapElementIterator.new fs)
    = Some st0 /\
    collect (length (flat_map (contents create_iter) fs)) fs create_iter st0 []
    = Some (flat_map (contents create_iter) fs, st') /\
    MapElementIterator.Valid fs st' = false /\
    MapElementIterator.status st' = StatusOK.
Proof.
  intros Hne Hall. destruct fs as [|f good] eqn:Efs; [congruence|].
  rewrite <- Efs in *.
  unfold MapElementIterator.SeekToFirst.
  assert (E0 : MapElementIterator.enter fs create_iter
                 MapElementIterator.inner_SeekToFirst
                 (MapElementIterator.at_ 0 (MapElementIterator.new fs))
               = Some (state_at create_iter 0 0 f)).
  { apply enter_enterable.
    - rewrite Efs. reflexivity.
    - apply Hall. rewrite Efs. left. reflexivity.
    - reflexivity. }
  rewrite E0.
  destruct (collect_good fs create_iter [] (or_introl eq_refl) good [] f []
              (length (flat_map (contents create_iter) fs)))
    as (st' & Ec & Hv & Hst).
  - rewrite Efs, app_nil_r. reflexivity.
  - intros g Hg. apply Hall. rewrite Efs. assumption.
  - rewrite Efs. lia.
  - eexists. exists st'. split; [reflexivity|].
    cbn [length app] in Ec. rewrite <- Efs in Ec. rewrite Ec. auto.
Qed.

(** X20.  When the scan comes to a map table whose iterator reports an
    error, it ends there: the iterator has yielded the files before that
    table, is no longer valid, and its status is that error. *)
Theorem forward_scan_error fs create_iter good bad rest :
  fs = good ++ bad :: rest ->
  (forall f, In f good -> enterable create_iter f) ->
  failing create_iter bad ->
  exists st0 st',
    MapElementIterator.SeekToFirst fs create_iter (MapElementIterator.new fs)
    = Some st0 /\
    collect (length (flat_map (contents create_iter) good)) fs create_iter
            st0 []
    = Some (flat_map (contents create_iter) good, st') /\
    MapElementIterator.Valid fs st' = false /\
    MapElementIterator.status st'
    = MapElementIterator.inner_status (create_iter bad) /\
    ok (MapElementIterator.status st') = false.
Proof.
  intros Hfs Hall Hbad. unfold MapElementIterator.SeekToFirst.
  destruct good as [|f good].
  - cbn [app] in Hfs.
    destruct (enter_failing fs create_iter 0 bad
                MapElementIterator.inner_SeekToFirst
                (MapElementIterator.at_ 0 (MapElementIterator.new fs)))
      as (st' & Est & Hv & Hst); auto.
    { rewrite Hfs. reflexivity. }
    exists st', st'. split; [assumption|]. cbn [flat_map length collect].
    split; [reflexivity|]. split; [assumption|]. split; [assumption|].
    rewrite Hst. apply Hbad.
  - assert (E0 : MapElementIterator.enter fs create_iter
                   MapElementIterator.inner_SeekToFirst
                   (MapElementIterator.at_ 0 (MapElementIterator.new fs))
                 = Some (state_at create_iter 0 0 f)).
    { apply enter_enterable.
      - rewrite Hfs. reflexivity.
      - apply Hall. left. reflexivity.
      - reflexivity. }
    rewrite E0.
    destruct (collect_good fs create_iter (bad :: rest)
                (or_intror (ex_intro _ bad (ex_intro _ rest (conj eq_refl Hbad))))
                good [] f []
                (length (flat_map (contents create_iter) (f :: good))))
      as (st' & Ec & Hv & Hst).
    + rewrite Hfs. reflexivity.
    + assumption.
    + lia.
    + eexists. exists st'. split; [reflexivity|].
      cbn [length app] in Ec. rewrite Ec.
      split; [reflexivity|]. split; [assumption|]. split; [assumption|].
      rewrite Hst. apply Hbad.
Qed.

(* ===================================================================== *)
(** * More on the table cache *)
(* ===================================================================== *)

(** ** [FindTable] *)

Lemma Lookup_Erase c number : forall m,
  Lookup (Erase c number) m = if m =? number then None else Lookup c m.
Proof.
  induction c as [|[n t] c IH]; intros m; cbn [Erase filter Lookup fst].
  - destruct (m =? number); reflexivity.
  - destruct (Z.eqb_spec n number) as [E|E]; cbn [negb Lookup].
    + fold (Erase c number). rewrite IH.
      destruct (Z.eqb_spec m number) as [E'|E']; [reflexivity|].
      destruct (Z.eqb_spec n m) as [E2|E2]; [congruence|reflexivity].
    + fold (Erase c number). rewrite IH.
      destruct (Z.eqb_spec n m) as [E2|E2]; [|reflexivity].
      destruct (Z.eqb_spec m number) as [E'|E']; [congruence|reflexivity].
Qed.

Lemma Lookup_filter (keep : Z -> bool) c : forall m,
  Lookup (filter (fun p => keep (fst p)) c) m
  = if keep m then Lookup c m else None.
Proof.
  induction c as [|[n t] c IH]; intros m; cbn [filter Lookup fst].
  - destruct (keep m); reflexivity.
  - destruct (keep n) eqn:K; cbn [Lookup]; rewrite IH.
    + destruct (Z.eqb_spec n m) as [E|E]; [subst; rewrite K|]; reflexivity.
    + destruct (Z.eqb_spec n m) as [E|E]; [subst; rewrite K|]; reflexivity.
Qed.

(** X21.  A table found once is found again: after a [FindTable] that
    succeeds, [FindTable] for the same file answers OK with the same
    reader, with or without [no_io], and leaves the cache as it is. *)
Theorem FindTable_again tc number no_io s t tc' no_io' :
  FindTable tc number no_io = (s, Some t, tc') ->
  FindTable tc' number no_io' = (StatusOK, Some t, tc').
Proof.
  unfold FindTable.
  destruct (Lookup (cache_ tc) number) as [t0|] eqn:E.
  - intros H. inversion H; subst. rewrite E. reflexivity.
  - destruct no_io; [discriminate|].
    destruct (GetTableReader tc number) as [s1 t1].
    destruct (ok s1); cbn [negb]; [|discriminate].
    destruct (ok (Insert tc)); [|discriminate].
    intros H. inversion H; subst. cbn [cache_ Lookup].
    rewrite Z.eqb_refl. reflexivity.
Qed.

Lemma FindTable_facts tc number no_io s h tc' :
  FindTable tc number no_io = (s, h, tc') ->
  (ok s = false -> h = None /\ tc' = tc) /\
  (no_io = true -> tc' = tc) /\
  (no_io = true -> Lookup (cache_ tc) number = None ->
   IsIncomplete s = true) /\
  (forall t, Lookup (cache_ tc) number = Some t ->
             s = StatusOK /\ h = Some t /\ tc' = tc) /\
  (forall t, h = Some t -> Lookup (cache_ tc') number = Some t) /\
  cache_from tc tc' /\
  (forall m t, m <> number -> Lookup (cache_ tc') m = Some t ->
               Lookup (cache_ tc) m = Some t).
Proof.
  unfold FindTable, cache_from.
  destruct (Lookup (cache_ tc) number) as [t0|] eqn:E.
  - intros H. inversion H; subst.
    split; [discriminate|]. split; [auto|]. split; [discriminate|].
    split; [intros t Ht; inversion Ht; auto|].
    split; [intros t Ht; inversion Ht; subst; exact E|].
    split; [|auto]. repeat split; auto.
  - destruct no_io.
    + intros H. inversion H; subst.
      split; [auto|]. split; [auto|]. split; [auto|].
      split; [discriminate|]. split; [discriminate|].
      split; [|auto]. repeat split; auto.
    + destruct (GetTableReader tc number) as [s1 t1] eqn:Eg.
      destruct (ok s1) eqn:E1; cbn [negb].
      * destruct (ok (Insert tc)) eqn:E2.
        -- intros H. inversion H; subst.
           cbn [cache_ Lookup GetTableReader Insert Evicts row_cache].
           rewrite Z.eqb_refl.
           split; [congruence|]. split; [discriminate|].
           split; [discriminate|]. split; [discriminate|].
           split; [intros t Ht; inversion Ht; reflexivity|].
           split.
           ++ repeat split; auto.
              intros n t. destruct (Z.eqb_spec number n) as [En|En].
              ** intros Ht. inversion Ht; subst. right. eauto.
              ** rewrite (Lookup_filter
                            (fun m => negb (Evicts tc (cache_ tc) number m))).
                 destruct (negb _); [auto|discriminate].
           ++ intros m t Hm. destruct (Z.eqb_spec number m) as [En|En];
                [congruence|].
              rewrite (Lookup_filter
                         (fun m => negb (Evicts tc (cache_ tc) number m))).
              destruct (negb _); [auto|discriminate].
        -- intros H. inversion H; subst.
           split; [auto|]. split; [discriminate|]. split; [discriminate|].
           split; [discriminate|]. split; [discriminate|].
           split; [|auto]. repeat split; auto.
      * intros H. inversion H; subst.
        split; [auto|]. split; [discriminate|]. split; [discriminate|].
        split; [discriminate|]. split; [discriminate|].
        split; [|auto]. repeat split; auto.
Qed.

(** X22.  [FindTable] caches no error and no reader but the one asked
    for: when it fails it yields no handle and leaves the cache as it
    was; with [no_io] set it leaves the cache as it was and gives
    Incomplete for a table that is not in it; a table that is in the
    cache is handed out with the cache left as it was; a reader handed
    out is in the cache afterwards; and whatever an insertion evicts, no
    other file gains a reader. *)
Theorem FindTable_frame tc number no_io s h tc' :
  FindTable tc number no_io = (s, h, tc') ->
  (ok s = false -> h = None /\ tc' = tc) /\
  (no_io = true -> tc' = tc) /\
  (no_io = true -> Lookup (cache_ tc) number = None ->
   IsIncomplete s = true) /\
  (forall t, Lookup (cache_ tc) number = Some t ->
             s = StatusOK /\ h = Some t /\ tc' = tc) /\
  (forall t, h = Some t -> Lookup (cache_ tc') number = Some t) /\
  cache_from tc tc' /\
  (forall m t, m <> number -> Lookup (cache_ tc') m = Some t ->
               Lookup (cache_ tc) m = Some t).
Proof. apply FindTable_facts. Qed.

(** X23.  After [Evict] the table is gone from the cache and the other
    tables are found as before; a [FindTable] with [no_io] set then
    answers Incomplete and opens nothing. *)
Theorem Evict_FindTable tc number :
  Lookup (cache_ (Evict tc number)) number = None /\
  (forall m, m <> number ->
             Lookup (cache_ (Evict tc number)) m = Lookup (cache_ tc) m) /\
  FindTable (Evict tc number) number true
  = (Incomplete "Table not found in table_cache, no_io is set", None,
     Evict tc number).
Proof.
  assert (H : Lookup (cache_ (Evict tc number)) number = None).
  { cbn [Evict cache_]. rewrite Lookup_Erase, Z.eqb_refl. reflexivity. }
  split; [assumption|]. split.
  - intros m Hm. cbn [Evict cache_]. rewrite Lookup_Erase.
    destruct (Z.eqb_spec m number); [congruence|reflexivity].
  - unfold FindTable. rewrite H. reflexivity.
Qed.


(** X25.  [GetTableProperties] answers from a preloaded reader without
    touching the cache; otherwise it answers from the reader [FindTable]
    yields, and when [FindTable] fails it returns that status, stores no
    properties and leaves the cache as it was. *)
Theorem table_properties (P : Type) (props : TableReader -> P) tc
        table_reader number no_io s p tc' :
  GetTableProperties P props tc table_reader number no_io = Some (s, p, tc') ->
  (forall t, table_reader = Some t ->
             s = StatusOK /\ p = Some (props t) /\ tc' = tc) /\
  (table_reader = None ->
   (ok s = true ->
    exists t, FindTable tc number no_io = (s, Some t, tc') /\
              p = Some (props t)) /\
   (ok s = false -> p = None /\ tc' = tc)).
Proof.
  unfold GetTableProperties.
  destruct table_reader as [t|].
  - intros H. inversion H; subst. split; [|discriminate].
    intros t0 E. inversion E; subst. auto.
  - destruct (FindTable tc number no_io) as [[s1 h] tc1] eqn:E.
    destruct (FindTable_facts _ _ _ _ _ _ E) as (Hfail & _).
    destruct (ok s1) eqn:Es; cbn [negb].
    + destruct h as [t|]; cbn [obind]; [|discriminate].
      intros H. inversion H; subst. split; [discriminate|].
      intros _. split; [eauto|congruence].
    + intros H. inversion H; subst. split; [discriminate|].
      intros _. split; [congruence|].
      intros _. destruct (Hfail eq_refl). auto.
Qed.

(** ** What [Get] does to the cache *)

Lemma cache_from_refl tc : cache_from tc tc.
Proof. unfold cache_from. repeat split; auto. Qed.

Lemma cache_from_trans a b c :
  cache_from a b -> cache_from b c -> cache_from a c.
Proof.
  unfold cache_from.
  intros (A1 & A2 & A3 & A4 & A5) (B1 & B2 & B3 & B4 & B5).
  repeat split; try congruence.
  intros n t H. destruct (B5 n t H) as [H1|(s & H1 & H2)].
  - auto.
  - right. exists s. rewrite <- A1. auto.
Qed.

Section Frame.

Variable R : TableCache -> TableCache -> Prop.
Hypothesis R_refl : forall tc, R tc tc.
Hypothesis R_trans : forall a b c, R a b -> R b c -> R a c.

Variable rec_get : FileMetaData -> InternalKey -> GetContext -> TableCache
                   -> option ScanState.
Hypothesis rec_R : forall f k c tc s' c' tc',
  rec_get f k c tc = Some (s', c', tc') -> R tc tc'.

Variable dm : DependenceMap.
Variable k : InternalKey.

Lemma get_links_frame find_k : forall n input s c tc b s' c' tc',
  get_links rec_get dm n input find_k (s, c, tc) = Some (b, (s', c', tc')) ->
  R tc tc'.
Proof.
  induction n as [|n IH]; intros input s c tc b s' c' tc' H;
    cbn [get_links] in H.
  - inversion H; subst. apply R_refl.
  - destruct (GetVarint64 input) as [[number input']|].
    2:{ inversion H; subst. apply R_refl. }
    destruct (find dm number) as [f|].
    2:{ inversion H; subst. apply R_refl. }
    destruct (rec_get f find_k c tc) as [[[s1 c1] tc1]|] eqn:E;
      cbn [obind] in H; [|discriminate].
    pose proof (rec_R _ _ _ _ _ _ _ E) as R1.
    destruct (negb (ok s1) || is_finished c1).
    + inversion H; subst. assumption.
    + eapply R_trans; [exact R1|]. eapply IH. eassumption.
Qed.

Lemma get_from_map_frame largest_key map_value s c tc b s' c' tc' :
  get_from_map rec_get dm k largest_key map_value (s, c, tc)
  = Some (b, (s', c', tc')) ->
  R tc tc'.
Proof.
  unfold get_from_map. intros H.
  destruct (negb (ok (decode_status map_value))).
  { inversion H; subst. apply R_refl. }
  destruct (decode_header (fields map_value)) as [[[[flags lc] sk] input]|].
  2:{ inversion H; subst. apply R_refl. }
  destruct (shrink_to_smallest k sk _) as [find_k|].
  2:{ inversion H; subst. apply R_refl. }
  destruct (beyond_largest k largest_key _).
  { inversion H; subst. apply R_refl. }
  destruct (get_links rec_get dm (Z.to_nat lc) input find_k _)
    as [[completed [[s1 c1] tc1]]|] eqn:HL; cbn [obind] in H; [|discriminate].
  apply get_links_frame in HL.
  destruct completed; inversion H; subst; assumption.
Qed.

Lemma scan_frame : forall entries s c tc s' c' tc',
  scan rec_get dm k entries (s, c, tc) = Some (s', c', tc') ->
  R tc tc'.
Proof.
  induction entries as [|[key value] entries IH];
    intros s c tc s' c' tc' H; cbn [scan] in H.
  - inversion H; subst. apply R_refl.
  - destruct (get_from_map rec_get dm k key value (s, c, tc))
      as [[more [[s1 c1] tc1]]|] eqn:E; cbn [obind] in H; [|discriminate].
    apply get_from_map_frame in E.
    destruct more.
    + eapply R_trans; [exact E|]. eapply IH. eassumption.
    + inversion H; subst. assumption.
Qed.

End Frame.

Lemma Get_frame (R : TableCache -> TableCache -> Prop) read_tier :
  (forall tc, R tc tc) ->
  (forall a b c, R a b -> R b c -> R a c) ->
  (forall tc f s t tc1, find_reader tc f read_tier = (s, t, tc1) -> R tc tc1) ->
  forall fuel tc ngrc f dm k c s' c' tc',
    Get fuel tc read_tier ngrc f dm k c = Some (s', c', tc') ->
    R tc tc'.
Proof.
  intros Hrefl Htrans Hfind.
  induction fuel as [|fuel IH]; intros tc ngrc f dm k c s' c' tc' H;
    [discriminate|].
  cbn [Get] in H.
  destruct (row_cache_hit tc ngrc f k c).
  { inversion H; subst. apply Hrefl. }
  destruct (find_reader tc f read_tier) as [[s t] tc1] eqn:Ef.
  pose proof (Hfind _ _ _ _ _ Ef) as R1.
  destruct (ok s).
  - destruct t as [t|]; cbn [obind] in H; [|discriminate].
    destruct (negb (is_map (purpose f))).
    + destruct (get_from_data tc ngrc f t k c) as [s1 c1].
      inversion H; subst. assumption.
    + destruct (empty dm).
      * inversion H; subst. assumption.
      * unfold RangeScan in H.
        eapply Htrans; [exact R1|].
        eapply (scan_frame R Hrefl Htrans); [|exact H].
        intros f0 k0 c0 tc0 s0 c0' tc0' E. eapply IH. exact E.
  - destruct (is_block_cache_tier read_tier && IsIncomplete s);
      inversion H; subst; assumption.
Qed.

Lemma find_reader_frame tc f read_tier s t tc1 :
  find_reader tc f read_tier = (s, t, tc1) ->
  cache_from tc tc1 /\ (read_tier = kBlockCacheTier -> tc1 = tc).
Proof.
  unfold find_reader. destruct (fd_table_reader f).
  - intros H. inversion H; subst. split; [apply cache_from_refl|auto].
  - intros H.
    destruct (FindTable_facts _ _ _ _ _ _ H) as (_ & Hio & _ & _ & _ & Hg & _).
    split; [assumption|]. intros ->. apply Hio. reflexivity.
Qed.

(** X26.  A lookup puts no reader in the table cache but one it opened
    for that very file: whatever the file, a map table or a data table,
    and whatever the insertions evict, every reader found in the cache
    after [Get] was found there before or is the reader
    [GetTableReader] opens, with status OK, under that file number; the
    environment of the cache is left as it was. *)
Theorem Get_cache_from fuel tc read_tier ngrc f dm k c s' c' tc' :
  Get fuel tc read_tier ngrc f dm k c = Some (s', c', tc') ->
  cache_from tc tc'.
Proof.
  apply (Get_frame cache_from read_tier).
  - apply cache_from_refl.
  - apply cache_from_trans.
  - intros tc0 f0 s t tc1 H. apply (find_reader_frame _ _ _ _ _ _ H).
Qed.


(** ** The query key within an element *)






(** ** [NewIterator] *)

(** X29.  [NewIterator] returns the error iterator only with a status
    that is not OK, and always when no reader could be had: then nothing
    is stored through [table_reader_ptr] and the cache and the
    aggregator are left as they were.  A reader opened for the iterator
    alone never enters the cache, and with the read tier set to the
    block cache no table is opened; the cache gains no reader but one
    opened for that very file.  A map table adds nothing to the
    aggregator. *)
Theorem NewIterator_frame (P : Type) (props : TableReader -> P)
        (tombstones : TableReader -> option Status) tc options table_filter
        file_meta dm range_del_agg sk lk result ptr tc' agg' :
  NewIterator P props tombstones tc options table_filter file_meta dm
              range_del_agg sk lk
  = Some (result, ptr, tc', agg') ->
  (forall s, result = ErrorIterator s -> ok s = false) /\
  (ptr = None ->
   (exists s, result = ErrorIterator s) /\ tc' = tc /\ agg' = range_del_agg) /\
  (creates_reader options = true -> tc' = tc) /\
  (read_tier options = kBlockCacheTier -> tc' = tc) /\
  cache_from tc tc' /\
  (is_map (purpose file_meta) = true -> agg' = range_del_agg).
Proof.
  unfold NewIterator, creates_reader.
  set (cr := if for_compaction options
             then if new_table_reader_for_compaction_inputs options
                  then (compaction_readahead_size options, true)
                  else (0, false)
             else (readahead_size options, readahead_size options >? 0)).
  assert (Hcr : snd cr = if for_compaction options
                         then new_table_reader_for_compaction_inputs options
                         else readahead_size options >? 0).
  { unfold cr. destruct (for_compaction options);
      [destruct (new_table_reader_for_compaction_inputs options)|];
      reflexivity. }
  destruct cr as [readahead create_new]. cbn [snd] in Hcr. rewrite <- Hcr.
  clear Hcr.
  (* the reader *)
  set (acq := if create_new
              then let '(s, t) := GetTableReader tc (fd_number file_meta) in
                   if ok s then (s, Some t, tc) else (s, None, tc)
              else match fd_table_reader file_meta with
                   | Some t => (StatusOK, Some t, tc)
                   | None =>
                       FindTable tc (fd_number file_meta)
                                 (is_block_cache_tier (read_tier options))
                   end).
  assert (Hacq : let '(s, t, tc1) := acq in
                 (ok s = false -> t = None /\ tc1 = tc) /\
                 (create_new = true -> tc1 = tc) /\
                 (read_tier options = kBlockCacheTier -> tc1 = tc) /\
                 cache_from tc tc1).
  { unfold acq. destruct create_new.
    - destruct (GetTableReader tc (fd_number file_meta)) as [s t].
      destruct (ok s) eqn:Es;
        (split; [|split; [|split]]); auto using cache_from_refl; congruence.
    - destruct (fd_table_reader file_meta) as [t|].
      + (split; [|split; [|split]]); auto using cache_from_refl; discriminate.
      + destruct (FindTable tc (fd_number file_meta)
                            (is_block_cache_tier (read_tier options)))
          as [[s t] tc1] eqn:Ef.
        destruct (FindTable_facts _ _ _ _ _ _ Ef)
          as (F1 & F2 & _ & _ & _ & F4 & _).
        split; [assumption|]. split; [discriminate|]. split; [|assumption].
        intros Ht. apply F2. rewrite Ht. reflexivity. }
  destruct acq as [[s table_reader] tc1].
  destruct Hacq as (A1 & A2 & A3 & A4).
  destruct (ok s) eqn:Es.
  - destruct table_reader as [t|]; cbn [obind]; [|discriminate].
    match goal with
    | |- context [obind ?X _] =>
        assert (Hagg : exists s2 agg2, X = Some (s2, agg2) /\
                  (is_map (purpose file_meta) = true -> agg2 = range_del_agg))
    end.
    { destruct range_del_agg as [agg|]; [|eauto].
      cbn [andb].
      destruct (ignore_range_deletions options); cbn [negb andb]; [eauto|].
      destruct (is_map (purpose file_meta)); cbn [negb]; [eauto|].
      destruct (AddFile_ (fd_number file_meta) agg) as [added agg1].
      destruct added; cbn [obind];
        [|eexists; eexists; split; [reflexivity|discriminate]].
      match goal with
      | |- context [if ok ?x then _ else _] => destruct (ok x)
      end; eexists; eexists; (split; [reflexivity|discriminate]). }
    destruct Hagg as (s2 & agg2 & -> & Hm). cbn [obind].
    intros H. inversion H; subst; clear H.
    split; [|split; [discriminate|auto]].
    intros s0 Hr. destruct (ok s2) eqn:E2; [|inversion Hr; subst; assumption].
    destruct table_filter as [keep|];
      [destruct (negb (keep (props t)))|];
      try destruct (is_map (purpose file_meta) && negb (empty dm));
      discriminate.
  - cbn [obind].
    replace (match range_del_agg with
             | Some agg =>
                 if false && negb (ignore_range_deletions options)
                    && negb (is_map (purpose file_meta))
                 then _
                 else Some (s, Some agg)
             | None => Some (s, None)
             end) with (Some (s, range_del_agg))
      by (destruct range_del_agg; reflexivity).
    cbn [obind]. rewrite Es.
    intros H. inversion H; subst; clear H.
    destruct (A1 eq_refl) as [_ ->].
    split; [intros s0 Hr; inversion Hr; subst; assumption|].
    split; [eauto|]. auto using cache_from_refl.
Qed.

(* ===================================================================== *)
(** * The theorems on concrete inputs *)
(* ===================================================================== *)

Section Examples.

#[local] Existing Instance every_type.

Lemma touching_not_fused_witness :
  PartitionRangeWithDepend
    [mkRange (mkIKey 1 10) (mkIKey 13 5) true true false true [mkLink 1 0]]
    [mkRange (mkIKey 13 5) (mkIKey 26 3) false true false true [mkLink 2 0]]
    kMerge
  = Some [mkRange (mkIKey 1 10) (mkIKey 13 5) true true false false [mkLink 1 0];
          mkRange (mkIKey 13 5) (mkIKey 26 3) false true false false [mkLink 2 0]].
Proof.
  apply (touching_not_fused (mkIKey 1 10) (mkIKey 13 5) (mkIKey 26 3)
                            false true false true [mkLink 1 0] [mkLink 2 0]).
  - vm_compute. discriminate.
  - vm_compute; reflexivity.
  - discriminate.
  - discriminate.
  - vm_compute; reflexivity.
  - vm_compute; reflexivity.
Defined.

(** ** Concrete partitions *)

Lemma partition_preserves_order_witness :
  (sorted_ranges s2_a = true /\ sorted_ranges s2_b = true) /\
  exists out,
    PartitionRangeWithDepend s2_a s2_b kMerge = Some out /\
    sorted_by_upper out = true /\
    non_overlapping out = true /\
    forallb nonempty_range out = true.
Proof.
  split; [split; vm_compute; reflexivity|].
  apply (partition_preserves_order s2_a s2_b kMerge).
  - vm_compute; reflexivity.
  - vm_compute; reflexivity.
  - left. discriminate.
Defined.

Lemma partition_coverage_witness :
  (sorted_ranges s2_a = true /\ sorted_ranges s2_d = true) /\
  exists out,
    PartitionRangeWithDepend s2_a s2_d kDelete = Some out /\
    forall x, key_in_range x ->
      (coverage out x = true -> expected_coverage kDelete s2_a s2_d x = true) /\
      (on_sentinel (s2_a ++ s2_d) x = false ->
       coverage out x = expected_coverage kDelete s2_a s2_d x).
Proof.
  split; [split; vm_compute; reflexivity|].
  apply (partition_coverage s2_a s2_d kDelete).
  - vm_compute; reflexivity.
  - vm_compute; reflexivity.
  - vm_compute; reflexivity.
  - discriminate.
  - left. discriminate.
Defined.

(** C1 as stated fails.  Both inputs are sorted, hold valid ranges with
    links, and neither range is an empty map element; the sentinel key
    of user key 9 is covered by the first input, yet in MERGE mode
    [put_right] drops the piece that held it. *)
Lemma partition_coverage_drops_sentinel :
  sorted_ranges c1_a = true /\ sorted_ranges c1_b = true /\
  has_links c1_a = true /\ has_links c1_b = true /\
  forallb (fun r => negb (IsEmptyMapSstElement r)) (c1_a ++ c1_b) = true /\
  exists out,
    PartitionRangeWithDepend c1_a c1_b kMerge = Some out /\
    coverage out (mkIKey 9 max_footer) = false /\
    expected_coverage kMerge c1_a c1_b (mkIKey 9 max_footer) = true.
Proof.
  repeat (split; [vm_compute; reflexivity|]).
  eexists. split; [vm_compute; reflexivity|]. split; vm_compute; reflexivity.
Qed.

Lemma merge_dependence_witness :
  (sorted_ranges s3_a = true /\ sorted_ranges s3_b = true) /\
  PartitionRangeWithDepend s3_a s3_b kMerge = Some (s3_a ++ s3_b) /\
  exists out,
    PartitionRangeWithDepend s3_a s3_b kMerge = Some out /\
    forall o, In o out ->
      (forall ra rb, In ra s3_a -> In rb s3_b ->
         within o ra = true -> within o rb = true ->
         dependence o = dependence ra ++ dependence rb /\ stable o = false) /\
      (forall ra, In ra s3_a -> within o ra = true ->
         (forall rb, In rb s3_b -> within o rb = false) ->
         dependence o = dependence ra /\ no_records o = no_records ra /\
         (stable o = true -> stable ra = true /\ same_bounds o ra) /\
         (stable ra = true -> same_bounds o ra ->
          forallb (fun rb => negb (touching rb ra)) s3_b = true ->
          stable o = true)) /\
      (forall rb, In rb s3_b -> within o rb = true ->
         (forall ra, In ra s3_a -> within o ra = false) ->
         dependence o = dependence rb /\ no_records o = no_records rb /\
         (stable o = true -> stable rb = true /\ same_bounds o rb) /\
         (stable rb = true -> same_bounds o rb ->
          forallb (fun ra => negb (touching ra rb)) s3_a = true ->
          stable o = true)).
Proof.
  split; [split; vm_compute; reflexivity|]. split; [vm_compute; reflexivity|].
  apply (merge_dependence s3_a s3_b).
  - vm_compute; reflexivity.
  - vm_compute; reflexivity.
  - left. discriminate.
Defined.

(** C3 as stated fails.  The first output range lies within the stable
    range of [ranges_a] and within no range of [ranges_b]; it carries
    that range's links, but it is a split of it and is not stable. *)
Lemma merge_split_not_stable :
  exists o rest ra,
    PartitionRangeWithDepend c3_a c3_b kMerge = Some (o :: rest) /\
    In ra c3_a /\ within o ra = true /\
    forallb (fun rb => negb (within o rb)) c3_b = true /\
    dependence o = dependence ra /\
    stable ra = true /\ stable o = false.
Proof.
  eexists. eexists. eexists.
  split; [vm_compute; reflexivity|]. split; [left; vm_compute; reflexivity|].
  repeat split.
Qed.

Lemma load_data_tables_witness :
  forallb (data_table_ok c5_cache) [c5_file] = true /\
  exists b',
    LoadRangeWithDepend c5_cache [c5_file] ([], None)
    = (StatusOK, ([] ++ map data_table_range [c5_file], b')).
Proof.
  split; [reflexivity|].
  apply (load_data_tables c5_cache [c5_file] [] None). reflexivity.
Defined.

(** C5 as stated fails: the footer of the largest key is all ones, yet
    the upper endpoint of the loaded range carries another footer. *)
Lemma load_sentinel_footer_rewritten :
  exists r,
    LoadRangeWithDepend c5_cache [c5_file] ([], None) = (StatusOK, ([r], None)) /\
    footer (largest c5_file) = kMaxUint64 /\
    footer (point1 r) <> footer (largest c5_file).
Proof.
  eexists. split; [reflexivity|]. split; [reflexivity|].
  vm_compute. discriminate.
Qed.

(* ===================================================================== *)
(** * The map element iterator *)
(* ===================================================================== *)

(** C6, the failing input.  File 7 has no key at or after the lower
    endpoint, so the tightened sub-range is empty; the loop leaves the
    link by [continue] and the element is emitted with the stale size
    100 instead of 0 (and with [no_records] set). *)
Lemma prepare_next_stale_size :
  buffer_ (SeekToFirst c6_cache [c6_range] (new_iterator [c6_range]))
  = Some (mkElement (mkIKey 5 10) (mkIKey 9 5) true true true [mkLink 7 100]).
Proof. reflexivity. Qed.

Lemma build_stable_short_circuit_witness :
  exists res,
    Build c7_env c7_cache [mkInputs 1 [c7_map_file]] [] [] 2 0 (mkWorld 100 [])
    = Some res /\
    ok (result_status res) = true /\
    result_file res = None /\
    result_world res = mkWorld 100 [].
Proof.
  apply (build_stable_short_circuit c7_env c7_cache 1 c7_map_file [] [] 2 0
           (mkWorld 100 []) StatusOK
           (mkLoaded [[RangeOfElement c7_element]]
                     (Update c7_map_file new_bound_builder) 1)
           [RangeOfElement c7_element] []);
    reflexivity.
Defined.

(** ** A small database: the map table 5 over the data tables 7 and 8 *)

Lemma get_missing_dependence_witness :
  (exists tc1,
      Get 1 (cold_cache [9] None) kReadAllTier false file5 [] query fresh_context
      = Some (Corruption "Composite sst depend files missing",
              fresh_context, tc1)) /\
  (exists c1 tc2,
      Get 2 (cold_cache [] None) kReadAllTier false file6 [(8, file8)]
          query fresh_context
      = Some (Corruption "Map sst depend files missing", c1, tc2)).
Proof.
  split.
  - eexists.
    apply (proj1 get_missing_dependence 0%nat (cold_cache [9] None)
                 kReadAllTier false file5 query fresh_context StatusOK
                 (map_reader [9])); reflexivity.
  - eexists. eexists. eapply proj1.
    eapply (proj2 get_missing_dependence 1%nat (cold_cache [] None)
                 kReadAllTier false file6 [(8, file8)] query
                 fresh_context StatusOK two_elements _
                 [(mkIKey 5 80, element_from (mkIKey 5 100) [8])]
                 (mkIKey 5 50) _ [] _ _ _ 3 1 (mkIKey 5 79) (mkIKey 5 79)
                 [] 9 []);
      try reflexivity.
    + cbn [scan_passes]. eexists. split; reflexivity.
    + simpl. lia.
Defined.

(** C8 as stated fails.  With the map table neither inlined nor cached
    and the read tier block-cache-only, GET with an empty dependence map
    returns OK; and an element naming the absent file 9 after file 7,
    which holds the record, returns OK with the record. *)
Lemma get_missing_dependence_not_corruption :
  Get 1 (cold_cache [9] None) kBlockCacheTier false file5 [] query fresh_context
  = Some (StatusOK, MarkKeyMayExist fresh_context, cold_cache [9] None) /\
  find [(7, file7)] 9 = None /\
  exists tc,
    Get 2 (cold_cache [7; 9] None) kReadAllTier false file5 [(7, file7)]
        query fresh_context
    = Some (StatusOK, mkCtx GetContext_kFound [42] 50 false false, tc).
Proof.
  split; [reflexivity|]. split; [reflexivity|]. eexists. reflexivity.
Qed.

Lemma ceiling_restored_witness :
  exists c' tc,
    get_from_map (fun f find_k c tc' =>
                    Get 1 tc' kReadAllTier false f [(8, file8)] find_k c)
                 [(8, file8)] query (mkIKey 5 50) (element_value [8])
                 (StatusOK, fresh_context, cold_cache [8] None)
    = Some (true, (StatusOK, c', tc)) /\
    GetMinSequenceAndType c' = GetMinSequenceAndType fresh_context.
Proof.
  eexists. eexists. split; [reflexivity|].
  apply (ceiling_restored
           (fun f find_k c tc' =>
              Get 1 tc' kReadAllTier false f [(8, file8)] find_k c)
           [(8, file8)] query (mkIKey 5 50) (element_value [8]) StatusOK
           fresh_context (cold_cache [8] None) true StatusOK _
           (mkTableCache [(8, reader8)]
                         (GetTableReader (cold_cache [8] None)) StatusOK
                         (fun _ _ _ => false) None)).
  - reflexivity.
  - left. reflexivity.
Defined.

(** C9 as stated fails.  The element ends on the user key of the query;
    the lookup into table 7 finds the record, and GET returns with the
    ceiling still capped at 50, not at the saved 0. *)
Lemma ceiling_not_restored :
  exists tc,
    Get 2 (cold_cache [7] None) kReadAllTier false file5 [(7, file7)]
        query fresh_context
    = Some (StatusOK, mkCtx GetContext_kFound [42] 50 false false, tc) /\
    GetMinSequenceAndType fresh_context = 0.
Proof. eexists. split; reflexivity. Qed.

Lemma get_block_cache_miss_witness :
  Get 1 (cold_cache [] None) kBlockCacheTier false file7 [] query fresh_context
  = Some (StatusOK, MarkKeyMayExist fresh_context, cold_cache [] None).
Proof.
  apply (get_block_cache_miss 0%nat (cold_cache [] None) false file7 [] query
                              fresh_context); reflexivity.
Defined.

(** C10 as stated fails.  The row cache answers the lookup: GET returns
    OK with the record and does not mark the key as possibly
    existing. *)
Lemma get_block_cache_miss_row_cache_hit :
  fd_table_reader file7 = None /\
  Lookup (cache_ (cold_cache [] (Some warm_row_cache))) (fd_number file7) = None /\
  Get 1 (cold_cache [] (Some warm_row_cache)) kBlockCacheTier false file7 []
      query fresh_context
  = Some (StatusOK, mkCtx GetContext_kFound [42] 0 false false,
          cold_cache [] (Some warm_row_cache)) /\
  key_may_exist (mkCtx GetContext_kFound [42] 0 false false) = false.
Proof. repeat split. Qed.

(* ===================================================================== *)
(** * The further properties on concrete inputs *)
(* ===================================================================== *)

Lemma partition_output_kept_witness :
  exists out,
    PartitionRangeWithDepend s2_a s2_b kMerge = Some out /\
    forall o, In o out ->
      dependence o <> [] /\ IsEmptyMapSstElement o = false /\
      (Compare (point1 o) (point0 o) = 0 ->
       include0 o = true /\ include1 o = true).
Proof.
  eexists. split; [vm_compute; reflexivity|].
  eapply (partition_output_kept s2_a s2_b kMerge). vm_compute; reflexivity.
Defined.

Lemma delete_dependence_witness :
  (sorted_ranges s2_a = true /\ sorted_ranges s2_d = true) /\
  exists out,
    PartitionRangeWithDepend s2_a s2_d kDelete = Some out /\
    forall o, In o out ->
      (exists ra, In ra s2_a /\ within o ra = true /\
                  dependence o = dependence ra /\
                  no_records o = no_records ra /\
                  (stable o = true -> stable ra = true /\ same_bounds o ra)) /\
      (forall rb, In rb s2_d ->
                  ends_before rb o = true \/ ends_before o rb = true).
Proof.
  split; [split; vm_compute; reflexivity|].
  apply (delete_dependence s2_a s2_d).
  - vm_compute; reflexivity.
  - vm_compute; reflexivity.
  - left. discriminate.
Defined.

Lemma load_map_table_witness :
  exists b',
    LoadRangeWithDepend c7_cache [c7_map_file] ([], None)
    = (StatusOK, ([] ++ [RangeOfElement c7_element], b')) /\
    forallb stable [RangeOfElement c7_element] = true.
Proof.
  apply (load_map_table c7_cache c7_map_file [] None); vm_compute; reflexivity.
Defined.

Lemma load_map_table_error_witness :
  LoadRangeWithDepend torn_cache [c7_map_file] ([], None)
  = (Corruption "Map sst invalid key or value",
     ([] ++ [RangeOfElement c7_element], None)) /\
  ok (Corruption "Map sst invalid key or value") = false.
Proof.
  apply (load_map_table_error torn_cache c7_map_file [] None
           [mkEntry (mkIKey 9 5) StatusOK (Some c7_element)]
           (mkEntry (mkIKey 12 5) StatusOK None) []);
    vm_compute; reflexivity.
Defined.

Lemma load_bounds_witness :
  exists b',
    Some (mkBound (Some (mkIKey 0 10)) (Some (mkIKey 12 5)) 1 20 0) = Some b' /\
    forall f, In f [c7_data_file] -> bounds_file c7_cache b' f.
Proof.
  apply (load_bounds c7_cache [c7_data_file] [] new_bound_builder StatusOK
           [RangeOfFile c7_data_file]);
    vm_compute; reflexivity.
Defined.

Lemma stable_elements_round_trip_witness :
  exists it,
    drain 2 c7_cache
          (SeekToFirst c7_cache [RangeOfElement c7_element]
                       (new_iterator [RangeOfElement c7_element])) []
    = ([c7_element], it) /\
    Valid it = false /\ status_ it = StatusOK.
Proof.
  apply (stable_elements_round_trip c7_cache [c7_element]). vm_compute; reflexivity.
Defined.

Lemma written_dependence_witness :
  exists s o w',
    WriteOutputFile c7_env c7_cache new_bound_builder
                    [RangeOfElement c7_element] 0 (mkWorld 100 [])
    = (s, Some o, w') /\
    StronglySorted Z.lt (out_dependence o) /\
    (forall n, In n (out_dependence o) ->
               In n (linked_files [RangeOfElement c7_element])) /\
    (ok s = true ->
     forall n, In n (linked_files [RangeOfElement c7_element]) ->
               In n (out_dependence o)).
Proof.
  eexists. eexists. eexists. split; [vm_compute; reflexivity|].
  eapply (written_dependence c7_env c7_cache new_bound_builder
            [RangeOfElement c7_element] 0 (mkWorld 100 [])).
  vm_compute; reflexivity.
Defined.

Lemma build_failure_no_edit_witness :
  exists r,
    Build c7_env broken_cache [mkInputs 1 [c7_data_file]] [] [] 2 0
          (mkWorld 100 []) = Some r /\
    ok (result_status r) = false /\
    result_edit r = [].
Proof.
  eexists. split; [vm_compute; reflexivity|]. split; [vm_compute; reflexivity|].
  eapply (build_failure_no_edit c7_env broken_cache
            [mkInputs 1 [c7_data_file]] [] [] 2 0 (mkWorld 100 []));
    vm_compute; reflexivity.
Defined.

Lemma build_world_witness :
  exists r,
    Build c7_env c7_cache [mkInputs 1 [c7_map_file]] [] [c7_data_file] 2 0
          (mkWorld 100 []) = Some r /\
    match result_file r with
    | Some o =>
        fd_number (out_meta o) = 100 /\
        purpose (out_meta o) = kMapSst /\
        next_file_number (result_world r) = 100 + 1 /\
        exists t, tables_written (result_world r) = [] ++ [(100, t)]
    | None =>
        tables_written (result_world r) = [] /\
        100 <= next_file_number (result_world r) <= 100 + 1 /\
        (ok (result_status r) = true -> result_world r = mkWorld 100 [])
    end.
Proof.
  eexists. split; [vm_compute; reflexivity|].
  eapply (build_world c7_env c7_cache [mkInputs 1 [c7_map_file]] []
            [c7_data_file] 2 0 (mkWorld 100 [])).
  vm_compute. reflexivity.
Defined.

Lemma build_moves_data_tables_witness :
  movable c7_cache c7_data_file /\
  Build c7_env c7_cache [mkInputs 1 [c7_data_file]] [] [] 2 0 (mkWorld 100 [])
  = Some (mkResult StatusOK
                   [DeleteFile 1 7; AddFile 2 c7_data_file] None
                   (mkWorld 100 [])).
Proof.
  assert (M : movable c7_cache c7_data_file).
  { unfold movable. split; [vm_compute; reflexivity|]. split; [|vm_compute; reflexivity].
    vm_compute. discriminate. }
  split; [exact M|].
  apply (build_moves_data_tables c7_env c7_cache 1 [c7_data_file] 2 0
           (mkWorld 100 [])).
  - discriminate.
  - discriminate.
  - intros f [<- |[]]. exact M.
  - repeat constructor. intros [].
  - left. discriminate.
Defined.

Lemma single_file_sorted f : files_sorted [f].
Proof.
  intros i j fi fj _ Hi Hj.
  destruct i as [|i]; [|destruct i; discriminate].
  destruct j as [|j]; [|destruct j; discriminate].
  cbn in Hi, Hj. inversion Hi; inversion Hj; subst.
  rewrite Compare_refl. lia.
Qed.

Lemma Seek_data_files_witness :
  exists st',
    MapElementIterator.Seek [file7] one_entry query
                            (MapElementIterator.new [file7]) = Some st' /\
    MapElementIterator.status st' = StatusOK /\
    (forall j f, (j < MapElementIterator.where_ st')%nat ->
                 nth_error [file7] j = Some f -> Compare (largest f) query < 0) /\
    match nth_error [file7] (MapElementIterator.where_ st') with
    | Some f =>
        Compare (largest f) query >= 0 /\
        MapElementIterator.Valid [file7] st' = true /\
        MapElementIterator.key_slice st' = largest f /\
        MapElementIterator.value_slice st'
        = MapElementIterator.ElementValue (file_element f)
    | None => MapElementIterator.Valid [file7] st' = false
    end.
Proof.
  apply (Seek_data_files [file7] one_entry query
           (MapElementIterator.new [file7])).
  - apply single_file_sorted.
  - intros f [<- |[]]. vm_compute; reflexivity.
Defined.

Lemma SeekForPrev_data_files_witness :
  exists st',
    MapElementIterator.SeekForPrev [file7] one_entry query
                                   (MapElementIterator.new [file7])
    = Some st' /\
    MapElementIterator.status st' = StatusOK /\
    (forall j f, (MapElementIterator.where_ st' < j)%nat ->
                 nth_error [file7] j = Some f -> Compare query (largest f) < 0) /\
    match nth_error [file7] (MapElementIterator.where_ st') with
    | Some f =>
        Compare query (largest f) >= 0 /\
        MapElementIterator.Valid [file7] st' = true /\
        MapElementIterator.key_slice st' = largest f /\
        MapElementIterator.value_slice st'
        = MapElementIterator.ElementValue (file_element f)
    | None =>
        MapElementIterator.Valid [file7] st' = false /\
        forall f, In f [file7] -> Compare query (largest f) < 0
    end.
Proof.
  apply (SeekForPrev_data_files [file7] one_entry query
           (MapElementIterator.new [file7])).
  - apply single_file_sorted.
  - intros f [<- |[]]. vm_compute; reflexivity.
Defined.

Lemma forward_scan_witness :
  exists st0 st',
    MapElementIterator.SeekToFirst [file5; file7] one_entry
                                   (MapElementIterator.new [file5; file7])
    = Some st0 /\
    collect 2 [file5; file7] one_entry st0 []
    = Some ([(mkIKey 5 50, MapElementIterator.TableValue (element_value [7]));
             (mkIKey 9 1, MapElementIterator.ElementValue (file_element file7))],
            st') /\
    MapElementIterator.Valid [file5; file7] st' = false /\
    MapElementIterator.status st' = StatusOK.
Proof.
  apply (forward_scan [file5; file7] one_entry).
  - discriminate.
  - intros f [<- |[<- |[]]]; intros Hm; [|discriminate].
    split; [vm_compute; reflexivity|discriminate].
Defined.

Lemma forward_scan_error_witness :
  exists st0 st',
    MapElementIterator.SeekToFirst [file7; file5] no_entry
                                   (MapElementIterator.new [file7; file5])
    = Some st0 /\
    collect 1 [file7; file5] no_entry st0 []
    = Some ([(mkIKey 9 1,
              MapElementIterator.ElementValue (file_element file7))], st') /\
    MapElementIterator.Valid [file7; file5] st' = false /\
    MapElementIterator.status st' = Corruption "bad block" /\
    ok (MapElementIterator.status st') = false.
Proof.
  apply (forward_scan_error [file7; file5] no_entry [file7] file5 []).
  - vm_compute; reflexivity.
  - intros f [<- |[]]. intros Hm. discriminate.
  - split; vm_compute; reflexivity.
Defined.

Lemma FindTable_again_witness :
  exists tc',
    FindTable (cold_cache [7] None) 7 false = (StatusOK, Some reader7, tc') /\
    FindTable tc' 7 true = (StatusOK, Some reader7, tc').
Proof.
  eexists. split; [vm_compute; reflexivity|].
  eapply (FindTable_again (cold_cache [7] None) 7 false). vm_compute; reflexivity.
Defined.

Lemma FindTable_frame_witness :
  exists tc',
    FindTable full_cache 7 false = (StatusOK, Some reader7, tc') /\
    Lookup (cache_ full_cache) 8 = Some reader8 /\
    Lookup (cache_ tc') 8 = None /\
    Lookup (cache_ tc') 7 = Some reader7 /\
    cache_from full_cache tc'.
Proof.
  eexists. split; [vm_compute; reflexivity|]. split; [vm_compute; reflexivity|].
  split; [vm_compute; reflexivity|]. split; [vm_compute; reflexivity|].
  eapply (FindTable_frame full_cache 7 false). vm_compute; reflexivity.
Defined.


Lemma table_properties_witness :
  exists tc',
    GetTableProperties Z reader_creation_time (cold_cache [7] None) None 7 false
    = Some (StatusOK, Some 0, tc') /\
    (forall t, @None TableReader = Some t ->
               StatusOK = StatusOK /\ Some 0 = Some (reader_creation_time t)
               /\ tc' = cold_cache [7] None) /\
    (@None TableReader = None ->
     (ok StatusOK = true ->
      exists t, FindTable (cold_cache [7] None) 7 false
                = (StatusOK, Some t, tc') /\
                Some 0 = Some (reader_creation_time t)) /\
     (ok StatusOK = false -> Some 0 = None /\ tc' = cold_cache [7] None)).
Proof.
  eexists. split; [vm_compute; reflexivity|].
  eapply (table_properties Z reader_creation_time (cold_cache [7] None)
            None 7 false).
  vm_compute; reflexivity.
Defined.

Lemma Get_cache_from_witness :
  exists s c tc',
    Get 2 (cold_cache [7] None) kReadAllTier false file5 [(7, file7)] query
        fresh_context = Some (s, c, tc') /\
    cache_from (cold_cache [7] None) tc'.
Proof.
  eexists. eexists. eexists. split; [vm_compute; reflexivity|].
  eapply (Get_cache_from 2 (cold_cache [7] None) kReadAllTier false file5
            [(7, file7)] query fresh_context).
  vm_compute; reflexivity.
Defined.



Lemma resolve_links_all_witness :
  exists deps',
    resolve_links c6_cache (mkIKey 1 5) (mkIKey 2 5) true true
                  [mkLink 7 100] [] true []
    = (StatusOK,
       ([] ++ map (fun l => fst (tighten_link
                                   (GetIterator c6_cache (file_number l))
                                   (mkIKey 1 5) (mkIKey 2 5) true true l))
                  [mkLink 7 100],
        true
        && forallb (fun l => negb (snd (tighten_link
                                          (GetIterator c6_cache (file_number l))
                                          (mkIKey 1 5) (mkIKey 2 5) true true l)))
                   [mkLink 7 100],
        deps')).
Proof.
  apply (resolve_links_all c6_cache (mkIKey 1 5) (mkIKey 2 5) true true
           [mkLink 7 100] [] true []).
  intros l [<- |[]]. vm_compute; reflexivity.
Defined.

Lemma NewIterator_frame_witness :
  exists result ptr tc' agg',
    NewIterator unit (fun _ => tt) (fun _ => None) (cold_cache [7] None)
                plain_options None file7 [] (Some (mkAgg [] [])) None None
    = Some (result, ptr, tc', agg') /\
    (forall s, result = ErrorIterator s -> ok s = false) /\
    (ptr = None ->
     (exists s, result = ErrorIterator s) /\ tc' = cold_cache [7] None /\
     agg' = Some (mkAgg [] [])) /\
    (creates_reader plain_options = true -> tc' = cold_cache [7] None) /\
    (read_tier plain_options = kBlockCacheTier -> tc' = cold_cache [7] None) /\
    cache_from (cold_cache [7] None) tc' /\
    (is_map (purpose file7) = true -> agg' = Some (mkAgg [] [])).
Proof.
  eexists. eexists. eexists. eexists. split; [vm_compute; reflexivity|].
  eapply (NewIterator_frame unit (fun _ => tt) (fun _ => None)
            (cold_cache [7] None) plain_options None file7 []
            (Some (mkAgg [] [])) None None).
  vm_compute; reflexivity.
Defined.

End Examples.
